(** * deno-context: cancellation and deadline scopes

    A shallow embedding of [Context.ts], [CancelableContext.ts] and
    [DeadlineContext.ts].  JavaScript objects live in a store indexed by
    allocation order; methods are state transformers in a small state and
    exception monad; the host's timers and the continuations parked on a
    promise are explicit tables that the event loop steps. *)

From stdpp Require Import base numbers list strings relations.

(** ** Values of the host language *)

(** Object identity: the position of the object in the store. *)
Abbreviation ref := nat (only parsing).

(** A client callback [(cause: string) => void], known by its name and by
    what a call of it does: it returns, or it throws.  The library only
    ever calls it, and the call is what can be observed.  Callbacks are
    taken not to call back into the library while they run. *)
Inductive CancelCallback :=
| Returning (name : nat)
| Throwing (name : nat).

Global Instance CancelCallback_eq_dec : EqDecision CancelCallback.
Proof. solve_decision. Defined.

(** The handle returned by [setTimeout]. *)
Abbreviation TimerId := nat (only parsing).

(** The dynamic class of an object, which decides [instanceof] and the
    method a virtual call reaches. *)
Inductive Class := KContext | KCancelableContext | KDeadlineContext.

(** A slot that may hold [undefined], [null] or a value. *)
Inductive Slot (A : Type) := Undefined | Null | Val (a : A).
Arguments Undefined {A}.
Arguments Null {A}.
Arguments Val {A} a.

(** An own data property that may be absent; [writable] is its attribute
    (all properties of this program are non-configurable once defined). *)
Inductive Property (A : Type) := Absent | Data (writable : bool) (value : A).
Arguments Absent {A}.
Arguments Data {A} writable value.

(** What is thrown: a [TypeError] of the host, or whatever the client
    callback of that name throws. *)
Inductive Error := TypeError | Raised (name : nat).

(** ** Objects *)

Record Obj := mkObj {
  cls : Class;
  parent : option ref;                 (* Context.parent *)
  canceled : bool;                     (* CancelableContext.canceled *)
  cause : option string;               (* CancelableContext.cause, None is null *)
  cancelCallback : list CancelCallback;
  controller : option string;          (* the signal: None until aborted, then its reason *)
  children : Property (option ref);    (* the "children" property, None is null *)
  timeoutId : Slot TimerId;            (* DeadlineContext.timeoutId *)
  doneResolve : bool;                  (* whether doneResolve holds the resolver *)
  _done : option string                (* the promise: None pending, Some v fulfilled *)
}.

Definition blank (k : Class) : Obj :=
  mkObj k None false None [] None Absent Undefined false None.

Definition set_parent (v : option ref) (o : Obj) : Obj :=
  mkObj (cls o) v (canceled o) (cause o) (cancelCallback o) (controller o)
        (children o) (timeoutId o) (doneResolve o) (_done o).
Definition set_canceled (v : bool) (o : Obj) : Obj :=
  mkObj (cls o) (parent o) v (cause o) (cancelCallback o) (controller o)
        (children o) (timeoutId o) (doneResolve o) (_done o).
Definition set_cause (v : option string) (o : Obj) : Obj :=
  mkObj (cls o) (parent o) (canceled o) v (cancelCallback o) (controller o)
        (children o) (timeoutId o) (doneResolve o) (_done o).
Definition set_cancelCallback (v : list CancelCallback) (o : Obj) : Obj :=
  mkObj (cls o) (parent o) (canceled o) (cause o) v (controller o)
        (children o) (timeoutId o) (doneResolve o) (_done o).
Definition set_controller (v : option string) (o : Obj) : Obj :=
  mkObj (cls o) (parent o) (canceled o) (cause o) (cancelCallback o) v
        (children o) (timeoutId o) (doneResolve o) (_done o).
Definition set_children (v : Property (option ref)) (o : Obj) : Obj :=
  mkObj (cls o) (parent o) (canceled o) (cause o) (cancelCallback o) (controller o)
        v (timeoutId o) (doneResolve o) (_done o).
Definition set_timeoutId (v : Slot TimerId) (o : Obj) : Obj :=
  mkObj (cls o) (parent o) (canceled o) (cause o) (cancelCallback o) (controller o)
        (children o) v (doneResolve o) (_done o).
Definition set_doneResolve (v : bool) (o : Obj) : Obj :=
  mkObj (cls o) (parent o) (canceled o) (cause o) (cancelCallback o) (controller o)
        (children o) (timeoutId o) v (_done o).
Definition set_done (v : option string) (o : Obj) : Obj :=
  mkObj (cls o) (parent o) (canceled o) (cause o) (cancelCallback o) (controller o)
        (children o) (timeoutId o) (doneResolve o) v.

(** ** The host: timers, parked continuations, observable calls *)

Inductive TimerStatus := Pending | Cleared | Fired.

(** A timer armed by [setTimeout(() => target.finish(), delay)]. *)
Record Timer := mkTimer { target : ref; delay : Z; status : TimerStatus }.

(** The continuation of [await awaited.done] in the constructor of
    [waiting]: once the promise is fulfilled it runs
    [waiting.cancel(awaited.getCause()!)]. *)
Record Waiter := mkWaiter { awaited : ref; waiting : ref; resumed : bool }.

(** What the library does to its collaborators: [Invoke o cb c] is scope
    [o] calling the client callback [cb] with [c]; [Abort o r] is scope [o]
    calling [controller.abort(r)]. *)
Inductive Event :=
| Invoke (o : ref) (cb : CancelCallback) (arg : string)
| Abort (o : ref) (reason : string).

Record State := mkState {
  heap : list Obj;
  timers : list Timer;
  waiters : list Waiter;
  trace : list Event
}.

Definition boot : State := mkState [] [] [] [].

(** ** The monad of methods *)

(** A method returns, throws, or goes [Wrong]: the last is a fault of the
    model (a dangling reference, a [null] under a non-null assertion, no
    fuel left for a virtual call), never a behaviour of the program. *)
Inductive Res (A : Type) :=
| Ret (a : A) (s : State)
| Throw (e : Error) (s : State)
| Wrong.
Arguments Ret {A} a s.
Arguments Throw {A} e s.
Arguments Wrong {A}.

Definition M (A : Type) := State → Res A.

Definition ret {A} (a : A) : M A := fun s => Ret a s.
Definition throw {A} (e : Error) : M A := fun s => Throw e s.
Definition wrong {A} : M A := fun _ => Wrong.
Definition bind {A B} (m : M A) (k : A → M B) : M B :=
  fun s => match m s with
           | Ret a s' => k a s'
           | Throw e s' => Throw e s'
           | Wrong => Wrong
           end.

Notation "'let!' x ':=' m 'in' k" := (bind m (fun x => k))
  (at level 10, x name, m at level 100, k at level 200).
Notation "m ';;' k" := (bind m (fun _ => k))
  (at level 100, k at level 200, right associativity).

Definition read (o : ref) : M Obj :=
  fun s => match heap s !! o with Some ob => Ret ob s | None => Wrong end.

Definition upd_heap (f : list Obj → list Obj) (s : State) : State :=
  mkState (f (heap s)) (timers s) (waiters s) (trace s).
Definition upd_timers (f : list Timer → list Timer) (s : State) : State :=
  mkState (heap s) (f (timers s)) (waiters s) (trace s).
Definition upd_waiters (f : list Waiter → list Waiter) (s : State) : State :=
  mkState (heap s) (timers s) (f (waiters s)) (trace s).
Definition upd_trace (f : list Event → list Event) (s : State) : State :=
  mkState (heap s) (timers s) (waiters s) (f (trace s)).

Definition modify (o : ref) (f : Obj → Obj) : M unit :=
  fun s => match heap s !! o with
           | Some ob => Ret tt (upd_heap (λ h, <[o := f ob]> h) s)
           | None => Wrong
           end.

Definition alloc (k : Class) : M ref :=
  fun s => Ret (length (heap s)) (upd_heap (λ h, h ++ [blank k]) s).

Definition emit (e : Event) : M unit :=
  fun s => Ret tt (upd_trace (λ t, t ++ [e]) s).

(** The non-null assertion [e!]. *)
Definition nonnull {A} (v : option A) : M A :=
  match v with Some a => ret a | None => wrong end.

Fixpoint forEach {A} (l : list A) (f : A → M unit) : M unit :=
  match l with
  | [] => ret tt
  | a :: l' => f a;; forEach l' f
  end.

(** [setTimeout], [clearTimeout]: clearing a timer that has fired or was
    cleared does nothing. *)
Definition setTimeout (o : ref) (ms : Z) : M TimerId :=
  fun s => Ret (length (timers s)) (upd_timers (λ T, T ++ [mkTimer o ms Pending]) s).

Definition clear_timer (tm : Timer) : Timer :=
  match status tm with
  | Pending => mkTimer (target tm) (delay tm) Cleared
  | _ => tm
  end.

Definition disarm (t : TimerId) (T : list Timer) : list Timer :=
  match T !! t with
  | Some tm => <[t := clear_timer tm]> T
  | None => T
  end.

Definition clearTimeout (t : TimerId) : M unit :=
  fun s => Ret tt (upd_timers (disarm t) s).

(** [controller.abort(reason)]: the first reason stays. *)
Definition abort (o : ref) (reason : string) : M unit :=
  emit (Abort o reason);;
  modify o (λ ob, match controller ob with
                  | None => set_controller (Some reason) ob
                  | Some _ => ob
                  end).

(** [Object.defineProperty(o, "children", { value: v })]: creates a
    read-only property when there is none, writes a writable one, and
    throws on a read-only one unless the value is the same. *)
Definition defineProperty_children (o v : ref) : M unit :=
  let! ob := read o in
  match children ob with
  | Absent => modify o (set_children (Data false (Some v)))
  | Data true _ => modify o (set_children (Data true (Some v)))
  | Data false cur =>
      if decide (cur = Some v) then ret tt else throw TypeError
  end.

(** ** Context.ts *)

Definition Context_constructor (this : ref) (p : option ref) : M unit :=
  modify this (set_parent p).

Definition new_Context (p : option ref) : M ref :=
  let! this := alloc KContext in
  Context_constructor this p;;
  ret this.

Definition background : M ref := new_Context None.
Definition todo : M ref := new_Context None.

Definition getParent (this : ref) : M (option ref) :=
  let! ob := read this in ret (parent ob).

(** ** CancelableContext.ts *)

Definition isCancelled (this : ref) : M bool :=
  let! ob := read this in ret (canceled ob).

Definition getCause (this : ref) : M (option string) :=
  let! ob := read this in ret (cause ob).

Definition setCause (this : ref) (c : string) : M unit :=
  modify this (set_cause (Some c)).

(** [getParent] as [CancelableContext] overrides it: [return this.parent!]. *)
Definition CancelableContext_getParent (this : ref) : M ref :=
  let! ob := read this in nonnull (parent ob).

(** [getController], seen through its signal: [None] while the signal is
    not aborted, and then its reason. *)
Definition getController (this : ref) : M (option string) :=
  let! ob := read this in ret (controller ob).

Definition instanceof_CancelableContext (o : ref) : M bool :=
  let! ob := read o in
  ret (match cls ob with KContext => false | _ => true end).

Definition instanceof_DeadlineContext (o : ref) : M bool :=
  let! ob := read o in
  ret (match cls ob with KDeadlineContext => true | _ => false end).

Definition default_cause : string := "context canceled"%string.

(** [callback(x)]: the call happens, and then the callback returns or
    throws. *)
Definition call (this : ref) (callback : CancelCallback) (x : string) : M unit :=
  emit (Invoke this callback x);;
  match callback with
  | Returning _ => ret tt
  | Throwing n => throw (Raised n)
  end.

(** The body of [CancelableContext.cancel]; [virt] is the virtual call
    [this.children.cancel]. *)
Definition CancelableContext_cancel (virt : ref → string → M unit)
    (this : ref) (c : string) : M unit :=
  let! ob := read this in
  if canceled ob then ret tt
  else
    modify this (set_canceled true);;
    modify this (set_cause (Some c));;
    let! ob := read this in
    forEach (cancelCallback ob)
      (λ callback, let! v := getCause this in
                   let! x := nonnull v in
                   call this callback x);;
    abort this c;;
    let! ob := read this in
    match children ob with
    | Absent => throw TypeError
    | Data _ None => ret tt
    | Data _ (Some child) => virt child c
    end.

Definition onCancel (this : ref) (callback : CancelCallback) : M unit :=
  let! ob := read this in
  if canceled ob then
    let! x := nonnull (cause ob) in
    call this callback x
  else
    modify this (λ o, set_cancelCallback (cancelCallback o ++ [callback]) o).

(** ** DeadlineContext.ts *)

Definition deadline_cause : string := "context deadline exceeded"%string.

Definition call_doneResolve (this : ref) (c : string) : M unit :=
  let! ob := read this in
  if doneResolve ob then
    modify this (λ o, match _done o with
                      | None => set_done (Some c) o
                      | Some _ => o
                      end)
  else throw TypeError.

(** The getter [done], seen through the state of the promise it returns:
    [None] while it is pending, and then its value. *)
Definition DeadlineContext_done (this : ref) : M (option string) :=
  let! ob := read this in ret (_done ob).

Definition DeadlineContext_clearTimeout (this : ref) : M unit :=
  let! ob := read this in
  match timeoutId ob with
  | Null => ret tt
  | Undefined => modify this (set_timeoutId Null)
  | Val t => clearTimeout t;; modify this (set_timeoutId Null)
  end.

Definition DeadlineContext_cancel (virt : ref → string → M unit)
    (this : ref) (c : string) : M unit :=
  DeadlineContext_clearTimeout this;;
  CancelableContext_cancel virt this c;;
  call_doneResolve this c.

Definition DeadlineContext_finish (this : ref) : M unit :=
  setCause this deadline_cause;;
  let! v := getCause this in
  let! x := nonnull v in
  abort this x;;
  let! v := getCause this in
  let! x := nonnull v in
  call_doneResolve this x.

Definition DeadlineContext_initializeTimer (this : ref) (timeoutMs : Z) : M unit :=
  let! ob := read this in
  match timeoutId ob with
  | Val _ => ret tt
  | _ =>
      let! t := setTimeout this timeoutMs in
      modify this (set_timeoutId (Val t))
  end.

(** ** Virtual dispatch of [cancel] *)

(** [o.cancel(c)] runs the method of [o]'s class; the cascade into the
    linked child is a nested virtual call, bounded here by [fuel]. *)
Fixpoint cancel_fuel (fuel : nat) (o : ref) (c : string) : M unit :=
  match fuel with
  | 0 => wrong
  | S fuel' =>
      let! ob := read o in
      match cls ob with
      | KContext => throw TypeError
      | KCancelableContext => CancelableContext_cancel (cancel_fuel fuel') o c
      | KDeadlineContext => DeadlineContext_cancel (cancel_fuel fuel') o c
      end
  end.

(** A child is always allocated after the scope it hangs from, so a
    cascade from [o] is no longer than the part of the store above [o]. *)
Definition invoke_cancel (o : ref) (c : string) : M unit :=
  fun s => cancel_fuel (length (heap s) - o) o c s.

(** [o.cancel(cause?)] as a client calls it. *)
Definition cancel (o : ref) (c : option string) : M unit :=
  invoke_cancel o (default default_cause c).

(** ** Constructors *)

Definition CancelableContext_constructor (this p : ref) : M unit :=
  Context_constructor this (Some p);;
  modify this (set_controller None);;
  modify this (set_cancelCallback []);;
  modify this (set_cause None);;
  modify this (set_canceled false);;
  modify this (set_children (Data true None));;
  let! isC := instanceof_CancelableContext p in
  if isC then
    let! dead := isCancelled p in
    if dead then
      let! v := getCause p in
      let! x := nonnull v in
      invoke_cancel this x
    else defineProperty_children p this
  else ret tt.

Definition new_CancelableContext (p : ref) : M ref :=
  let! this := alloc KCancelableContext in
  CancelableContext_constructor this p;;
  ret this.

(** [(async () => { await p.done; this.cancel(p.getCause()!) })()]: the
    body up to the [await] does nothing, and the rest is parked. *)
Definition spawn_await (p this : ref) : M unit :=
  fun s => Ret tt (upd_waiters (λ W, W ++ [mkWaiter p this false]) s).

(** The fields [timeoutId], [doneResolve] and [_done] do not exist while
    [super(parent)] runs.  Whether the compiler also resets them to
    [undefined] when [super] returns makes no difference: the one path that
    writes [timeoutId] before that point throws. *)
Definition DeadlineContext_constructor (this p : ref) (timeoutMs : Z) : M unit :=
  CancelableContext_constructor this p;;
  DeadlineContext_initializeTimer this timeoutMs;;
  modify this (λ o, set_doneResolve true (set_done None o));;
  let! isC := instanceof_CancelableContext p in
  if isC then
    let! dead := isCancelled p in
    if dead then
      let! v := getCause p in
      let! x := nonnull v in
      invoke_cancel this x
    else
      let! isD := instanceof_DeadlineContext p in
      (if isD then spawn_await p this else ret tt);;
      defineProperty_children p this
  else defineProperty_children p this.

Definition new_DeadlineContext (p : ref) (timeoutMs : Z) : M ref :=
  let! this := alloc KDeadlineContext in
  DeadlineContext_constructor this p timeoutMs;;
  ret this.

(** [CancelFunc]: [(cause?: string) => void]. *)
Definition CancelFunc := option string → M unit.

Definition withCancel (p : ref) : M (ref * CancelFunc) :=
  let! ctx := new_CancelableContext p in
  ret (ctx, λ c, cancel ctx c).

Definition withTimeout (p : ref) (timeoutMs : Z) : M (ref * CancelFunc) :=
  let! ctx := new_DeadlineContext p timeoutMs in
  ret (ctx, λ c, cancel ctx c).

(** ** The event loop *)

(** The timer [t] expires: its callback [() => this.finish()] runs. *)
Definition fire (t : TimerId) : M unit :=
  fun s => match timers s !! t with
           | Some tm =>
               match status tm with
               | Pending =>
                   DeadlineContext_finish (target tm)
                     (upd_timers (λ T, <[t := mkTimer (target tm) (delay tm) Fired]> T) s)
               | _ => Wrong
               end
           | None => Wrong
           end.

(** The continuation [w] parked on a fulfilled promise resumes. *)
Definition resume (w : nat) : M unit :=
  fun s => match waiters s !! w with
           | Some tk =>
               if resumed tk then Wrong
               else
                 (let! v := getCause (awaited tk) in
                  let! x := nonnull v in
                  invoke_cancel (waiting tk) x)
                   (upd_waiters (λ W, <[w := mkWaiter (awaited tk) (waiting tk) true]> W) s)
           | None => Wrong
           end.

(** ** Clients and histories *)

(** A client holds the scopes its constructor calls returned ([known]) and
    performs public operations on them; between them the event loop may
    let a pending timer expire or a parked continuation resume. *)
Record Config := mkConfig { st : State; known : list ref }.

Definition start : Config := mkConfig boot [].

Inductive Op :=
| Background
| Todo
| NewContext (p : option ref)
| NewCancelable (p : ref)
| NewDeadline (p : ref) (timeoutMs : Z)
| Cancel (o : ref) (c : option string)
| OnCancel (o : ref) (cb : CancelCallback)
| TimerFires (t : TimerId)
| Resumes (w : nat).

Definition holds (cfg : Config) (o : ref) : bool := bool_decide (o ∈ known cfg).

Definition is_cancelable (s : State) (o : ref) : bool :=
  match heap s !! o with
  | Some ob => match cls ob with KContext => false | _ => true end
  | None => false
  end.

Definition is_pending (s : State) (t : TimerId) : bool :=
  match timers s !! t with
  | Some tm => match status tm with Pending => true | _ => false end
  | None => false
  end.

Definition is_fulfilled (s : State) (o : ref) : bool :=
  match heap s !! o with
  | Some ob => match _done ob with Some _ => true | None => false end
  | None => false
  end.

Definition is_ready (s : State) (w : nat) : bool :=
  match waiters s !! w with
  | Some tk => negb (resumed tk) && is_fulfilled s (awaited tk)
  | None => false
  end.

(** When an operation can happen: the client passes scopes it holds, and
    calls [cancel] and [onCancel] on scopes that have them. *)
Definition enabled (op : Op) (cfg : Config) : bool :=
  match op with
  | Background | Todo | NewContext None => true
  | NewContext (Some p) | NewCancelable p | NewDeadline p _ => holds cfg p
  | Cancel o _ | OnCancel o _ => holds cfg o && is_cancelable (st cfg) o
  | TimerFires t => is_pending (st cfg) t
  | Resumes w => is_ready (st cfg) w
  end.

Definition perform (op : Op) : M (option ref) :=
  match op with
  | Background => let! r := background in ret (Some r)
  | Todo => let! r := todo in ret (Some r)
  | NewContext p => let! r := new_Context p in ret (Some r)
  | NewCancelable p => let! r := new_CancelableContext p in ret (Some r)
  | NewDeadline p ms => let! r := new_DeadlineContext p ms in ret (Some r)
  | Cancel o c => cancel o c;; ret None
  | OnCancel o cb => onCancel o cb;; ret None
  | TimerFires t => fire t;; ret None
  | Resumes w => resume w;; ret None
  end.

(** One operation.  An exception leaves the state it was thrown in, and a
    constructor that throws hands no scope to the client. *)
Definition exec (op : Op) (cfg : Config) : option Config :=
  if enabled op cfg then
    match perform op (st cfg) with
    | Ret (Some r) s' => Some (mkConfig s' (known cfg ++ [r]))
    | Ret None s' => Some (mkConfig s' (known cfg))
    | Throw _ s' => Some (mkConfig s' (known cfg))
    | Wrong => None
    end
  else None.

Fixpoint run (ops : list Op) (cfg : Config) : option Config :=
  match ops with
  | [] => Some cfg
  | op :: ops' =>
      match exec op cfg with
      | Some cfg' => run ops' cfg'
      | None => None
      end
  end.

(** * Effects, invariants and relations *)

(** ** The effect of each method as a state function *)

Definition put (x : ref) (ob : Obj) (s : State) : State :=
  upd_heap (λ h, <[x := ob]> h) s.

Definition say (evs : list Event) (s : State) : State :=
  upd_trace (λ t, t ++ evs) s.

(** The scope after the guarded block of [cancel] up to the cascade. *)
Definition mark_obj (c : string) (ob : Obj) : Obj :=
  mkObj (cls ob) (parent ob) true (Some c) (cancelCallback ob)
        (Some (default c (controller ob))) (children ob) (timeoutId ob)
        (doneResolve ob) (_done ob).

Definition notify (x : ref) (c : string) (l : list CancelCallback) : list Event :=
  map (λ cb, Invoke x cb c) l.

Definition marked (x : ref) (ob : Obj) (c : string) (s : State) : State :=
  say (notify x c (cancelCallback ob) ++ [Abort x c]) (put x (mark_obj c ob) s).

Definition throws (cb : CancelCallback) : bool :=
  match cb with
  | Returning _ => false
  | Throwing _ => true
  end.

(** The first listener that throws, if any: what it raises. *)
Fixpoint thrower (l : list CancelCallback) : option nat :=
  match l with
  | [] => None
  | Returning _ :: l' => thrower l'
  | Throwing n :: _ => Some n
  end.

(** The listeners [forEach] gets to call: all of them up to and including
    the first one that throws. *)
Fixpoint reached (l : list CancelCallback) : list CancelCallback :=
  match l with
  | [] => []
  | cb :: l' => cb :: (if throws cb then [] else reached l')
  end.

(** The scope when a listener has thrown: marked cancelled with its cause,
    its signal untouched. *)
Definition stain_obj (c : string) (ob : Obj) : Obj :=
  set_cause (Some c) (set_canceled true ob).

Definition struck (x : ref) (ob : Obj) (c : string) (s : State) : State :=
  say (notify x c (reached (cancelCallback ob))) (put x (stain_obj c ob) s).

Definition cascade (virt : ref → string → M unit) (ob : Obj) (c : string) : M unit :=
  match children ob with
  | Absent => throw TypeError
  | Data _ None => ret tt
  | Data _ (Some child) => virt child c
  end.

Definition cleared (x : ref) (ob : Obj) (s : State) : State :=
  put x (set_timeoutId Null ob)
      (match timeoutId ob with
       | Val t => upd_timers (disarm t) s
       | _ => s
       end).

Definition resolve_obj (c : string) (ob : Obj) : Obj :=
  match _done ob with
  | None => set_done (Some c) ob
  | Some _ => ob
  end.

(** What a first [cancel(c)] writes into the scope it is called on: a
    deadline scope has its timer handle cleared before it is marked. *)
Definition cancel_obj (c : string) (ob : Obj) : Obj :=
  mark_obj c (match cls ob with
              | KDeadlineContext => set_timeoutId Null ob
              | _ => ob
              end).

(** What a first [cancel(c)] has written when one of the listeners throws:
    the scope is marked, and its signal is not aborted. *)
Definition stop_obj (c : string) (ob : Obj) : Obj :=
  stain_obj c (match cls ob with
               | KDeadlineContext => set_timeoutId Null ob
               | _ => ob
               end).

(** The state in which a live scope [x] hands the cancellation on to its
    child. *)
Definition entered (x : nat) (ob : Obj) (c : string) (s : State) : State :=
  match cls ob with
  | KDeadlineContext => marked x (set_timeoutId Null ob) c (cleared x ob s)
  | _ => marked x ob c s
  end.

(** The state in which the cancellation of a live scope [x] stops when one
    of its listeners throws. *)
Definition stopped (x : nat) (ob : Obj) (c : string) (s : State) : State :=
  match cls ob with
  | KDeadlineContext => struck x (set_timeoutId Null ob) c (cleared x ob s)
  | _ => struck x ob c s
  end.


(** What [cancel(c)] makes of a live scope [x] before it goes on to the
    child, if it does. *)
Definition reaches (x : nat) (ob : Obj) (c : string) (s : State) : State :=
  match thrower (cancelCallback ob) with
  | None => entered x ob c s
  | Some _ => stopped x ob c s
  end.

(** What is left of [cancel(c)] once the cascade has returned: a deadline
    scope calls its resolver. *)
Definition settle (x : ref) (ob : Obj) (c : string) : M unit :=
  match cls ob with
  | KDeadlineContext => call_doneResolve x c
  | _ => ret tt
  end.

(** The state a [cancel(c)] on a scope [x] returns in when [x] is
    cancelled already, or when its cascade has returned in [s]: a deadline
    scope fulfils its promise with [c] if it is still pending. *)
Definition settled (x : ref) (ob : Obj) (c : string) (s : State) : State :=
  match cls ob with
  | KDeadlineContext => put x (resolve_obj c ob) s
  | _ => s
  end.

Definition expire_obj (ob : Obj) : Obj :=
  resolve_obj deadline_cause
    (mkObj (cls ob) (parent ob) (canceled ob) (Some deadline_cause)
           (cancelCallback ob) (Some (default deadline_cause (controller ob)))
           (children ob) (timeoutId ob) (doneResolve ob) (_done ob)).

(** A scope right after the five [defineProperty] calls of the
    [CancelableContext] constructor. *)
Definition fresh (k : Class) (p : ref) : Obj :=
  mkObj k (Some p) false None [] None (Data true None) Undefined false None.

Definition grown (ob : Obj) (s : State) : State :=
  upd_heap (λ h, h ++ [ob]) s.

(** What [defineProperty(p, "children", { value: v })] leaves in [p], if
    it does not throw. *)
Definition link_obj (v : ref) (pob : Obj) : option Obj :=
  match children pob with
  | Absent => Some (set_children (Data false (Some v)) pob)
  | Data true _ => Some (set_children (Data true (Some v)) pob)
  | Data false cur => if decide (cur = Some v) then Some pob else None
  end.

(** A deadline scope once its timer is armed and its promise created. *)
Definition armed_obj (p : ref) (t : TimerId) : Obj :=
  mkObj KDeadlineContext (Some p) false None [] None (Data true None) (Val t) true None.

Definition scheduled (x : ref) (ms : Z) (s : State) : State :=
  upd_timers (λ T, T ++ [mkTimer x ms Pending]) s.

Definition parked (p x : ref) (s : State) : State :=
  upd_waiters (λ W, W ++ [mkWaiter p x false]) s.

(** The object a throwing constructor leaves behind, reachable from
    nowhere. *)
Definition stillborn (p : ref) : Obj :=
  set_timeoutId Null (fresh KDeadlineContext p).

Definition fired (t : TimerId) (tm : Timer) (ob : Obj) (s : State) : State :=
  say [Abort (target tm) deadline_cause]
      (put (target tm) (expire_obj ob)
           (upd_timers (λ T, <[t := mkTimer (target tm) (delay tm) Fired]> T) s)).

(** ** Invariants of the store *)

(** A scope on which [cancel] can be called: it has the method, and for a
    deadline scope the resolver it calls at the end is in place. *)
Definition callable (ob : Obj) : Prop :=
  cls ob ≠ KContext ∧ (cls ob = KDeadlineContext → doneResolve ob = true).

Definition usable (ob : Obj) : Prop :=
  cls ob = KDeadlineContext → doneResolve ob = true.

(** What holds of every object, also in the middle of a cascade. *)
Record obj_ok (ob : Obj) : Prop := {
  ok_cause : canceled ob = true → cause ob ≠ None;
  ok_signal : controller ob ≠ None → cause ob ≠ None;
  ok_done : _done ob ≠ None → cause ob ≠ None;
  ok_children : cls ob ≠ KContext → ∃ v, children ob = Data true v;
  ok_timeout : cls ob = KDeadlineContext → canceled ob = true → timeoutId ob = Null;
  ok_expired :
    cause ob ≠ None →
    canceled ob = true ∨
    (cls ob = KDeadlineContext ∧ cause ob = Some deadline_cause
     ∧ _done ob = Some deadline_cause)
}.

(** The owner of a pending timer. *)
Record armed (t : TimerId) (ob : Obj) : Prop := {
  armed_cls : cls ob = KDeadlineContext;
  armed_resolver : doneResolve ob = true;
  armed_live : canceled ob = false;
  armed_cause : cause ob = None;
  armed_done : _done ob = None;
  armed_id : timeoutId ob = Val t
}.

Definition linked_below (s : State) (i : ref) (ob : Obj) : Prop :=
  ∀ w c, children ob = Data w (Some c) →
         i < c ∧ ∃ oc, heap s !! c = Some oc ∧ callable oc.

Record wf (K : list ref) (s : State) : Prop := {
  wf_obj : ∀ i ob, heap s !! i = Some ob → obj_ok ob;
  wf_link : ∀ i ob, heap s !! i = Some ob → linked_below s i ob;
  wf_timer : ∀ t tm, timers s !! t = Some tm → status tm = Pending →
                     ∃ ob, heap s !! target tm = Some ob ∧ armed t ob;
  wf_waiter : ∀ w tk, waiters s !! w = Some tk → resumed tk = false →
                    is_Some (heap s !! awaited tk) ∧
                    ∃ oc, heap s !! waiting tk = Some oc ∧ callable oc;
  wf_known : ∀ k, k ∈ K → ∃ ob, heap s !! k = Some ob ∧ usable ob;
  wf_trace : ∀ o cb c, Invoke o cb c ∈ trace s →
                       ∃ ob, heap s !! o = Some ob ∧ canceled ob = true
}.

Definition inv (cfg : Config) : Prop := wf (known cfg) (st cfg).

(** The state of a deadline scope whose timer has expired and on which
    [cancel] has not run: a cause, a fulfilled promise, and [canceled]
    still false. *)
Definition expired (ob : Obj) : Prop :=
  cls ob = KDeadlineContext ∧ canceled ob = false
  ∧ cause ob = Some deadline_cause ∧ _done ob = Some deadline_cause.


(** ** Counting callback invocations *)

Definition is_call (o : nat) (cb : CancelCallback) (e : Event) : bool :=
  match e with
  | Invoke o' cb' _ => (o' =? o) && bool_decide (cb' = cb)
  | Abort _ _ => false
  end.

(** How often scope [o] has called [cb]. *)
Definition calls (o : nat) (cb : CancelCallback) (tr : list Event) : nat :=
  length (List.filter (is_call o cb) tr).

(** How often [cb] occurs in a listener sequence. *)
Definition registrations (cb : CancelCallback) (l : list CancelCallback) : nat :=
  length (List.filter (λ cb', bool_decide (cb' = cb)) l).

(** The registrations of [cb] that the cancellation of [o] has served:
    those among the listeners it got to call. *)
Definition delivered (o : nat) (cb : CancelCallback) (s : State) : nat :=
  match heap s !! o with
  | Some ob =>
      if canceled ob then registrations cb (reached (cancelCallback ob)) else 0
  | None => 0
  end.

(** ** States before and after an operation *)

Record evolves (ob ob' : Obj) : Prop := {
  ev_cls : cls ob' = cls ob;
  ev_parent : parent ob' = parent ob;
  ev_listeners : cancelCallback ob' = cancelCallback ob;
  ev_children : children ob' = children ob;
  ev_resolver : doneResolve ob' = doneResolve ob;
  ev_canceled : canceled ob = true → canceled ob' = true ∧ cause ob' = cause ob;
  ev_done : ∀ v, _done ob = Some v → _done ob' = Some v
}.

Record advances (s s' : State) : Prop := {
  adv_heap : ∀ i ob, heap s !! i = Some ob →
                     ∃ ob', heap s' !! i = Some ob' ∧ evolves ob ob';
  adv_length : length (heap s') = length (heap s);
  adv_waiters : waiters s' = waiters s;
  adv_trace : ∃ evs, trace s' = trace s ++ evs;
  adv_calls : ∀ o cb, calls o cb (trace s') + delivered o cb s
                      = calls o cb (trace s) + delivered o cb s'
}.

Record cancel_post (K : list nat) (s : State) (x : nat) (c : string)
    (s' : State) : Prop := {
  post_wf : wf K s';
  post_adv : advances s s';
  post_target :
    ∀ ob, heap s !! x = Some ob →
          ∃ ob', heap s' !! x = Some ob' ∧ canceled ob' = true
                 ∧ (canceled ob = false → cause ob' = Some c)
}.

(** A call that returns, or throws what a callback raised, in state [s']. *)
Definition ends {A} (r : Res A) (s' : State) : Prop :=
  (∃ a, r = Ret a s') ∨ (∃ k, r = Throw (Raised k) s').

Definition sound (n : nat) : Prop :=
  ∀ K s x ob c,
    wf K s → heap s !! x = Some ob → callable ob →
    length (heap s) - x ≤ n →
    ∃ s', ends (cancel_fuel n x c s) s' ∧ cancel_post K s x c s'.

(** What any operation keeps of an object that exists before it: its
    class, its cancelled state and cause once cancelled, the value of its
    promise once fulfilled, and its listeners unless the operation is an
    [onCancel] on it while it is live. *)
Record persists (op : Op) (i : nat) (ob ob' : Obj) : Prop := {
  ps_cls : cls ob' = cls ob;
  ps_canceled : canceled ob = true → canceled ob' = true ∧ cause ob' = cause ob;
  ps_done : ∀ v, _done ob = Some v → _done ob' = Some v;
  ps_listeners :
    (canceled ob = true ∨ ∀ cb, op ≠ OnCancel i cb) →
    cancelCallback ob' = cancelCallback ob
}.

Record extends (op : Op) (s s' : State) : Prop := {
  ext_heap : ∀ i ob, heap s !! i = Some ob →
                     ∃ ob', heap s' !! i = Some ob' ∧ persists op i ob ob';
  ext_trace : ∃ evs, trace s' = trace s ++ evs;
  ext_calls : ∀ o cb, op ≠ OnCancel o cb →
                      calls o cb (trace s') + delivered o cb s
                      = calls o cb (trace s) + delivered o cb s'
}.

Record op_post (op : Op) (s : State) (K' : list nat) (s' : State) : Prop := {
  opp_wf : wf K' s';
  opp_ext : extends op s s'
}.

(** ** Concrete histories *)

Ltac known_scope :=
  repeat first [apply list_elem_of_here | apply list_elem_of_further].

(** A root, a cancelable scope with two listeners, and a child below it. *)
Definition history_family : list Op :=
  [Todo; NewCancelable 0; OnCancel 1 (Returning 7); OnCancel 1 (Returning 8);
   NewCancelable 1].

Definition family : Config :=
  Eval vm_compute in default start (run history_family start).


(** A root, and below it a scope cancelled with cause ["x"]. *)
Definition history_orphan : list Op :=
  [Todo; NewCancelable 0; Cancel 1 (Some "x"%string)].

Definition orphan : Config :=
  Eval vm_compute in default start (run history_orphan start).

Definition orphan_parent : Obj :=
  Eval vm_compute in default (blank KContext) (heap (st orphan) !! 1).

(** A root, a cancelable scope whose first listener throws and whose
    second does not, and a child below it. *)
Definition history_faulty : list Op :=
  [Todo; NewCancelable 0; OnCancel 1 (Throwing 7); OnCancel 1 (Returning 8);
   NewCancelable 1].

Definition faulty : Config :=
  Eval vm_compute in default start (run history_faulty start).








(** The histories of the tests: a deadline scope under a root, its timer
    expiring, and then an explicit [cancel]. *)
Definition history_expired : list Op :=
  [Todo; NewDeadline 0 1000; TimerFires 0].

Definition after_expiry : Config :=
  Eval vm_compute in default start (run history_expired start).

Definition expired_scope : Obj :=
  Eval vm_compute in default (blank KContext) (heap (st after_expiry) !! 1).



(** A deadline scope with a listener and a child, its timer pending. *)
Definition history_watched : list Op :=
  [Todo; NewDeadline 0 1000; OnCancel 1 (Returning 5); NewCancelable 1].

Definition watched : Config :=
  Eval vm_compute in default start (run history_watched start).

(** The second test: a deadline scope under a cancelable parent, and the
    parent cancelled. *)
Definition history_cascade : list Op :=
  [Todo; NewCancelable 0; NewDeadline 1 10000;
   Cancel 1 (Some "parent canceled"%string)].

Definition cascaded : Config :=
  Eval vm_compute in default start (run history_cascade start).

Definition cascaded_scope : Obj :=
  Eval vm_compute in default (blank KContext) (heap (st cascaded) !! 2).



(** ** The life of one object *)

(** The states in which the constructors leave a new object, before any
    cancellation at birth. *)
Inductive born : Obj → Prop :=
| born_context p : born (set_parent p (blank KContext))
| born_cancelable k p : k ≠ KContext → born (fresh k p)
| born_deadline p t : born (armed_obj p t).

(** The changes the library makes to an existing object. *)
Inductive obj_step : Obj → Obj → Prop :=
| step_cancel c ob :
    obj_ok ob → cls ob ≠ KContext → canceled ob = false →
    obj_step ob (cancel_obj c ob)
| step_stop c ob :
    obj_ok ob → cls ob ≠ KContext → canceled ob = false →
    obj_step ob (stop_obj c ob)
| step_resolve c ob :
    obj_ok ob → canceled ob = true → doneResolve ob = true →
    obj_step ob (resolve_obj c ob)
| step_expire t ob :
    obj_ok ob → armed t ob →
    obj_step ob (expire_obj ob)
| step_listen cb ob :
    obj_ok ob → canceled ob = false →
    obj_step ob (set_cancelCallback (cancelCallback ob ++ [cb]) ob)
| step_link v ob ob' :
    obj_ok ob → link_obj v ob = Some ob' →
    obj_step ob ob'.

Definition lifecycle : Obj → Obj → Prop := rtc obj_step.

(** What holds of every object of a reachable state, beyond [obj_ok]: the
    signal of a scope that has a cause without being cancelled, what a
    plain context can hold, and which scopes have a resolver. *)
Record obj_more (ob : Obj) : Prop := {
  om_expired :
    canceled ob = false → cause ob ≠ None → controller ob = Some deadline_cause;
  om_root :
    cls ob = KContext →
    children ob = Absent ∨ ∃ c, children ob = Data false (Some c);
  om_resolver : doneResolve ob = true → cls ob = KDeadlineContext
}.

(** How an operation moves the store: what was there goes through steps
    of its life, what is new was born in the operation, with a parent
    older than itself. *)
Record moves (s s' : State) : Prop := {
  mv_old : ∀ i ob, heap s !! i = Some ob →
                   ∃ ob', heap s' !! i = Some ob' ∧ lifecycle ob ob';
  mv_new : ∀ i ob', heap s' !! i = Some ob' → heap s !! i = None →
                    ∃ ob0, born ob0 ∧ lifecycle ob0 ob'
                           ∧ ∀ p, parent ob0 = Some p → p < i
}.

(** ** The state changes an operation is made of *)

Definition woken (w : nat) (tk : Waiter) (s : State) : State :=
  upd_waiters (λ W, <[w := mkWaiter (awaited tk) (waiting tk) true]> W) s.

(** The state changes of which every operation is a sequence, each with
    what is known of the state it happens in. *)
Inductive block (s : State) : State → Prop :=
| blk_context p :
    (∀ q, p = Some q → q < length (heap s)) →
    block s (grown (set_parent p (blank KContext)) s)
| blk_scope k p :
    k ≠ KContext → p < length (heap s) →
    block s (grown (fresh k p) s)
| blk_deadline p pob ms :
    heap s !! p = Some pob →
    cls pob = KContext ∨ canceled pob = false →
    block s (let s2 := scheduled (length (heap s)) ms
                         (grown (armed_obj p (length (timers s))) s) in
             match cls pob with
             | KDeadlineContext => parked p (length (heap s)) s2
             | _ => s2
             end)
| blk_link p pob pob' v ov :
    heap s !! p = Some pob → obj_ok pob →
    heap s !! v = Some ov → parent ov = Some p → cls ov ≠ KContext →
    link_obj v pob = Some pob' →
    block s (put p pob' s)
| blk_enter x ob c :
    heap s !! x = Some ob → obj_ok ob → cls ob ≠ KContext →
    canceled ob = false →
    block s (reaches x ob c s)
| blk_resolve x ob c :
    heap s !! x = Some ob → obj_ok ob → cls ob = KDeadlineContext →
    canceled ob = true → doneResolve ob = true →
    block s (put x (resolve_obj c ob) s)
| blk_listen x ob cb :
    heap s !! x = Some ob → obj_ok ob → canceled ob = false →
    block s (put x (set_cancelCallback (cancelCallback ob ++ [cb]) ob) s)
| blk_call x ob cb c :
    heap s !! x = Some ob → canceled ob = true → cause ob = Some c →
    block s (say [Invoke x cb c] s)
| blk_fire t tm ob :
    timers s !! t = Some tm → status tm = Pending →
    heap s !! target tm = Some ob → obj_ok ob → armed t ob →
    block s (fired t tm ob s)
| blk_idle w tk oc :
    waiters s !! w = Some tk → resumed tk = false →
    heap s !! waiting tk = Some oc → canceled oc = true →
    block s (woken w tk s)
| blk_wake w tk pob oc c :
    waiters s !! w = Some tk → resumed tk = false →
    heap s !! awaited tk = Some pob → cause pob = Some c →
    heap s !! waiting tk = Some oc → obj_ok oc → cls oc ≠ KContext →
    canceled oc = false →
    block s (reaches (waiting tk) oc c (woken w tk s)).

Definition blocks : State → State → Prop := rtc block.

(** ** The scopes a cancellation reaches *)

(** From [x] down the linked children, as long as they are not cancelled. *)
Fixpoint cascade_path (n : nat) (s : State) (x : ref) : list ref :=
  match n with
  | 0 => []
  | S n' =>
      match heap s !! x with
      | Some ob =>
          if canceled ob then []
          else x :: match children ob with
                    | Data _ (Some ch) => cascade_path n' s ch
                    | _ => []
                    end
      | None => []
      end
  end.

Definition cascade_of (s : State) (x : ref) : list ref :=
  cascade_path (length (heap s) - x) s x.

(** How a cascade ends: it runs out of linked children, it meets a scope
    that is cancelled already, or a listener throws. *)
Inductive Ending :=
| Finished
| Met (e : ref)
| Threw (k : nat).

(** The course of a [cancel] on [x]: the scopes it marks, from [x] down
    the linked children, and how it ends. *)
Fixpoint cascade_run (n : nat) (s : State) (x : ref) : list ref * Ending :=
  match n with
  | 0 => ([], Finished)
  | S n' =>
      match heap s !! x with
      | Some ob =>
          if canceled ob then ([], Met x)
          else
            match thrower (cancelCallback ob) with
            | Some k => ([x], Threw k)
            | None =>
                match children ob with
                | Data _ (Some ch) =>
                    (x :: (cascade_run n' s ch).1, (cascade_run n' s ch).2)
                | _ => ([x], Finished)
                end
            end
      | None => ([], Finished)
      end
  end.

Definition course (s : State) (x : ref) : list ref * Ending :=
  cascade_run (length (heap s) - x) s x.

(** ** Structure of the store *)

(** The scope a cancellation is handed to is a child of the scope that
    hands it on, and only a plain context has no parent. *)
Record links_ok (s : State) : Prop := {
  lk_child : ∀ i ob w c, heap s !! i = Some ob → children ob = Data w (Some c) →
                         ∃ oc, heap s !! c = Some oc ∧ parent oc = Some i
                               ∧ cls oc ≠ KContext;
  lk_parent : ∀ i ob p, heap s !! i = Some ob → parent ob = Some p → p < i;
  lk_root : ∀ i ob, heap s !! i = Some ob → parent ob = None → cls ob = KContext
}.

(** Timers and the scopes that own them. *)
Record timers_ok (s : State) : Prop := {
  tm_owner : ∀ t tm, timers s !! t = Some tm →
                     ∃ ob, heap s !! target tm = Some ob ∧ cls ob = KDeadlineContext;
  tm_handle : ∀ i ob t, heap s !! i = Some ob → timeoutId ob = Val t →
                        ∃ tm, timers s !! t = Some tm ∧ target tm = i;
  tm_single : ∀ t t' tm tm', timers s !! t = Some tm → timers s !! t' = Some tm' →
                             target tm = target tm' → t = t';
  tm_alive : ∀ i ob, heap s !! i = Some ob → cls ob = KDeadlineContext →
                     doneResolve ob = true → cause ob = None →
                     ∃ t tm, timeoutId ob = Val t ∧ timers s !! t = Some tm
                             ∧ status tm = Pending
}.

(** Parked continuations and the deadline scopes that wait in them. *)
Record waiters_ok (s : State) : Prop := {
  wt_shape : ∀ w tk, waiters s !! w = Some tk →
                     ∃ pob ob, heap s !! awaited tk = Some pob
                               ∧ cls pob = KDeadlineContext
                               ∧ heap s !! waiting tk = Some ob
                               ∧ cls ob = KDeadlineContext
                               ∧ parent ob = Some (awaited tk)
                               ∧ doneResolve ob = true;
  wt_pending : ∀ d ob p pob,
      heap s !! d = Some ob → cls ob = KDeadlineContext →
      doneResolve ob = true → canceled ob = false →
      parent ob = Some p → heap s !! p = Some pob → cls pob = KDeadlineContext →
      ∃ w, waiters s !! w = Some (mkWaiter p d false)
}.

(** ** Which operations throw *)

(** The constructor of a deadline scope is refused under a cancelled
    parent, and under a plain context that already has a [children]
    property. *)
Definition refuses (s : State) (op : Op) : bool :=
  match op with
  | NewDeadline p _ =>
      match heap s !! p with
      | Some pob =>
          match cls pob with
          | KContext => match children pob with Absent => false | _ => true end
          | _ => canceled pob
          end
      | None => false
      end
  | _ => false
  end.

(** What a callback makes an operation throw: a listener on the course of
    a [cancel], by the client or by a resumed continuation, or the
    callback passed to [onCancel] on a cancelled scope. *)
Definition raises (s : State) (op : Op) : option nat :=
  match op with
  | Cancel o _ =>
      match (course s o).2 with Threw k => Some k | _ => None end
  | Resumes w =>
      match waiters s !! w with
      | Some tk => match (course s (waiting tk)).2 with Threw k => Some k | _ => None end
      | None => None
      end
  | OnCancel o cb =>
      match heap s !! o, cb with
      | Some ob, Throwing k => if canceled ob then Some k else None
      | _, _ => None
      end
  | _ => None
  end.

(** A deadline scope, and a second one constructed below it while it is
    live; then the timer of the first expires. *)
Definition history_nested : list Op :=
  [Todo; NewDeadline 0 1000; NewDeadline 1 5000; TimerFires 0].

Definition nested : Config :=
  Eval vm_compute in default start (run history_nested start).

Definition nested_child : Obj :=
  Eval vm_compute in default (blank KContext) (heap (st nested) !! 2).

Definition nested_parent : Obj :=
  Eval vm_compute in default (blank KContext) (heap (st nested) !! 1).



(** * What the methods compute *)

(** ** Store lemmas *)

Lemma put_lookup_eq x ob ob0 s :
  heap s !! x = Some ob0 → heap (put x ob s) !! x = Some ob.
Proof. intros H. apply list_lookup_insert_eq. by eapply lookup_lt_Some. Qed.

Lemma put_lookup_ne x y ob s :
  x ≠ y → heap (put x ob s) !! y = heap s !! y.
Proof. intros H. by apply list_lookup_insert_ne. Qed.

Lemma put_put x ob1 ob2 s : put x ob2 (put x ob1 s) = put x ob2 s.
Proof. unfold put, upd_heap. simpl. by rewrite list_insert_insert_eq. Qed.

Lemma put_same x ob s : heap s !! x = Some ob → put x ob s = s.
Proof.
  intros H. destruct s as [h T W tr]. unfold put, upd_heap. simpl in *.
  by rewrite list_insert_id.
Qed.

Lemma say_say e1 e2 s : say e2 (say e1 s) = say (e1 ++ e2) s.
Proof. unfold say, upd_trace. simpl. by rewrite app_assoc. Qed.

Lemma say_nil s : say [] s = s.
Proof. destruct s. unfold say, upd_trace. simpl. by rewrite app_nil_r. Qed.

Lemma read_eq x ob s : heap s !! x = Some ob → read x s = Ret ob s.
Proof. intros H. unfold read. by rewrite H. Qed.

Lemma modify_eq x f ob s :
  heap s !! x = Some ob → modify x f s = Ret tt (put x (f ob) s).
Proof. intros H. unfold modify. by rewrite H. Qed.

Lemma bind_Ret {A B} (m : M A) (k : A → M B) s a s' :
  m s = Ret a s' → bind m k s = k a s'.
Proof. intros H. unfold bind. by rewrite H. Qed.

Lemma getCause_eq x ob s : heap s !! x = Some ob → getCause x s = Ret (cause ob) s.
Proof. intros H. unfold getCause. by rewrite (bind_Ret _ _ _ _ _ (read_eq _ _ _ H)). Qed.

Lemma isCancelled_eq x ob s : heap s !! x = Some ob → isCancelled x s = Ret (canceled ob) s.
Proof. intros H. unfold isCancelled. by rewrite (bind_Ret _ _ _ _ _ (read_eq _ _ _ H)). Qed.

Lemma emit_eq e s : emit e s = Ret tt (say [e] s).
Proof. reflexivity. Qed.

Lemma call_eq x cb c s :
  call x cb c s
  = match cb with
    | Returning _ => Ret tt (say [Invoke x cb c] s)
    | Throwing k => Throw (Raised k) (say [Invoke x cb c] s)
    end.
Proof. unfold call. rewrite (bind_Ret _ _ _ _ _ (emit_eq _ _)). by destruct cb. Qed.

Lemma reached_all l : thrower l = None → reached l = l.
Proof.
  induction l as [|[n|n] l IH]; simpl; intros H; [done| |done].
  by rewrite IH.
Qed.

Lemma thrower_None l : thrower l = None ↔ ∀ cb, cb ∈ l → throws cb = false.
Proof.
  induction l as [|[n|n] l IH]; simpl.
  - split; [|done]. intros _ cb H. by apply elem_of_nil in H.
  - rewrite IH. split.
    + intros H cb [->|Hin]%elem_of_cons; [done|by apply H].
    + intros H cb Hin. apply H. by right.
  - split; [done|]. intros H. specialize (H (Throwing n)). simpl in H.
    discriminate H. by left.
Qed.

Lemma thrower_Some l k : thrower l = Some k → Throwing k ∈ reached l.
Proof.
  induction l as [|[n|n] l IH]; simpl; intros H; [done| |].
  - right. by apply IH.
  - injection H as ->. by left.
Qed.

Lemma reached_sublist l cb : cb ∈ reached l → cb ∈ l.
Proof.
  induction l as [|cb' l IH]; simpl; [done|].
  intros [->|H]%elem_of_cons; [by left|]. right.
  destruct (throws cb'); [by apply elem_of_nil in H|by apply IH].
Qed.

(** [forEach] over the listeners: all of them are called, or those up to
    the first that throws, and then [forEach] throws what it threw. *)
Lemma forEach_notify x c l ob s :
  heap s !! x = Some ob → cause ob = Some c →
  forEach l (λ callback, let! v := getCause x in
                         let! y := nonnull v in
                         call x callback y) s
  = match thrower l with
    | None => Ret tt (say (notify x c l) s)
    | Some k => Throw (Raised k) (say (notify x c (reached l)) s)
    end.
Proof.
  intros Hx Hc. revert s Hx.
  induction l as [|cb l IH]; intros s Hx; simpl.
  - by rewrite say_nil.
  - assert ((let! v := getCause x in let! y := nonnull v in call x cb y) s
            = call x cb c s) as Hcall.
    { erewrite bind_Ret by (by apply getCause_eq).
      rewrite Hc. simpl. by erewrite bind_Ret by reflexivity. }
    unfold bind at 1. rewrite Hcall, call_eq.
    destruct cb as [n|n]; simpl; [|done].
    rewrite IH by done. destruct (thrower l); by rewrite say_say.
Qed.

(** ** Normal forms *)

Lemma CancelableContext_cancel_dead virt x c ob s :
  heap s !! x = Some ob → canceled ob = true →
  CancelableContext_cancel virt x c s = Ret tt s.
Proof.
  intros Hx Hc. unfold CancelableContext_cancel.
  by rewrite (bind_Ret _ _ _ _ _ (read_eq _ _ _ Hx)), Hc.
Qed.

Lemma abort_eq x r ob s :
  heap s !! x = Some ob →
  abort x r s = Ret tt (say [Abort x r] (put x (set_controller (Some (default r (controller ob))) ob) s)).
Proof.
  intros Hx. unfold abort. rewrite (bind_Ret _ _ _ _ _ (emit_eq _ _)).
  erewrite modify_eq by exact Hx.
  destruct s, ob as [? ? ? ? ? [r'|] ? ? ? ?]; reflexivity.
Qed.

(** [cancel] on a live scope: when a listener throws, the scope stays
    marked, and neither the abort nor the cascade happens. *)
Lemma CancelableContext_cancel_live virt x c ob s :
  heap s !! x = Some ob → canceled ob = false →
  CancelableContext_cancel virt x c s
  = match thrower (cancelCallback ob) with
    | None => cascade virt ob c (marked x ob c s)
    | Some k => Throw (Raised k) (struck x ob c s)
    end.
Proof.
  intros Hx Hc. unfold CancelableContext_cancel.
  rewrite (bind_Ret _ _ _ _ _ (read_eq _ _ _ Hx)), Hc.
  rewrite (bind_Ret _ _ _ _ _ (modify_eq _ _ _ _ Hx)).
  pose proof (put_lookup_eq x (set_canceled true ob) _ _ Hx) as H1.
  rewrite (bind_Ret _ _ _ _ _ (modify_eq _ _ _ _ H1)), put_put.
  pose proof (put_lookup_eq x (set_cause (Some c) (set_canceled true ob)) _ _ Hx) as H2.
  rewrite (bind_Ret _ _ _ _ _ (read_eq _ _ _ H2)).
  unfold bind at 1.
  rewrite (forEach_notify x c _ _ _ H2 eq_refl).
  change (cancelCallback (set_cause (Some c) (set_canceled true ob)))
    with (cancelCallback ob).
  destruct (thrower (cancelCallback ob)) as [k|]; [reflexivity|].
  rewrite (bind_Ret _ _ _ _ _ (abort_eq x c _ (say _ _) H2)).
  erewrite bind_Ret; last first.
  { apply read_eq. simpl. apply list_lookup_insert_eq.
    rewrite length_insert. by eapply lookup_lt_Some. }
  unfold marked, say, put, upd_trace, upd_heap. simpl.
  by rewrite list_insert_insert_eq, <- app_assoc.
Qed.

Lemma DeadlineContext_clearTimeout_eq x ob s :
  heap s !! x = Some ob →
  DeadlineContext_clearTimeout x s = Ret tt (cleared x ob s).
Proof.
  intros Hx. unfold DeadlineContext_clearTimeout, cleared.
  rewrite (bind_Ret _ _ _ _ _ (read_eq _ _ _ Hx)).
  destruct (timeoutId ob) as [| |t] eqn:Ht.
  - by apply modify_eq.
  - unfold ret. f_equal. symmetry. apply put_same.
    rewrite Hx. f_equal. destruct ob; simpl in *; by subst.
  - erewrite bind_Ret by reflexivity. by apply modify_eq.
Qed.

Lemma cleared_lookup_eq x ob s :
  heap s !! x = Some ob → heap (cleared x ob s) !! x = Some (set_timeoutId Null ob).
Proof.
  intros Hx. unfold cleared. eapply put_lookup_eq.
  destruct (timeoutId ob); exact Hx.
Qed.

Lemma cleared_lookup_ne x y ob s :
  x ≠ y → heap (cleared x ob s) !! y = heap s !! y.
Proof.
  intros Hne. unfold cleared. rewrite put_lookup_ne by done.
  by destruct (timeoutId ob).
Qed.

Lemma call_doneResolve_eq x c ob s :
  heap s !! x = Some ob → doneResolve ob = true →
  call_doneResolve x c s = Ret tt (put x (resolve_obj c ob) s).
Proof.
  intros Hx Hr. unfold call_doneResolve.
  rewrite (bind_Ret _ _ _ _ _ (read_eq _ _ _ Hx)), Hr.
  by apply modify_eq.
Qed.

Lemma call_doneResolve_undefined x c ob s :
  heap s !! x = Some ob → doneResolve ob = false →
  call_doneResolve x c s = Throw TypeError s.
Proof.
  intros Hx Hr. unfold call_doneResolve.
  by rewrite (bind_Ret _ _ _ _ _ (read_eq _ _ _ Hx)), Hr.
Qed.

Lemma DeadlineContext_finish_eq x ob s :
  heap s !! x = Some ob → doneResolve ob = true →
  DeadlineContext_finish x s
  = Ret tt (say [Abort x deadline_cause] (put x (expire_obj ob) s)).
Proof.
  intros Hx Hr. unfold DeadlineContext_finish, setCause.
  rewrite (bind_Ret _ _ _ _ _ (modify_eq _ _ _ _ Hx)).
  pose proof (put_lookup_eq x (set_cause (Some deadline_cause) ob) _ _ Hx) as H1.
  rewrite (bind_Ret _ _ _ _ _ (getCause_eq _ _ _ H1)).
  erewrite (bind_Ret (nonnull _)) by reflexivity.
  rewrite (bind_Ret _ _ _ _ _ (abort_eq _ _ _ _ H1)).
  rewrite put_put.
  set (ob2 := set_controller _ _).
  assert (heap (say [Abort x deadline_cause] (put x ob2 s)) !! x = Some ob2) as H2
    by (by eapply put_lookup_eq).
  rewrite (bind_Ret _ _ _ _ _ (getCause_eq _ _ _ H2)).
  change (cause ob2) with (Some deadline_cause).
  erewrite (bind_Ret (nonnull _)) by reflexivity.
  erewrite call_doneResolve_eq by (exact H2 || exact Hr).
  unfold say, put, upd_trace, upd_heap. simpl.
  by rewrite list_insert_insert_eq.
Qed.

Lemma cancel_fuel_KContext n x c ob s :
  heap s !! x = Some ob → cls ob = KContext →
  cancel_fuel (S n) x c s = Throw TypeError s.
Proof.
  intros Hx Hk. simpl. by rewrite (bind_Ret _ _ _ _ _ (read_eq _ _ _ Hx)), Hk.
Qed.

Lemma cancel_fuel_KCancelable n x c ob s :
  heap s !! x = Some ob → cls ob = KCancelableContext →
  cancel_fuel (S n) x c s
  = if canceled ob then Ret tt s
    else match thrower (cancelCallback ob) with
         | None => cascade (cancel_fuel n) ob c (marked x ob c s)
         | Some k => Throw (Raised k) (struck x ob c s)
         end.
Proof.
  intros Hx Hk. simpl. rewrite (bind_Ret _ _ _ _ _ (read_eq _ _ _ Hx)), Hk.
  destruct (canceled ob) eqn:Hc.
  - by eapply CancelableContext_cancel_dead.
  - by eapply CancelableContext_cancel_live.
Qed.

Lemma cancel_fuel_KDeadline n x c ob s :
  heap s !! x = Some ob → cls ob = KDeadlineContext →
  cancel_fuel (S n) x c s
  = if canceled ob then call_doneResolve x c (cleared x ob s)
    else match thrower (cancelCallback ob) with
         | None =>
             (cascade (cancel_fuel n) ob c;; call_doneResolve x c)
               (marked x (set_timeoutId Null ob) c (cleared x ob s))
         | Some k =>
             Throw (Raised k) (struck x (set_timeoutId Null ob) c (cleared x ob s))
         end.
Proof.
  intros Hx Hk. simpl. rewrite (bind_Ret _ _ _ _ _ (read_eq _ _ _ Hx)), Hk.
  unfold DeadlineContext_cancel.
  rewrite (bind_Ret _ _ _ _ _ (DeadlineContext_clearTimeout_eq _ _ _ Hx)).
  pose proof (cleared_lookup_eq _ _ _ Hx) as H1.
  destruct (canceled ob) eqn:Hc.
  - erewrite bind_Ret; [reflexivity|].
    by eapply CancelableContext_cancel_dead.
  - unfold bind at 1. erewrite CancelableContext_cancel_live by (exact H1 || exact Hc).
    change (cancelCallback (set_timeoutId Null ob)) with (cancelCallback ob).
    by destruct (thrower (cancelCallback ob)).
Qed.

Lemma onCancel_dead x cb c ob s :
  heap s !! x = Some ob → canceled ob = true → cause ob = Some c →
  onCancel x cb s
  = match cb with
    | Returning _ => Ret tt (say [Invoke x cb c] s)
    | Throwing k => Throw (Raised k) (say [Invoke x cb c] s)
    end.
Proof.
  intros Hx Hc Hv. unfold onCancel.
  rewrite (bind_Ret _ _ _ _ _ (read_eq _ _ _ Hx)), Hc, Hv.
  erewrite (bind_Ret (nonnull _)) by reflexivity. apply call_eq.
Qed.

Lemma onCancel_live x cb ob s :
  heap s !! x = Some ob → canceled ob = false →
  onCancel x cb s
  = Ret tt (put x (set_cancelCallback (cancelCallback ob ++ [cb]) ob) s).
Proof.
  intros Hx Hc. unfold onCancel.
  rewrite (bind_Ret _ _ _ _ _ (read_eq _ _ _ Hx)), Hc.
  exact (modify_eq x (λ o, set_cancelCallback (cancelCallback o ++ [cb]) o) ob s Hx).
Qed.

(** ** Constructors *)

Lemma grown_lookup_new ob s : heap (grown ob s) !! length (heap s) = Some ob.
Proof. simpl. by rewrite list_lookup_middle. Qed.

Lemma grown_lookup_old ob ob' x s :
  heap s !! x = Some ob' → heap (grown ob s) !! x = Some ob'.
Proof. intros H. simpl. by apply lookup_app_l_Some. Qed.

Lemma put_grown ob ob' s : put (length (heap s)) ob' (grown ob s) = grown ob' s.
Proof.
  unfold put, grown, upd_heap. simpl. f_equal.
  replace (length (heap s)) with (length (heap s) + 0) by lia.
  by rewrite insert_app_r.
Qed.

Lemma put_grown_at x ob ob' s :
  x = length (heap s) → put x ob' (grown ob s) = grown ob' s.
Proof. intros ->. apply put_grown. Qed.

Lemma alloc_eq k s : alloc k s = Ret (length (heap s)) (grown (blank k) s).
Proof. reflexivity. Qed.

Lemma modify_put x f ob ob0 s :
  heap s !! x = Some ob0 →
  modify x f (put x ob s) = Ret tt (put x (f ob) s).
Proof.
  intros H. rewrite (modify_eq x f ob) by (by eapply put_lookup_eq).
  by rewrite put_put.
Qed.

Lemma defineProperty_children_eq p v pob s :
  heap s !! p = Some pob →
  defineProperty_children p v s
  = match link_obj v pob with
    | Some pob' => Ret tt (put p pob' s)
    | None => Throw TypeError s
    end.
Proof.
  intros Hp. unfold defineProperty_children, link_obj.
  rewrite (bind_Ret _ _ _ _ _ (read_eq _ _ _ Hp)).
  destruct (children pob) as [|[] cur].
  - by apply modify_eq.
  - by apply modify_eq.
  - destruct (decide (cur = Some v)); [|done].
    unfold ret. by rewrite put_same.
Qed.

Lemma instanceof_CancelableContext_eq p pob s :
  heap s !! p = Some pob →
  instanceof_CancelableContext p s
  = Ret (match cls pob with KContext => false | _ => true end) s.
Proof.
  intros H. unfold instanceof_CancelableContext.
  by rewrite (bind_Ret _ _ _ _ _ (read_eq _ _ _ H)).
Qed.

Lemma instanceof_DeadlineContext_eq p pob s :
  heap s !! p = Some pob →
  instanceof_DeadlineContext p s
  = Ret (match cls pob with KDeadlineContext => true | _ => false end) s.
Proof.
  intros H. unfold instanceof_DeadlineContext.
  by rewrite (bind_Ret _ _ _ _ _ (read_eq _ _ _ H)).
Qed.

(** The base constructor on a newly allocated object of class [k]. *)
Lemma CancelableContext_constructor_eq this p k pob s :
  heap s !! this = Some (blank k) → heap s !! p = Some pob → this ≠ p →
  CancelableContext_constructor this p s
  = match cls pob with
    | KContext => Ret tt (put this (fresh k p) s)
    | _ =>
        if canceled pob then
          (let! x := nonnull (cause pob) in invoke_cancel this x)
            (put this (fresh k p) s)
        else defineProperty_children p this (put this (fresh k p) s)
    end.
Proof.
  intros Hthis Hp Hne. unfold CancelableContext_constructor, Context_constructor.
  rewrite (bind_Ret _ _ _ _ _ (modify_eq _ _ _ _ Hthis)).
  do 5 (erewrite bind_Ret by (by eapply modify_put)).
  assert (heap (put this (fresh k p) s) !! p = Some pob) as Hp'
    by (by rewrite put_lookup_ne).
  change (set_children _ _) with (fresh k p).
  rewrite (bind_Ret _ _ _ _ _ (instanceof_CancelableContext_eq _ _ _ Hp')).
  destruct (cls pob); [done| |];
    rewrite (bind_Ret _ _ _ _ _ (isCancelled_eq _ _ _ Hp'));
    (destruct (canceled pob); [|done]);
    by rewrite (bind_Ret _ _ _ _ _ (getCause_eq _ _ _ Hp')).
Qed.

Lemma new_Context_eq p s :
  new_Context p s
  = Ret (length (heap s)) (grown (set_parent p (blank KContext)) s).
Proof.
  unfold new_Context, Context_constructor.
  rewrite (bind_Ret _ _ _ _ _ (alloc_eq _ _)).
  erewrite bind_Ret by (apply modify_eq, (grown_lookup_new (blank KContext))).
  unfold ret. f_equal. apply put_grown.
Qed.

(** A fresh scope with nothing linked below it is cancelled in one step. *)
Lemma invoke_cancel_fresh_KCancelable p c s :
  invoke_cancel (length (heap s)) c (grown (fresh KCancelableContext p) s)
  = Ret tt (marked (length (heap s)) (fresh KCancelableContext p) c
                   (grown (fresh KCancelableContext p) s)).
Proof.
  unfold invoke_cancel. simpl length. rewrite length_app. simpl length.
  replace (length (heap s) + 1 - length (heap s)) with 1 by lia.
  by erewrite cancel_fuel_KCancelable by (apply grown_lookup_new || done).
Qed.

Lemma invoke_cancel_fresh_KDeadline p c s :
  invoke_cancel (length (heap s)) c (grown (fresh KDeadlineContext p) s)
  = Throw TypeError
      (marked (length (heap s)) (set_timeoutId Null (fresh KDeadlineContext p)) c
              (grown (set_timeoutId Null (fresh KDeadlineContext p)) s)).
Proof.
  unfold invoke_cancel. simpl length. rewrite length_app. simpl length.
  replace (length (heap s) + 1 - length (heap s)) with 1 by lia.
  erewrite cancel_fuel_KDeadline by (apply grown_lookup_new || done).
  simpl canceled. cbv iota.
  unfold cleared. simpl timeoutId. cbv iota. rewrite put_grown.
  erewrite bind_Ret by reflexivity.
  apply (call_doneResolve_undefined _ _
           (mark_obj c (set_timeoutId Null (fresh KDeadlineContext p)))); [|done].
  unfold marked. simpl. rewrite list_lookup_insert_eq; [reflexivity|].
  rewrite length_app. simpl. lia.
Qed.

Lemma new_CancelableContext_eq p pob s :
  heap s !! p = Some pob →
  new_CancelableContext p s
  = let this := length (heap s) in
    let s1 := grown (fresh KCancelableContext p) s in
    match cls pob with
    | KContext => Ret this s1
    | _ =>
        if canceled pob then
          match cause pob with
          | Some x => Ret this (marked this (fresh KCancelableContext p) x s1)
          | None => Wrong
          end
        else
          match link_obj this pob with
          | Some pob' => Ret this (put p pob' s1)
          | None => Throw TypeError s1
          end
    end.
Proof.
  intros Hp. unfold new_CancelableContext.
  rewrite (bind_Ret _ _ _ _ _ (alloc_eq _ _)).
  pose proof (lookup_lt_Some _ _ _ Hp) as Hlt.
  unfold bind at 1.
  erewrite CancelableContext_constructor_eq;
    [ | apply (grown_lookup_new (blank KCancelableContext))
      | by apply grown_lookup_old | lia ].
  rewrite put_grown. cbv zeta.
  assert (match (if canceled pob then
            (let! x := nonnull (cause pob) in
             invoke_cancel (length (heap s)) x) (grown (fresh KCancelableContext p) s)
          else defineProperty_children p (length (heap s))
                 (grown (fresh KCancelableContext p) s)) with
          | Ret _ s' => ret (length (heap s)) s'
          | Throw e s' => Throw e s'
          | Wrong => Wrong
          end =
          if canceled pob then
            match cause pob with
            | Some x => Ret (length (heap s))
                          (marked (length (heap s)) (fresh KCancelableContext p) x
                                  (grown (fresh KCancelableContext p) s))
            | None => Wrong
            end
          else
            match link_obj (length (heap s)) pob with
            | Some pob' => Ret (length (heap s)) (put p pob' (grown (fresh KCancelableContext p) s))
            | None => Throw TypeError (grown (fresh KCancelableContext p) s)
            end) as Hcase.
  { destruct (canceled pob).
    - destruct (cause pob) as [x|]; [|done].
      erewrite (bind_Ret (nonnull _)) by reflexivity.
      by rewrite invoke_cancel_fresh_KCancelable.
    - erewrite defineProperty_children_eq by (by apply grown_lookup_old).
      by destruct (link_obj _ _). }
  destruct (cls pob); [done|exact Hcase|exact Hcase].
Qed.

Lemma put_comm x y a b s : x ≠ y → put x a (put y b s) = put y b (put x a s).
Proof.
  intros Hne. unfold put, upd_heap. simpl. f_equal.
  by apply list_insert_insert_ne.
Qed.

Lemma link_obj_again v pob pob' :
  link_obj v pob = Some pob' → link_obj v pob' = Some pob'.
Proof.
  unfold link_obj. destruct (children pob) as [|[] cur] eqn:Hc.
  - intros [= <-]. simpl. by rewrite decide_True.
  - intros [= <-]. simpl. by destruct pob.
  - destruct (decide (cur = Some v)) as [->|]; [|done].
    intros [= <-]. rewrite Hc. by rewrite decide_True.
Qed.

Lemma link_obj_cls v pob pob' :
  link_obj v pob = Some pob' →
  cls pob' = cls pob ∧ canceled pob' = canceled pob ∧ cause pob' = cause pob.
Proof.
  unfold link_obj. destruct (children pob) as [|[] cur].
  - by intros [= <-].
  - by intros [= <-].
  - destruct (decide (cur = Some v)); [|done]. by intros [= <-].
Qed.

Lemma DeadlineContext_initializeTimer_fresh {B} (rest : M B) this p ms s :
  heap s !! this = Some (fresh KDeadlineContext p) →
  (DeadlineContext_initializeTimer this ms;;
   modify this (λ o, set_doneResolve true (set_done None o));;
   rest) s
  = rest (scheduled this ms (put this (armed_obj p (length (timers s))) s)).
Proof.
  intros Hthis. unfold DeadlineContext_initializeTimer.
  erewrite bind_Ret; last first.
  { rewrite (bind_Ret _ _ _ _ _ (read_eq _ _ _ Hthis)).
    change (timeoutId (fresh KDeadlineContext p)) with (@Undefined TimerId). cbv iota.
    erewrite bind_Ret by reflexivity.
    apply modify_eq. exact Hthis. }
  erewrite bind_Ret; last first.
  { apply modify_eq. eapply put_lookup_eq. exact Hthis. }
  by rewrite put_put.
Qed.

Lemma new_DeadlineContext_eq p ms pob s :
  heap s !! p = Some pob →
  new_DeadlineContext p ms s
  = let this := length (heap s) in
    let s2 := scheduled this ms (grown (armed_obj p (length (timers s))) s) in
    match cls pob with
    | KContext =>
        match link_obj this pob with
        | Some pob' => Ret this (put p pob' s2)
        | None => Throw TypeError s2
        end
    | k =>
        if canceled pob then
          match cause pob with
          | Some x => Throw TypeError (marked this (stillborn p) x (grown (stillborn p) s))
          | None => Wrong
          end
        else
          match link_obj this pob with
          | Some pob' =>
              Ret this (put p pob' (match k with
                                    | KDeadlineContext => parked p this s2
                                    | _ => s2
                                    end))
          | None => Throw TypeError (grown (fresh KDeadlineContext p) s)
          end
    end.
Proof.
  intros Hp. unfold new_DeadlineContext, DeadlineContext_constructor.
  rewrite (bind_Ret _ _ _ _ _ (alloc_eq _ _)).
  pose proof (lookup_lt_Some _ _ _ Hp) as Hlt.
  set (this := length (heap s)).
  assert (this ≠ p) as Hne by (subst this; lia).
  unfold bind at 1. unfold bind at 1.
  erewrite CancelableContext_constructor_eq;
    [ | apply (grown_lookup_new (blank KDeadlineContext))
      | by apply grown_lookup_old | done ].
  rewrite (put_grown_at this) by done. cbv zeta.
  set (s1 := grown (fresh KDeadlineContext p) s).
  assert (heap s1 !! this = Some (fresh KDeadlineContext p)) as Hthis
    by apply grown_lookup_new.
  assert (heap s1 !! p = Some pob) as Hp1 by (by apply grown_lookup_old).
  destruct (cls pob) eqn:Hk.
  - (* a plain Context above *)
    rewrite (DeadlineContext_initializeTimer_fresh _ _ _ _ _ Hthis).
    subst s1. rewrite (put_grown_at this) by done.
    set (s2 := scheduled _ _ _).
    assert (heap s2 !! p = Some pob) as Hp2 by (by apply grown_lookup_old).
    rewrite (bind_Ret _ _ _ _ _ (instanceof_CancelableContext_eq _ _ _ Hp2)), Hk.
    rewrite (defineProperty_children_eq _ _ _ _ Hp2).
    by destruct (link_obj this pob).
  - destruct (canceled pob) eqn:Hc.
    + destruct (cause pob) as [x|]; [|done].
      erewrite (bind_Ret (nonnull _)) by reflexivity.
      subst s1 this. by rewrite invoke_cancel_fresh_KDeadline.
    + rewrite (defineProperty_children_eq _ _ _ _ Hp1).
      destruct (link_obj this pob) as [pob'|] eqn:Hl; [|done].
      destruct (link_obj_cls _ _ _ Hl) as (Hk' & Hc' & _).
      erewrite DeadlineContext_initializeTimer_fresh
        by (rewrite put_lookup_ne by done; exact Hthis).
      rewrite (put_comm this p) by done. subst s1. rewrite (put_grown_at this) by done.
      set (s2 := scheduled _ _ _).
      assert (heap s2 !! p = Some pob') as Hp2.
      { subst s2. simpl. apply list_lookup_insert_eq. rewrite length_app. lia. }
      rewrite (bind_Ret _ _ _ _ _ (instanceof_CancelableContext_eq _ _ _ Hp2)), Hk', Hk.
      rewrite (bind_Ret _ _ _ _ _ (isCancelled_eq _ _ _ Hp2)), Hc', Hc.
      rewrite (bind_Ret _ _ _ _ _ (instanceof_DeadlineContext_eq _ _ _ Hp2)), Hk', Hk.
      erewrite bind_Ret by reflexivity.
      rewrite (defineProperty_children_eq _ _ _ _ Hp2), (link_obj_again _ _ _ Hl).
      subst s2. unfold put, scheduled, grown, upd_heap, upd_timers. simpl.
      by rewrite list_insert_insert_eq.
  - destruct (canceled pob) eqn:Hc.
    + destruct (cause pob) as [x|]; [|done].
      erewrite (bind_Ret (nonnull _)) by reflexivity.
      subst s1 this. by rewrite invoke_cancel_fresh_KDeadline.
    + rewrite (defineProperty_children_eq _ _ _ _ Hp1).
      destruct (link_obj this pob) as [pob'|] eqn:Hl; [|done].
      destruct (link_obj_cls _ _ _ Hl) as (Hk' & Hc' & _).
      erewrite DeadlineContext_initializeTimer_fresh
        by (rewrite put_lookup_ne by done; exact Hthis).
      rewrite (put_comm this p) by done. subst s1. rewrite (put_grown_at this) by done.
      set (s2 := scheduled _ _ _).
      assert (heap s2 !! p = Some pob') as Hp2.
      { subst s2. simpl. apply list_lookup_insert_eq. rewrite length_app. lia. }
      rewrite (bind_Ret _ _ _ _ _ (instanceof_CancelableContext_eq _ _ _ Hp2)), Hk', Hk.
      rewrite (bind_Ret _ _ _ _ _ (isCancelled_eq _ _ _ Hp2)), Hc', Hc.
      rewrite (bind_Ret _ _ _ _ _ (instanceof_DeadlineContext_eq _ _ _ Hp2)), Hk', Hk.
      erewrite bind_Ret by reflexivity.
      erewrite defineProperty_children_eq by exact Hp2.
      rewrite (link_obj_again _ _ _ Hl).
      subst s2. unfold put, scheduled, parked, spawn_await, grown, upd_heap, upd_timers, upd_waiters.
      simpl. by rewrite list_insert_insert_eq.
Qed.

(** * Invariants of the store *)

Lemma wf_boot : wf [] boot.
Proof.
  split; simpl; intros *; try (rewrite lookup_nil; done).
  all: intros H; by apply elem_of_nil in H.
Qed.

(** ** Updating one object *)

Lemma wf_put K s x ob ob' :
  wf K s → heap s !! x = Some ob →
  obj_ok ob' →
  cls ob' = cls ob →
  (doneResolve ob = true → doneResolve ob' = true) →
  linked_below s x ob' →
  (canceled ob = true → canceled ob' = true) →
  (∀ t tm, timers s !! t = Some tm → status tm = Pending → target tm = x →
           armed t ob → armed t ob') →
  wf K (put x ob' s).
Proof.
  intros [Ho Hl Ht Hw Hk Hr] Hx Hok Hcls Hres Hlink Hcan Harm.
  assert (∀ oc, callable oc → ∀ y, heap s !! y = Some oc →
          ∃ oc', heap (put x ob' s) !! y = Some oc' ∧ callable oc') as Hcall.
  { intros oc [Hc1 Hc2] y Hy. destruct (decide (x = y)) as [->|Hne].
    - exists ob'. split; [by eapply put_lookup_eq|].
      assert (oc = ob) as -> by congruence.
      split; rewrite Hcls; [done|]. intros Hd. by apply Hres, Hc2.
    - exists oc. split; [by rewrite put_lookup_ne|done]. }
  split.
  - intros i o. simpl. intros [(-> & -> & _)|(Hne & Hi)]%list_lookup_insert_Some; eauto.
  - intros i o. simpl.
    intros [(-> & -> & _)|(Hne & Hi)]%list_lookup_insert_Some w c Hch.
    + destruct (Hlink w c Hch) as (Hlt & oc & Hoc & Hcal).
      split; [done|]. by eapply Hcall.
    + destruct (Hl i o Hi w c Hch) as (Hlt & oc & Hoc & Hcal).
      split; [done|]. by eapply Hcall.
  - intros t tm Htm Hp. destruct (Ht t tm Htm Hp) as (o & Ho' & Ha).
    destruct (decide (x = target tm)) as [->|Hne].
    + exists ob'. split; [by eapply put_lookup_eq|].
      apply (Harm t tm); try done. congruence.
    + exists o. split; [by rewrite put_lookup_ne|done].
  - intros w tk Htk Hres'. destruct (Hw w tk Htk Hres') as ([op Hop] & oc & Hoc & Hcal).
    split; [|by eapply Hcall].
    destruct (decide (x = awaited tk)) as [->|Hne].
    + exists ob'. by eapply put_lookup_eq.
    + exists op. by rewrite put_lookup_ne.
  - intros k Hin. destruct (Hk k Hin) as (o & Ho' & Hu).
    destruct (decide (x = k)) as [->|Hne].
    + exists ob'. split; [by eapply put_lookup_eq|].
      intros Hd. apply Hres. assert (o = ob) as -> by congruence.
      apply Hu. congruence.
    + exists o. split; [by rewrite put_lookup_ne|done].
  - intros o cb c Hin. destruct (Hr o cb c Hin) as (oo & Hoo & Hc).
    destruct (decide (x = o)) as [->|Hne].
    + exists ob'. split; [by eapply put_lookup_eq|].
      apply Hcan. congruence.
    + exists oo. split; [by rewrite put_lookup_ne|done].
Qed.

Lemma wf_say K s evs :
  wf K s →
  (∀ o cb c, Invoke o cb c ∈ evs →
             ∃ ob, heap s !! o = Some ob ∧ canceled ob = true) →
  wf K (say evs s).
Proof.
  intros [Ho Hl Ht Hw Hk Hr] Hev. split; try done.
  intros o cb c. simpl. intros [Hin|Hin]%elem_of_app; eauto.
Qed.

Lemma disarm_lookup t T t' tm' :
  disarm t T !! t' = Some tm' →
  ∃ tm, T !! t' = Some tm ∧ target tm' = target tm ∧
        (status tm' = Pending → status tm = Pending ∧ t ≠ t').
Proof.
  unfold disarm. destruct (T !! t) as [tm|] eqn:Ht.
  - intros [(-> & <- & _)|(Hne & H)]%list_lookup_insert_Some.
    + exists tm. split; [done|]. unfold clear_timer.
      destruct (status tm) eqn:Hs; simpl; rewrite ?Hs; naive_solver.
    + exists tm'. naive_solver.
  - intros H. exists tm'. split; [done|]. split; [done|].
    intros Hp. split; [done|]. intros ->. congruence.
Qed.

Lemma wf_disarm K s t : wf K s → wf K (upd_timers (disarm t) s).
Proof.
  intros [Ho Hl Ht Hw Hk Hr]. split; try done.
  intros t' tm'. simpl. intros (tm & Htm & Htg & Hst)%disarm_lookup Hp.
  rewrite Htg. destruct (Hst Hp) as [Hp' _]. eauto.
Qed.

Lemma disarm_not_pending t T tm : disarm t T !! t = Some tm → status tm ≠ Pending.
Proof.
  unfold disarm. destruct (T !! t) as [tm0|] eqn:Ht; [|congruence].
  rewrite list_lookup_insert_eq by (by eapply lookup_lt_Some).
  intros [= <-]. unfold clear_timer. by destruct (status tm0) eqn:Hs; simpl; rewrite ?Hs.
Qed.

(** ** The three effects of a cancellation *)

Lemma obj_ok_set_timeoutId ob : obj_ok ob → obj_ok (set_timeoutId Null ob).
Proof. intros []. by split. Qed.

Lemma wf_cleared K s x ob :
  wf K s → heap s !! x = Some ob → wf K (cleared x ob s).
Proof.
  intros Hwf Hx. unfold cleared.
  assert (wf K (match timeoutId ob with
                | Val t => upd_timers (disarm t) s
                | _ => s
                end)) as Hwf1.
  { destruct (timeoutId ob); [done|done|by apply wf_disarm]. }
  eapply wf_put; try exact Hwf1.
  - by destruct (timeoutId ob).
  - apply obj_ok_set_timeoutId. by eapply (wf_obj _ _ Hwf).
  - done.
  - done.
  - intros w c Hch. destruct (wf_link _ _ Hwf _ _ Hx w c Hch) as (? & oc & ? & ?).
    split; [done|]. exists oc. split; [|done]. by destruct (timeoutId ob).
  - done.
  - intros t tm Htm Hp Htg Ha. exfalso.
    destruct Ha as [_ _ _ _ _ Hid]. rewrite Hid in Htm. simpl in Htm.
    by eapply disarm_not_pending.
Qed.

Lemma obj_ok_mark c ob :
  obj_ok ob → (cls ob = KDeadlineContext → timeoutId ob = Null) →
  obj_ok (mark_obj c ob).
Proof.
  intros [H1 H2 H3 H4 H5 H6] Hun. split; simpl; try done.
  - intros Hk _. by apply Hun.
  - by left.
Qed.

Lemma wf_marked K s x ob c :
  wf K s → heap s !! x = Some ob →
  (cls ob = KDeadlineContext → timeoutId ob = Null) →
  wf K (marked x ob c s).
Proof.
  intros Hwf Hx Hun. unfold marked. apply wf_say.
  - eapply wf_put; try done.
    + apply obj_ok_mark; [by eapply (wf_obj _ _ Hwf)|done].
    + exact (wf_link _ _ Hwf _ _ Hx).
    + intros t tm _ _ _ [Hk _ _ _ _ Hid]. rewrite (Hun Hk) in Hid. done.
  - intros o cb c' [Hin|Hin]%elem_of_app.
    + unfold notify in Hin. apply list_elem_of_fmap in Hin as (cb' & [= -> -> ->] & _).
      exists (mark_obj c ob). split; [by eapply put_lookup_eq|done].
    + apply list_elem_of_singleton in Hin. done.
Qed.

Lemma obj_ok_stain c ob :
  obj_ok ob → (cls ob = KDeadlineContext → timeoutId ob = Null) →
  obj_ok (stain_obj c ob).
Proof.
  intros [H1 H2 H3 H4 H5 H6] Hun. split; simpl; try done.
  - intros Hk _. by apply Hun.
  - by left.
Qed.

Lemma wf_struck K s x ob c :
  wf K s → heap s !! x = Some ob →
  (cls ob = KDeadlineContext → timeoutId ob = Null) →
  wf K (struck x ob c s).
Proof.
  intros Hwf Hx Hun. unfold struck. apply wf_say.
  - eapply wf_put; try done.
    + apply obj_ok_stain; [by eapply (wf_obj _ _ Hwf)|done].
    + exact (wf_link _ _ Hwf _ _ Hx).
    + intros t tm _ _ _ [Hk _ _ _ _ Hid]. rewrite (Hun Hk) in Hid. done.
  - intros o cb c' Hin.
    unfold notify in Hin. apply list_elem_of_fmap in Hin as (cb' & [= -> -> ->] & _).
    exists (stain_obj c ob). split; [by eapply put_lookup_eq|done].
Qed.

Lemma obj_ok_resolve c ob : obj_ok ob → cause ob ≠ None → obj_ok (resolve_obj c ob).
Proof.
  intros Hok Hc. unfold resolve_obj. destruct (_done ob) eqn:Hd; [done|].
  destruct Hok as [H1 H2 H3 H4 H6 H5]. split; simpl; try done.
  intros _. destruct (H5 Hc) as [?|(_ & _ & ?)]; [by left|congruence].
Qed.

Lemma resolve_obj_fields c ob :
  cls (resolve_obj c ob) = cls ob ∧ parent (resolve_obj c ob) = parent ob
  ∧ canceled (resolve_obj c ob) = canceled ob ∧ cause (resolve_obj c ob) = cause ob
  ∧ cancelCallback (resolve_obj c ob) = cancelCallback ob
  ∧ controller (resolve_obj c ob) = controller ob
  ∧ children (resolve_obj c ob) = children ob
  ∧ timeoutId (resolve_obj c ob) = timeoutId ob
  ∧ doneResolve (resolve_obj c ob) = doneResolve ob
  ∧ _done (resolve_obj c ob) = Some (default c (_done ob)).
Proof. unfold resolve_obj. destruct (_done ob) eqn:Hd; simpl; by rewrite ?Hd. Qed.

Lemma wf_resolved K s x ob c :
  wf K s → heap s !! x = Some ob → cause ob ≠ None →
  wf K (put x (resolve_obj c ob) s).
Proof.
  intros Hwf Hx Hc.
  destruct (resolve_obj_fields c ob) as (E1 & E2 & E3 & E4 & E5 & E6 & E7 & E8 & E9 & E10).
  eapply wf_put; try done.
  - apply obj_ok_resolve; [by eapply (wf_obj _ _ Hwf)|done].
  - by rewrite E9.
  - intros w ch. rewrite E7. exact (wf_link _ _ Hwf _ _ Hx w ch).
  - by rewrite E3.
  - intros t tm _ _ _ [_ _ _ Hn _ _]. done.
Qed.

(** * What a cancellation changes *)

(** ** Counting callback invocations *)

Lemma calls_app o cb a b : calls o cb (a ++ b) = calls o cb a + calls o cb b.
Proof. unfold calls. by rewrite List.filter_app, length_app. Qed.

Lemma calls_notify_eq x cb c l : calls x cb (notify x c l) = registrations cb l.
Proof.
  unfold calls, registrations, notify. induction l as [|a l IH]; [done|].
  simpl. rewrite Nat.eqb_refl. simpl.
  destruct (bool_decide (a = cb)); simpl; by rewrite IH.
Qed.

Lemma calls_notify_ne o x cb c l : o ≠ x → calls o cb (notify x c l) = 0.
Proof.
  intros Hne. unfold calls, notify. induction l as [|a l IH]; [done|].
  simpl. destruct (x =? o) eqn:E; [|done].
  apply Nat.eqb_eq in E. congruence.
Qed.

(** ** Objects and states across a cancellation *)

Lemma evolves_refl ob : evolves ob ob.
Proof. by split. Qed.

Lemma evolves_trans a b c : evolves a b → evolves b c → evolves a c.
Proof.
  intros [A1 A2 A3 A4 A5 A6 A7] [B1 B2 B3 B4 B5 B6 B7].
  split; try congruence.
  - intros H. destruct (A6 H) as [H1 H2]. destruct (B6 H1) as [H3 H4].
    split; congruence.
  - intros v H. by apply B7, A7.
Qed.

Lemma advances_refl s : advances s s.
Proof.
  split; try done.
  - intros i ob H. exists ob. split; [done|apply evolves_refl].
  - exists []. by rewrite app_nil_r.
Qed.

Lemma advances_trans a b c : advances a b → advances b c → advances a c.
Proof.
  intros [A1 A2 A3 [e1 A4] A5] [B1 B2 B3 [e2 B4] B5]. split.
  - intros i ob H. destruct (A1 i ob H) as (ob1 & H1 & E1).
    destruct (B1 i ob1 H1) as (ob2 & H2 & E2).
    exists ob2. split; [done|by eapply evolves_trans].
  - congruence.
  - congruence.
  - exists (e1 ++ e2). by rewrite B4, A4, app_assoc.
  - intros o cb. specialize (A5 o cb). specialize (B5 o cb). lia.
Qed.

(** An update of one object that keeps its cancellation state and its
    listeners, with the trace untouched. *)
Lemma advances_put s x ob ob' :
  heap s !! x = Some ob → evolves ob ob' →
  canceled ob' = canceled ob →
  advances s (put x ob' s).
Proof.
  intros Hx Hev Hc. split; try done.
  - intros i o Hi. destruct (decide (x = i)) as [->|Hne].
    + exists ob'. split; [by eapply put_lookup_eq|]. congruence.
    + exists o. split; [by rewrite put_lookup_ne|apply evolves_refl].
  - simpl. by rewrite length_insert.
  - exists []. simpl. by rewrite app_nil_r.
  - intros o cb. simpl trace. unfold delivered.
    destruct (decide (x = o)) as [->|Hne].
    + rewrite (put_lookup_eq _ _ _ _ Hx), Hx, Hc, (ev_listeners _ _ Hev). done.
    + by rewrite put_lookup_ne.
Qed.

Lemma advances_disarm s t : advances s (upd_timers (disarm t) s).
Proof.
  split; try done.
  - intros i ob H. exists ob. split; [done|apply evolves_refl].
  - exists []. simpl. by rewrite app_nil_r.
Qed.

Lemma advances_cleared s x ob :
  heap s !! x = Some ob → advances s (cleared x ob s).
Proof.
  intros Hx. unfold cleared.
  eapply advances_trans; [|apply advances_put with (ob := ob)].
  - destruct (timeoutId ob); [apply advances_refl|apply advances_refl|apply advances_disarm].
  - by destruct (timeoutId ob).
  - by split.
  - done.
Qed.

Lemma advances_marked s x ob c :
  heap s !! x = Some ob → canceled ob = false →
  thrower (cancelCallback ob) = None →
  advances s (marked x ob c s).
Proof.
  intros Hx Hc Hth. split.
  - intros i o Hi. simpl. destruct (decide (x = i)) as [->|Hne].
    + exists (mark_obj c ob). rewrite list_lookup_insert_eq by (by eapply lookup_lt_Some).
      split; [done|]. assert (o = ob) as -> by congruence.
      split; try done. congruence.
    + exists o. rewrite list_lookup_insert_ne by done. split; [done|apply evolves_refl].
  - simpl. by rewrite length_insert.
  - done.
  - by eexists.
  - intros o cb. simpl trace. rewrite !calls_app. unfold delivered.
    change (calls o cb [Abort x c]) with 0.
    destruct (decide (x = o)) as [->|Hne].
    + rewrite calls_notify_eq.
      unfold marked. simpl heap.
      rewrite list_lookup_insert_eq by (by eapply lookup_lt_Some).
      rewrite Hx, Hc. simpl. rewrite (reached_all _ Hth). lia.
    + rewrite calls_notify_ne by done.
      unfold marked. simpl heap. rewrite list_lookup_insert_ne by done. lia.
Qed.

Lemma advances_struck s x ob c :
  heap s !! x = Some ob → canceled ob = false →
  advances s (struck x ob c s).
Proof.
  intros Hx Hc. split.
  - intros i o Hi. simpl. destruct (decide (x = i)) as [->|Hne].
    + exists (stain_obj c ob). rewrite list_lookup_insert_eq by (by eapply lookup_lt_Some).
      split; [done|]. assert (o = ob) as -> by congruence.
      split; try done. congruence.
    + exists o. rewrite list_lookup_insert_ne by done. split; [done|apply evolves_refl].
  - simpl. by rewrite length_insert.
  - done.
  - by eexists.
  - intros o cb. simpl trace. rewrite !calls_app. unfold delivered.
    destruct (decide (x = o)) as [->|Hne].
    + rewrite calls_notify_eq.
      unfold struck. simpl heap.
      rewrite list_lookup_insert_eq by (by eapply lookup_lt_Some).
      rewrite Hx, Hc. simpl. lia.
    + rewrite calls_notify_ne by done.
      unfold struck. simpl heap. rewrite list_lookup_insert_ne by done. lia.
Qed.

Lemma struck_lookup_eq x ob ob0 c s :
  heap s !! x = Some ob0 → heap (struck x ob c s) !! x = Some (stain_obj c ob).
Proof. intros H. by eapply put_lookup_eq. Qed.

Lemma struck_lookup_ne x y ob c s :
  x ≠ y → heap (struck x ob c s) !! y = heap s !! y.
Proof. intros H. unfold struck. simpl. by rewrite list_lookup_insert_ne. Qed.

Lemma struck_length x ob c s : length (heap (struck x ob c s)) = length (heap s).
Proof. unfold struck. simpl. by rewrite length_insert. Qed.

Lemma advances_resolved s x ob c :
  heap s !! x = Some ob → advances s (put x (resolve_obj c ob) s).
Proof.
  intros Hx.
  destruct (resolve_obj_fields c ob) as (E1 & E2 & E3 & E4 & E5 & E6 & E7 & E8 & E9 & E10).
  apply advances_put with (ob := ob); try done.
  split; try done.
  - intros H. by rewrite E3, E4.
  - intros v Hv. by rewrite E10, Hv.
Qed.

Lemma marked_lookup_eq x ob ob0 c s :
  heap s !! x = Some ob0 → heap (marked x ob c s) !! x = Some (mark_obj c ob).
Proof. intros H. by eapply put_lookup_eq. Qed.

Lemma marked_lookup_ne x y ob c s :
  x ≠ y → heap (marked x ob c s) !! y = heap s !! y.
Proof. intros H. unfold marked. simpl. by rewrite list_lookup_insert_ne. Qed.

Lemma marked_length x ob c s : length (heap (marked x ob c s)) = length (heap s).
Proof. unfold marked. simpl. by rewrite length_insert. Qed.

(** ** The cascade ends *)

Lemma ends_bind {A B} (m : M A) (k : A → M B) s s1 s' :
  (∃ a, m s = Ret a s1 ∧ ends (k a s1) s') ∨ (∃ e, m s = Throw (Raised e) s' ) →
  ends (bind m k s) s'.
Proof.
  intros [(a & Hm & He)|(e & Hm)]; unfold bind; rewrite Hm; [done|].
  right. by exists e.
Qed.

Lemma cascade_sound n K s x ob c :
  sound n → wf K s →
  (∃ v, children ob = Data true v) → linked_below s x ob →
  length (heap s) - x ≤ S n →
  ∃ s', ends (cascade (cancel_fuel n) ob c s) s'
        ∧ wf K s' ∧ advances s s'.
Proof.
  intros IH Hwf [v Hv] Hl Hn. unfold cascade. rewrite Hv.
  destruct v as [ch|].
  - destruct (Hl _ _ Hv) as (Hlt & och & Hch & Hcal).
    destruct (IH K s ch och c Hwf Hch Hcal) as (s' & Hs' & [P1 P2 P3]); [lia|].
    exists s'. by split.
  - exists s. split; [left; by exists tt|]. split; [done|apply advances_refl].
Qed.

(** A [cancel] on a scope that has the method returns, or throws what a
    listener on the way has thrown; in both cases the scope is cancelled
    when the call is over. *)
Lemma cancel_fuel_sound n : sound n.
Proof.
  induction n as [|n IH]; intros K s x ob c Hwf Hx Hcal Hn.
  { apply lookup_lt_Some in Hx. lia. }
  pose proof (wf_obj _ _ Hwf _ _ Hx) as Hok.
  destruct Hcal as [Hk Hres]. destruct (cls ob) eqn:Hcls; [done| |].
  - (* CancelableContext.cancel *)
    rewrite (cancel_fuel_KCancelable _ _ _ _ _ Hx Hcls).
    destruct (canceled ob) eqn:Hc.
    + exists s. split; [left; by exists tt|]. split; try done.
      * apply advances_refl.
      * intros o Ho. exists ob. split; [done|]. split; [done|].
        assert (o = ob) as -> by congruence. congruence.
    + destruct (thrower (cancelCallback ob)) as [k|] eqn:Hth.
      { eexists. split; [right; by exists k|]. split.
        - apply wf_struck; [done|done|]. intros ?. congruence.
        - by apply advances_struck.
        - intros o Ho. exists (stain_obj c ob).
          split; [by eapply struck_lookup_eq|done]. }
      pose proof (wf_marked K s x ob c Hwf Hx) as Hwf1.
      destruct (cascade_sound n K (marked x ob c s) x ob c IH) as (s2 & Hs2 & Hwf2 & Hadv).
      * apply Hwf1. intros ?. congruence.
      * apply (ok_children _ Hok). congruence.
      * intros w ch Hch. destruct (wf_link _ _ Hwf _ _ Hx w ch Hch) as (Hlt & och & Hoch & Hcc).
        split; [done|]. exists och. split; [|done].
        by rewrite marked_lookup_ne by lia.
      * by rewrite marked_length.
      * exists s2. split; [done|].
        assert (heap (marked x ob c s) !! x = Some (mark_obj c ob)) as Hx1
          by (by eapply put_lookup_eq).
        destruct (adv_heap _ _ Hadv _ _ Hx1) as (ob2 & Hx2 & Hev).
        split; try done.
        -- eapply advances_trans; [by apply advances_marked|done].
        -- intros o Ho. exists ob2. split; [done|].
           destruct (ev_canceled _ _ Hev eq_refl) as [H1 H2]. by split.
  - (* DeadlineContext.cancel *)
    rewrite (cancel_fuel_KDeadline _ _ _ _ _ Hx Hcls).
    pose proof (wf_cleared K s x ob Hwf Hx) as Hwf0.
    pose proof (cleared_lookup_eq _ _ _ Hx) as Hx0.
    pose proof (advances_cleared _ _ _ Hx) as Hadv0.
    set (ob0 := set_timeoutId Null ob) in *.
    set (s0 := cleared x ob s) in *.
    destruct (canceled ob) eqn:Hc.
    + rewrite (call_doneResolve_eq _ _ _ _ Hx0) by (by apply Hres).
      eexists. split; [left; by exists tt|].
      destruct (resolve_obj_fields c ob0) as (E1 & E2 & E3 & E4 & E5 & E6 & E7 & E8 & E9 & E10).
      split.
      * apply wf_resolved; try done. by apply (ok_cause _ Hok).
      * eapply advances_trans; [exact Hadv0|by apply advances_resolved].
      * intros o Ho. eexists. split; [by eapply put_lookup_eq|].
        split; [by rewrite E3|]. assert (o = ob) as -> by congruence. congruence.
    + destruct (thrower (cancelCallback ob)) as [k|] eqn:Hth.
      { eexists. split; [right; by exists k|]. split.
        - by apply wf_struck.
        - eapply advances_trans; [exact Hadv0|by apply advances_struck].
        - intros o Ho. exists (stain_obj c ob0).
          split; [by eapply struck_lookup_eq|done]. }
      pose proof (wf_marked K s0 x ob0 c Hwf0 Hx0 (λ _, eq_refl)) as Hwf1.
      destruct (cascade_sound n K (marked x ob0 c s0) x ob0 c IH Hwf1)
        as (s2 & Hs2 & Hwf2 & Hadv).
      * apply (ok_children _ Hok). congruence.
      * intros w ch Hch. destruct (wf_link _ _ Hwf _ _ Hx w ch Hch) as (Hlt & och & Hoch & Hcc).
        split; [done|]. exists och. split; [|done].
        rewrite marked_lookup_ne by lia.
        subst s0. by rewrite cleared_lookup_ne by lia.
      * rewrite marked_length, (adv_length _ _ Hadv0). done.
      * assert (heap (marked x ob0 c s0) !! x = Some (mark_obj c ob0)) as Hx1
          by (by eapply put_lookup_eq).
        destruct (adv_heap _ _ Hadv _ _ Hx1) as (ob2 & Hx2 & Hev).
        destruct (ev_canceled _ _ Hev eq_refl) as [Hc2 Hv2].
        assert (advances s s2) as Hadv2.
        { eapply advances_trans; [exact Hadv0|].
          eapply advances_trans; [by apply advances_marked|exact Hadv]. }
        destruct Hs2 as [[[] Hs2]|[k Hs2]].
        -- rewrite (bind_Ret _ _ _ _ _ Hs2).
           rewrite (call_doneResolve_eq _ _ _ _ Hx2)
             by (rewrite (ev_resolver _ _ Hev); by apply Hres).
           destruct (resolve_obj_fields c ob2)
             as (E1 & E2 & E3 & E4 & E5 & E6 & E7 & E8 & E9 & E10).
           eexists. split; [left; by exists tt|]. split.
           ++ apply wf_resolved; try done. by rewrite Hv2.
           ++ eapply advances_trans; [exact Hadv2|by apply advances_resolved].
           ++ intros o Ho. eexists. split; [by eapply put_lookup_eq|].
              split; [by rewrite E3|]. intros _. by rewrite E4.
        -- change (cascade (cancel_fuel n) ob c) with (cascade (cancel_fuel n) ob0 c).
           unfold bind. rewrite Hs2.
           exists s2. split; [right; by exists k|]. split; try done.
           intros o Ho. exists ob2. by split.
Qed.

(** A virtual call with the fuel the store allows equals any call with more. *)
Lemma invoke_cancel_sound K s x ob c :
  wf K s → heap s !! x = Some ob → callable ob →
  ∃ s', ends (invoke_cancel x c s) s' ∧ cancel_post K s x c s'.
Proof.
  intros Hwf Hx Hcal. unfold invoke_cancel.
  by eapply cancel_fuel_sound.
Qed.

(** ** Allocation, timers and parked continuations *)

Lemma grown_lookup ob s i o :
  heap (grown ob s) !! i = Some o ↔
  heap s !! i = Some o ∨ (i = length (heap s) ∧ o = ob).
Proof.
  simpl. rewrite lookup_app_Some. split.
  - intros [H|[Hge H]]; [by left|right].
    apply list_lookup_singleton_Some in H as [H ->]. split; [lia|done].
  - intros [H|[-> ->]]; [by left|right].
    split; [done|]. by rewrite Nat.sub_diag.
Qed.

Lemma wf_grown K s ob :
  wf K s → obj_ok ob → (∀ w c, children ob ≠ Data w (Some c)) →
  wf K (grown ob s).
Proof.
  intros [Ho Hl Ht Hw Hk Hr] Hok Hleaf. split.
  - intros i o [Hi|[-> ->]]%grown_lookup; eauto.
  - intros i o [Hi|[-> ->]]%grown_lookup w c Hch.
    + destruct (Hl i o Hi w c Hch) as (Hlt & oc & Hoc & Hcal).
      split; [done|]. exists oc. split; [by apply grown_lookup_old|done].
    + by destruct (Hleaf w c).
  - intros t tm Htm Hp. destruct (Ht t tm Htm Hp) as (o & Ho' & Ha).
    exists o. split; [by apply grown_lookup_old|done].
  - intros w tk Htk Hres. destruct (Hw w tk Htk Hres) as ([op Hop] & oc & Hoc & Hcal).
    split; [exists op; by apply grown_lookup_old|].
    exists oc. split; [by apply grown_lookup_old|done].
  - intros k Hin. destruct (Hk k Hin) as (o & Ho' & Hu).
    exists o. split; [by apply grown_lookup_old|done].
  - intros o cb c Hin. destruct (Hr o cb c Hin) as (oo & Hoo & Hc).
    exists oo. split; [by apply grown_lookup_old|done].
Qed.

Lemma wf_known_add K s k ob :
  wf K s → heap s !! k = Some ob → usable ob → wf (K ++ [k]) s.
Proof.
  intros [Ho Hl Ht Hw Hk Hr] Hx Hu. split; try done.
  intros k' [Hin|Hin]%elem_of_app; [by apply Hk|].
  apply list_elem_of_singleton in Hin as ->. eauto.
Qed.

Lemma wf_scheduled K s x ms ob :
  wf K s → heap s !! x = Some ob → armed (length (timers s)) ob →
  wf K (scheduled x ms s).
Proof.
  intros [Ho Hl Ht Hw Hk Hr] Hx Ha. split; try done.
  intros t tm. simpl. rewrite lookup_app_Some.
  intros [Htm|[Hge Htm]] Hp; [by eapply Ht|].
  apply list_lookup_singleton_Some in Htm as [Hz <-]. simpl.
  exists ob. split; [done|].
  replace t with (length (timers s)) by lia. done.
Qed.

Lemma wf_parked K s p x oc :
  wf K s → is_Some (heap s !! p) → heap s !! x = Some oc → callable oc →
  wf K (parked p x s).
Proof.
  intros [Ho Hl Ht Hw Hk Hr] Hp Hx Hcal. split; try done.
  intros w tk. simpl. rewrite lookup_app_Some.
  intros [Htk|[Hge Htk]] Hres; [by eapply Hw|].
  apply list_lookup_singleton_Some in Htk as [Hz <-]. simpl. eauto.
Qed.

Lemma wf_fired K s t tm :
  wf K s → timers s !! t = Some tm →
  wf K (upd_timers (λ T, <[t := mkTimer (target tm) (delay tm) Fired]> T) s).
Proof.
  intros [Ho Hl Ht Hw Hk Hr] Htm. split; try done.
  intros t' tm'. simpl.
  intros [(-> & <- & _)|(Hne & H)]%list_lookup_insert_Some Hp; [done|].
  by eapply Ht.
Qed.

Lemma wf_resumed K s w tk :
  wf K s → waiters s !! w = Some tk →
  wf K (upd_waiters (λ W, <[w := mkWaiter (awaited tk) (waiting tk) true]> W) s).
Proof.
  intros [Ho Hl Ht Hw Hk Hr] Htk. split; try done.
  intros w' tk'. simpl.
  intros [(-> & <- & _)|(Hne & H)]%list_lookup_insert_Some Hres; [done|].
  by eapply Hw.
Qed.

Lemma obj_ok_context p : obj_ok (set_parent p (blank KContext)).
Proof. split; simpl; try done. Qed.

Lemma obj_ok_fresh k p : obj_ok (fresh k p).
Proof. split; simpl; try done. intros _. by eexists. Qed.

Lemma obj_ok_stillborn p : obj_ok (stillborn p).
Proof. split; simpl; try done. intros _. by eexists. Qed.

Lemma obj_ok_armed p t : obj_ok (armed_obj p t).
Proof. split; simpl; try done. intros _. by eexists. Qed.

Lemma armed_armed_obj p t : armed t (armed_obj p t).
Proof. by split. Qed.

Lemma obj_ok_set_children v ob :
  obj_ok ob → (cls ob ≠ KContext → ∃ u, v = Data true u) →
  obj_ok (set_children v ob).
Proof. intros [H1 H2 H3 H4 H5 H6] Hv. by split. Qed.

Lemma obj_ok_set_cancelCallback l ob : obj_ok ob → obj_ok (set_cancelCallback l ob).
Proof. intros []. by split. Qed.

Lemma obj_ok_expire t ob : obj_ok ob → armed t ob → obj_ok (expire_obj ob).
Proof.
  intros [H1 H2 H3 H4 H6 H5] [A1 A2 A3 A4 A5 A6].
  unfold expire_obj, resolve_obj. simpl. rewrite A5.
  split; simpl; try done.
  intros _. right. by rewrite A1.
Qed.

(** * One operation of a client or of the event loop *)

Lemma persists_refl op i ob : persists op i ob ob.
Proof. by split. Qed.

Lemma persists_trans op i a b c :
  persists op i a b → persists op i b c → persists op i a c.
Proof.
  intros [A1 A2 A3 A4] [B1 B2 B3 B4]. split.
  - congruence.
  - intros H. destruct (A2 H) as [H1 H2]. destruct (B2 H1) as [H3 H4].
    split; congruence.
  - intros v H. by apply B3, A3.
  - intros H. rewrite B4, A4; try done.
    destruct H as [H|H]; [left|by right]. by apply A2.
Qed.

Lemma evolves_persists op i ob ob' : evolves ob ob' → persists op i ob ob'.
Proof. intros [E1 E2 E3 E4 E5 E6 E7]. by split. Qed.

Lemma extends_refl op s : extends op s s.
Proof.
  split; try done.
  - intros i ob H. exists ob. split; [done|apply persists_refl].
  - exists []. by rewrite app_nil_r.
Qed.

Lemma extends_trans op a b c : extends op a b → extends op b c → extends op a c.
Proof.
  intros [A1 [e1 A2] A3] [B1 [e2 B2] B3]. split.
  - intros i ob H. destruct (A1 i ob H) as (ob1 & H1 & E1).
    destruct (B1 i ob1 H1) as (ob2 & H2 & E2).
    exists ob2. split; [done|by eapply persists_trans].
  - exists (e1 ++ e2). by rewrite B2, A2, app_assoc.
  - intros o cb Hop. specialize (A3 o cb Hop). specialize (B3 o cb Hop). lia.
Qed.

Lemma advances_extends op s s' : advances s s' → extends op s s'.
Proof.
  intros [A1 A2 A3 A4 A5]. split; [|done|intros o cb _; apply A5].
  intros i ob H. destruct (A1 i ob H) as (ob' & H' & E).
  exists ob'. split; [done|by apply evolves_persists].
Qed.

(** Changes outside the store and the trace. *)
Lemma extends_host op s s' :
  heap s' = heap s → trace s' = trace s → extends op s s'.
Proof.
  intros Hh Ht. split.
  - intros i ob H. exists ob. rewrite Hh. split; [done|apply persists_refl].
  - exists []. by rewrite Ht, app_nil_r.
  - intros o cb _. unfold delivered. by rewrite Hh, Ht.
Qed.

Lemma extends_put op s x ob ob' :
  heap s !! x = Some ob → persists op x ob ob' →
  canceled ob' = canceled ob →
  (canceled ob = true → cancelCallback ob' = cancelCallback ob) →
  extends op s (put x ob' s).
Proof.
  intros Hx Hp Hc Hl. split.
  - intros i o Hi. destruct (decide (x = i)) as [->|Hne].
    + exists ob'. split; [by eapply put_lookup_eq|]. congruence.
    + exists o. split; [by rewrite put_lookup_ne|apply persists_refl].
  - exists []. simpl. by rewrite app_nil_r.
  - intros o cb _. simpl trace. unfold delivered.
    destruct (decide (x = o)) as [->|Hne].
    + rewrite (put_lookup_eq _ _ _ _ Hx), Hx, Hc.
      destruct (canceled ob) eqn:E; [|done]. by rewrite Hl.
    + by rewrite put_lookup_ne.
Qed.

Lemma extends_grown op s ob :
  canceled ob = false → extends op s (grown ob s).
Proof.
  intros Hc. split.
  - intros i o Hi. exists o. split; [by apply grown_lookup_old|apply persists_refl].
  - exists []. simpl. by rewrite app_nil_r.
  - intros o cb _. simpl trace. unfold delivered.
    destruct (heap s !! o) as [oo|] eqn:Ho.
    + by rewrite (grown_lookup_old _ _ _ _ Ho).
    + destruct (heap (grown ob s) !! o) as [oo|] eqn:Ho'; [|done].
      apply grown_lookup in Ho' as [Ho'|[_ ->]]; [congruence|]. by rewrite Hc.
Qed.

Lemma extends_say_abort op s x c : extends op s (say [Abort x c] s).
Proof.
  split.
  - intros i ob H. exists ob. split; [done|apply persists_refl].
  - by eexists.
  - intros o cb _. simpl trace. rewrite calls_app.
    change (calls o cb [Abort x c]) with 0. unfold delivered. simpl. lia.
Qed.

Lemma calls_single_other o cb x cb' c :
  OnCancel x cb' ≠ OnCancel o cb → calls o cb [Invoke x cb' c] = 0.
Proof.
  intros Hne. unfold calls. simpl.
  destruct (x =? o) eqn:E1; [|done]. simpl.
  destruct (bool_decide (cb' = cb)) eqn:E2; [|done].
  apply Nat.eqb_eq in E1. apply bool_decide_eq_true in E2. congruence.
Qed.

Lemma extends_say_invoke s x cb c :
  extends (OnCancel x cb) s (say [Invoke x cb c] s).
Proof.
  split.
  - intros i ob H. exists ob. split; [done|apply persists_refl].
  - by eexists.
  - intros o cb' Hop. simpl trace. rewrite calls_app.
    rewrite calls_single_other by done. unfold delivered. simpl. lia.
Qed.

(** ** Each operation keeps the invariants *)

Lemma link_obj_Some v pob pob' :
  link_obj v pob = Some pob' →
  ∃ w, pob' = set_children (Data w (Some v)) pob
       ∧ ((∃ u, children pob = Data true u) → w = true).
Proof.
  unfold link_obj. destruct (children pob) as [|[] cur] eqn:Hc.
  - intros [= <-]. exists false. split; [done|]. by intros [u [=]].
  - intros [= <-]. by exists true.
  - destruct (decide (cur = Some v)) as [->|]; [|done].
    intros [= <-]. exists false. split; [|by intros [u [=]]].
    destruct pob; simpl in *; by subst.
Qed.

Lemma link_obj_cancelable v pob :
  obj_ok pob → cls pob ≠ KContext →
  link_obj v pob = Some (set_children (Data true (Some v)) pob).
Proof.
  intros Hok Hk. destruct (ok_children _ Hok Hk) as [u Hu].
  unfold link_obj. by rewrite Hu.
Qed.

Lemma wf_linked K s p pob v oc w :
  wf K s → heap s !! p = Some pob → p < v → heap s !! v = Some oc →
  callable oc → (cls pob ≠ KContext → w = true) →
  wf K (put p (set_children (Data w (Some v)) pob) s).
Proof.
  intros Hwf Hp Hlt Hv Hcal Hw.
  eapply wf_put; try done.
  - apply obj_ok_set_children; [by eapply (wf_obj _ _ Hwf)|].
    intros Hk. rewrite (Hw Hk). by eexists.
  - intros w' c [= -> ->]. split; [done|]. by exists oc.
  - intros t tm _ _ _ []. by split.
Qed.

Lemma extends_linked op s p pob v :
  heap s !! p = Some pob → extends op s (put p (set_children v pob) s).
Proof. intros Hp. by eapply extends_put. Qed.

Lemma new_Context_sound op p K s :
  wf K s →
  op_post op s (K ++ [length (heap s)]) (grown (set_parent p (blank KContext)) s).
Proof.
  intros Hwf. split.
  - eapply wf_known_add; [|apply grown_lookup_new|done].
    apply wf_grown; [done|apply obj_ok_context|done].
  - by apply extends_grown.
Qed.

Lemma new_CancelableContext_sound op K s p :
  wf K s → p ∈ K →
  ∃ s', new_CancelableContext p s = Ret (length (heap s)) s'
        ∧ op_post op s (K ++ [length (heap s)]) s'.
Proof.
  intros Hwf Hin.
  destruct (wf_known _ _ Hwf p Hin) as (pob & Hp & Hu).
  pose proof (wf_obj _ _ Hwf _ _ Hp) as Hok.
  pose proof (lookup_lt_Some _ _ _ Hp) as Hlt.
  rewrite (new_CancelableContext_eq _ _ _ Hp). cbv zeta.
  set (this := length (heap s)).
  set (s1 := grown (fresh KCancelableContext p) s).
  assert (wf K s1) as Hwf1 by (apply wf_grown; [done|apply obj_ok_fresh|done]).
  assert (extends op s s1) as He1 by (by apply extends_grown).
  assert (heap s1 !! this = Some (fresh KCancelableContext p)) as Hthis
    by apply grown_lookup_new.
  assert (heap s1 !! p = Some pob) as Hp1 by (by apply grown_lookup_old).
  assert (cls pob ≠ KContext →
          ∃ s', (if canceled pob then
                   match cause pob with
                   | Some x => Ret this (marked this (fresh KCancelableContext p) x s1)
                   | None => Wrong
                   end
                 else
                   match link_obj this pob with
                   | Some pob' => Ret this (put p pob' s1)
                   | None => Throw TypeError s1
                   end) = Ret this s'
                ∧ op_post op s (K ++ [this]) s') as Hcase.
  { intros Hk. destruct (canceled pob) eqn:Hc.
    - destruct (cause pob) as [x|] eqn:Hx; [|by destruct (ok_cause _ Hok Hc)].
      eexists. split; [done|]. split.
      + eapply wf_known_add; [|by eapply marked_lookup_eq|done].
        apply wf_marked; try done.
      + eapply extends_trans; [exact He1|].
        by apply advances_extends, advances_marked.
    - rewrite (link_obj_cancelable _ _ Hok Hk).
      eexists. split; [done|]. split.
      + eapply wf_known_add; [|by rewrite put_lookup_ne by lia|done].
        apply (wf_linked K s1 p pob this (fresh KCancelableContext p) true Hwf1 Hp1);
          [subst this; lia|exact Hthis|by split|done].
      + eapply extends_trans; [exact He1|by apply extends_linked]. }
  destruct (cls pob) eqn:Hk; [|by apply Hcase|by apply Hcase].
  eexists. split; [done|]. split; try done.
  eapply wf_known_add; [done|exact Hthis|done].
Qed.

Lemma new_DeadlineContext_sound op K s p ms :
  wf K s → p ∈ K →
  (∃ s', new_DeadlineContext p ms s = Ret (length (heap s)) s'
         ∧ op_post op s (K ++ [length (heap s)]) s')
  ∨ (∃ s', new_DeadlineContext p ms s = Throw TypeError s' ∧ op_post op s K s').
Proof.
  intros Hwf Hin.
  destruct (wf_known _ _ Hwf p Hin) as (pob & Hp & Hu).
  pose proof (wf_obj _ _ Hwf _ _ Hp) as Hok.
  pose proof (lookup_lt_Some _ _ _ Hp) as Hlt.
  rewrite (new_DeadlineContext_eq _ _ _ _ Hp). cbv zeta.
  set (this := length (heap s)).
  set (ao := armed_obj p (length (timers s))).
  set (s2 := scheduled this ms (grown ao s)).
  assert (heap s2 !! this = Some ao) as Hthis by apply grown_lookup_new.
  assert (heap s2 !! p = Some pob) as Hp2 by (by apply grown_lookup_old).
  assert (callable ao) as Hcal by (by split).
  assert (wf K s2) as Hwf2.
  { eapply wf_scheduled; [|apply grown_lookup_new|apply armed_armed_obj].
    apply wf_grown; [done|apply obj_ok_armed|done]. }
  assert (extends op s s2) as He2.
  { eapply extends_trans; [by apply (extends_grown op s ao)|by apply extends_host]. }
  (* the scope is linked below its parent and handed out *)
  assert (∀ s3 pob', heap s3 = heap s2 → trace s3 = trace s2 → wf K s3 →
            link_obj this pob = Some pob' →
            op_post op s (K ++ [this]) (put p pob' s3)) as Hlink.
  { intros s3 pob' Hh Ht Hwf3 Hl.
    destruct (link_obj_Some _ _ _ Hl) as (w & -> & Hw).
    assert (heap s3 !! p = Some pob) as Hp3 by (by rewrite Hh).
    split.
    - eapply wf_known_add; [|by rewrite put_lookup_ne, Hh by lia|done].
      apply (wf_linked K s3 p pob this ao w Hwf3 Hp3);
        [subst this; lia|by rewrite Hh|done|].
      intros Hk. apply Hw. by apply (ok_children _ Hok).
    - eapply extends_trans; [exact He2|].
      eapply extends_trans; [by apply (extends_host op s2 s3)|by apply extends_linked]. }
  (* the base constructor cancels the scope and throws *)
  assert (canceled pob = true → cls pob ≠ KContext →
          ∃ s', match cause pob with
                | Some x => Throw TypeError
                              (marked this (stillborn p) x (grown (stillborn p) s))
                | None => Wrong
                end = (Throw TypeError s' : Res nat) ∧ op_post op s K s') as Hdead.
  { intros Hc Hk.
    destruct (cause pob) as [x|] eqn:Hx; [|by destruct (ok_cause _ Hok Hc)].
    eexists. split; [done|]. split.
    - apply wf_marked; [|apply grown_lookup_new|done].
      apply wf_grown; [done|apply obj_ok_stillborn|done].
    - eapply extends_trans; [by apply (extends_grown op s (stillborn p))|].
      apply advances_extends, advances_marked; [apply grown_lookup_new|done|done]. }
  destruct (cls pob) eqn:Hk.
  - destruct (link_obj this pob) as [pob'|] eqn:Hl.
    + left. eexists. split; [done|]. by apply Hlink.
    + right. eexists. split; [done|]. by split.
  - destruct (canceled pob) eqn:Hc; [right; by apply Hdead|].
    left. rewrite (link_obj_cancelable _ _ Hok) by congruence.
    eexists. split; [done|].
    apply Hlink; [done|done|done|apply link_obj_cancelable; [done|congruence]].
  - destruct (canceled pob) eqn:Hc; [right; by apply Hdead|].
    left. rewrite (link_obj_cancelable _ _ Hok) by congruence.
    eexists. split; [done|].
    apply Hlink; [done|done| |apply link_obj_cancelable; [done|congruence]].
    by apply (wf_parked K s2 p this ao).
Qed.

Lemma is_cancelable_callable K s o :
  wf K s → o ∈ K → is_cancelable s o = true →
  ∃ ob, heap s !! o = Some ob ∧ callable ob.
Proof.
  intros Hwf Hin Hc. destruct (wf_known _ _ Hwf o Hin) as (ob & Ho & Hu).
  exists ob. split; [done|]. unfold is_cancelable in Hc. rewrite Ho in Hc.
  split; [|done]. by destruct (cls ob).
Qed.

Lemma invoke_cancel_op op K s x ob c :
  wf K s → heap s !! x = Some ob → callable ob →
  ∃ s', ends (invoke_cancel x c s) s'
        ∧ op_post op s K s' ∧ cancel_post K s x c s'.
Proof.
  intros Hwf Hx Hcal.
  destruct (invoke_cancel_sound K s x ob c Hwf Hx Hcal) as (s' & Hs' & Hpost).
  exists s'. split; [done|]. split; [|done]. split.
  - by destruct Hpost.
  - apply advances_extends. by destruct Hpost.
Qed.

Lemma onCancel_sound K s o cb :
  wf K s → o ∈ K → is_cancelable s o = true →
  ∃ s', ends (onCancel o cb s) s' ∧ op_post (OnCancel o cb) s K s'.
Proof.
  intros Hwf Hin Hc.
  destruct (is_cancelable_callable _ _ _ Hwf Hin Hc) as (ob & Ho & Hcal).
  pose proof (wf_obj _ _ Hwf _ _ Ho) as Hok.
  destruct (canceled ob) eqn:Hcan.
  - destruct (cause ob) as [c|] eqn:Hx; [|by destruct (ok_cause _ Hok Hcan)].
    rewrite (onCancel_dead _ _ _ _ _ Ho Hcan Hx).
    exists (say [Invoke o cb c] s).
    split; [destruct cb as [k|k]; [left; by exists tt|right; by exists k]|]. split.
    + apply wf_say; [done|]. intros o' cb' c' Hin'.
      apply list_elem_of_singleton in Hin' as [= -> -> ->]. eauto.
    + apply extends_say_invoke.
  - rewrite (onCancel_live _ _ _ _ Ho Hcan).
    eexists. split; [left; by exists tt|]. split.
    + eapply wf_put; try done.
      * by apply obj_ok_set_cancelCallback.
      * exact (wf_link _ _ Hwf _ _ Ho).
      * intros t tm _ _ _ []. by split.
    + eapply extends_put; try done; [|congruence]. split; try done.
      intros [H|H]; [congruence|]. by destruct (H cb).
Qed.

Lemma fire_sound op K s t :
  wf K s → is_pending s t = true →
  ∃ s', fire t s = Ret tt s' ∧ op_post op s K s'.
Proof.
  intros Hwf Hp. unfold is_pending in Hp. unfold fire.
  destruct (timers s !! t) as [tm|] eqn:Htm; [|done].
  destruct (status tm) eqn:Hst; try done.
  destruct (wf_timer _ _ Hwf t tm Htm Hst) as (ob & Ho & Ha).
  set (s1 := upd_timers _ s).
  assert (heap s1 !! target tm = Some ob) as Ho1 by done.
  rewrite (DeadlineContext_finish_eq _ _ _ Ho1 (armed_resolver _ _ Ha)).
  eexists. split; [done|].
  pose proof (wf_fired K s t tm Hwf Htm) as Hwf1. fold s1 in Hwf1.
  pose proof (wf_obj _ _ Hwf _ _ Ho) as Hok.
  destruct Ha as [A1 A2 A3 A4 A5 A6].
  assert (expire_obj ob
          = mkObj (cls ob) (parent ob) (canceled ob) (Some deadline_cause)
                  (cancelCallback ob) (Some (default deadline_cause (controller ob)))
                  (children ob) (timeoutId ob) (doneResolve ob) (Some deadline_cause))
    as Hexp by (unfold expire_obj, resolve_obj; simpl; by rewrite A5).
  split.
  - apply (wf_say K (put (target tm) (expire_obj ob) s1)); [|by intros ? ? ? [=]%list_elem_of_singleton].
    eapply wf_put; try done.
    + by apply (obj_ok_expire t).
    + by rewrite Hexp.
    + by rewrite Hexp.
    + rewrite Hexp. exact (wf_link _ _ Hwf _ _ Ho).
    + by rewrite Hexp.
    + intros t' tm'. unfold s1. simpl.
      intros [(-> & <- & _)|(Hne & H)]%list_lookup_insert_Some Hp' Htg [_ _ _ _ _ Hid]; [done|].
      congruence.
  - eapply extends_trans; [by apply (extends_host op s s1)|].
    eapply extends_trans; [|apply extends_say_abort].
    eapply extends_put; try done; rewrite Hexp; try done.
    split; try done; simpl; congruence.
Qed.

Lemma resume_sound op K s w :
  wf K s → is_ready s w = true →
  ∃ s', ends (resume w s) s' ∧ op_post op s K s'.
Proof.
  intros Hwf Hr. unfold is_ready in Hr. unfold resume.
  destruct (waiters s !! w) as [tk|] eqn:Htk; [|done].
  apply andb_true_iff in Hr as [Hres Hful].
  apply negb_true_iff in Hres. rewrite Hres.
  destruct (wf_waiter _ _ Hwf w tk Htk Hres) as (_ & oc & Hoc & Hcal).
  unfold is_fulfilled in Hful.
  destruct (heap s !! awaited tk) as [pob|] eqn:Hp; [|done].
  destruct (_done pob) as [v|] eqn:Hd; [|done].
  pose proof (wf_obj _ _ Hwf _ _ Hp) as Hok.
  destruct (cause pob) as [x|] eqn:Hx; [|destruct (ok_done _ Hok); congruence].
  set (s1 := upd_waiters _ s).
  assert (heap s1 !! awaited tk = Some pob) as Hp1 by done.
  rewrite (bind_Ret _ _ _ _ _ (getCause_eq _ _ _ Hp1)), Hx.
  erewrite (bind_Ret (nonnull _)) by reflexivity.
  pose proof (wf_resumed K s w tk Hwf Htk) as Hwf1. fold s1 in Hwf1.
  destruct (invoke_cancel_op op K s1 (waiting tk) oc x Hwf1) as (s' & Hs' & Hpost & _);
    try done.
  exists s'. split; [done|]. destruct Hpost as [P1 P2]. split; try done.
  eapply extends_trans; [by apply (extends_host op s s1)|done].
Qed.

(** ** Histories *)

Lemma inv_start : inv start.
Proof. apply wf_boot. Qed.

Lemma holds_known cfg o : holds cfg o = true → o ∈ known cfg.
Proof. unfold holds. by intros ?%bool_decide_eq_true. Qed.

(** An enabled operation on a good configuration happens, and leaves a
    good configuration. *)
Lemma exec_ends (m : M unit) s s' K :
  ends (m s) s' →
  match (m;; ret None) s with
  | Ret (Some r) s' => Some (mkConfig s' (K ++ [r]))
  | Ret None s' => Some (mkConfig s' K)
  | Throw _ s' => Some (mkConfig s' K)
  | Wrong => None
  end = Some (mkConfig s' K).
Proof. intros [[a H]|[k H]]; unfold bind; by rewrite H. Qed.

Lemma exec_sound op cfg :
  inv cfg → enabled op cfg = true →
  ∃ cfg', exec op cfg = Some cfg' ∧ inv cfg'
          ∧ extends op (st cfg) (st cfg')
          ∧ (∀ k, k ∈ known cfg → k ∈ known cfg').
Proof.
  intros Hwf Hen. unfold exec. rewrite Hen.
  destruct cfg as [s K]. unfold inv in *. simpl in *.
  assert (∀ p, op_post op s (K ++ [length (heap s)])
                 (grown (set_parent p (blank KContext)) s) →
          ∃ cfg', match (let! r := new_Context p in ret (Some r)) s with
                  | Ret (Some r) s' => Some (mkConfig s' (K ++ [r]))
                  | Ret None s' => Some (mkConfig s' K)
                  | Throw _ s' => Some (mkConfig s' K)
                  | Wrong => None
                  end = Some cfg' ∧ wf (known cfg') (st cfg')
                  ∧ extends op s (st cfg') ∧ (∀ k, k ∈ K → k ∈ known cfg')) as Hctx.
  { intros p [P1 P2]. rewrite (bind_Ret _ _ _ _ _ (new_Context_eq p s)).
    eexists. split; [done|]. split; [done|]. split; [done|].
    intros k Hk. simpl. apply elem_of_app. by left. }
  destruct op as [| |[p|]|p|p ms|o c|o cb|t|w]; simpl in Hen |- *.
  - apply Hctx. by apply new_Context_sound.
  - apply Hctx. by apply new_Context_sound.
  - apply Hctx. by apply new_Context_sound.
  - apply Hctx. by apply new_Context_sound.
  - apply holds_known in Hen. simpl in Hen.
    destruct (new_CancelableContext_sound (NewCancelable p) K s p Hwf Hen)
      as (s' & Hs' & [P1 P2]).
    rewrite (bind_Ret _ _ _ _ _ Hs').
    eexists. split; [done|]. split; [done|]. split; [done|].
    intros k Hk. simpl. apply elem_of_app. by left.
  - apply holds_known in Hen. simpl in Hen.
    destruct (new_DeadlineContext_sound (NewDeadline p ms) K s p ms Hwf Hen)
      as [(s' & Hs' & [P1 P2])|(s' & Hs' & [P1 P2])].
    + rewrite (bind_Ret _ _ _ _ _ Hs').
      eexists. split; [done|]. split; [done|]. split; [done|].
      intros k Hk. simpl. apply elem_of_app. by left.
    + unfold bind. rewrite Hs'.
      eexists. split; [done|]. by split.
  - apply andb_true_iff in Hen as [Hin Hc]. apply holds_known in Hin. simpl in Hin.
    destruct (is_cancelable_callable _ _ _ Hwf Hin Hc) as (ob & Ho & Hcal).
    destruct (invoke_cancel_op (Cancel o c) K s o ob (default default_cause c) Hwf Ho Hcal)
      as (s' & Hs' & [P1 P2] & _).
    unfold cancel. rewrite (exec_ends _ _ _ K Hs').
    eexists. split; [done|]. by split.
  - apply andb_true_iff in Hen as [Hin Hc]. apply holds_known in Hin. simpl in Hin.
    destruct (onCancel_sound K s o cb Hwf Hin Hc) as (s' & Hs' & [P1 P2]).
    rewrite (exec_ends _ _ _ K Hs').
    eexists. split; [done|]. by split.
  - destruct (fire_sound (TimerFires t) K s t Hwf Hen) as (s' & Hs' & [P1 P2]).
    rewrite (bind_Ret _ _ _ _ _ Hs').
    eexists. split; [done|]. by split.
  - destruct (resume_sound (Resumes w) K s w Hwf Hen) as (s' & Hs' & [P1 P2]).
    rewrite (exec_ends _ _ _ K Hs').
    eexists. split; [done|]. by split.
Qed.

Lemma exec_enabled op cfg cfg' : exec op cfg = Some cfg' → enabled op cfg = true.
Proof. unfold exec. by destruct (enabled op cfg). Qed.

Lemma exec_inv op cfg cfg' :
  inv cfg → exec op cfg = Some cfg' →
  inv cfg' ∧ extends op (st cfg) (st cfg') ∧ (∀ k, k ∈ known cfg → k ∈ known cfg').
Proof.
  intros Hinv He.
  destruct (exec_sound op cfg Hinv (exec_enabled _ _ _ He)) as (cfg'' & He' & H).
  assert (cfg'' = cfg') as -> by congruence. done.
Qed.

Lemma run_inv ops cfg cfg' : inv cfg → run ops cfg = Some cfg' → inv cfg'.
Proof.
  revert cfg. induction ops as [|op ops IH]; intros cfg Hinv; simpl.
  - by intros [= <-].
  - destruct (exec op cfg) as [cfg1|] eqn:He; [|done].
    apply IH. by destruct (exec_inv _ _ _ Hinv He).
Qed.

Lemma reachable_inv ops cfg : run ops start = Some cfg → inv cfg.
Proof. apply run_inv, inv_start. Qed.

(** ** More fuel changes nothing *)

Lemma cancel_fuel_dangling n x c s : heap s !! x = None → cancel_fuel n x c s = Wrong.
Proof.
  intros H. destruct n; [done|]. simpl. unfold bind, read. by rewrite H.
Qed.

Lemma cancel_fuel_mono n :
  ∀ m x c s, n ≤ m → cancel_fuel n x c s ≠ Wrong →
             cancel_fuel m x c s = cancel_fuel n x c s.
Proof.
  induction n as [|n IH]; intros m x c s Hle Hok; [done|].
  destruct m as [|m]; [lia|].
  destruct (heap s !! x) as [ob|] eqn:Hx;
    [|by rewrite cancel_fuel_dangling in Hok].
  assert (∀ s1, cascade (cancel_fuel n) ob c s1 ≠ Wrong →
                cascade (cancel_fuel m) ob c s1 = cascade (cancel_fuel n) ob c s1)
    as Hcas.
  { intros s1. unfold cascade. destruct (children ob) as [|w [ch|]]; try done.
    apply IH. lia. }
  destruct (cls ob) eqn:Hk.
  - by rewrite (cancel_fuel_KContext n _ _ _ _ Hx Hk),
               (cancel_fuel_KContext m _ _ _ _ Hx Hk).
  - rewrite (cancel_fuel_KCancelable n _ _ _ _ Hx Hk) in Hok.
    rewrite (cancel_fuel_KCancelable n _ _ _ _ Hx Hk),
            (cancel_fuel_KCancelable m _ _ _ _ Hx Hk).
    destruct (canceled ob); [done|].
    destruct (thrower (cancelCallback ob)); [done|]. by apply Hcas.
  - rewrite (cancel_fuel_KDeadline n _ _ _ _ Hx Hk) in Hok.
    rewrite (cancel_fuel_KDeadline n _ _ _ _ Hx Hk),
            (cancel_fuel_KDeadline m _ _ _ _ Hx Hk).
    destruct (canceled ob); [done|].
    destruct (thrower (cancelCallback ob)); [done|].
    unfold bind in Hok |- *. rewrite Hcas; [done|].
    intros Hw. by rewrite Hw in Hok.
Qed.

Lemma invoke_cancel_fuel K n x ob c s :
  wf K s → heap s !! x = Some ob → callable ob →
  length (heap s) - x ≤ n →
  cancel_fuel n x c s = invoke_cancel x c s.
Proof.
  intros Hwf Hx Hcal Hle. unfold invoke_cancel.
  apply cancel_fuel_mono; [done|].
  destruct (cancel_fuel_sound (length (heap s) - x) K s x ob c Hwf Hx Hcal)
    as (s' & [[a Hs']|[k Hs']] & _); [done|by rewrite Hs'|by rewrite Hs'].
Qed.



(** * One level of a cancellation *)

Lemma bind_ret_tt (m : M unit) s : (m;; ret tt) s = m s.
Proof. unfold bind, ret. by destruct (m s) as [[] ?| |]. Qed.

Lemma ends_Ret {A} (a : A) s s' : ends (Ret a s) s' → s' = s.
Proof. by intros [[a' [= -> ->]]|[k [=]]]. Qed.

Lemma ends_Throw {A} e s s' : ends (Throw e s : Res A) s' → s' = s.
Proof. by intros [[a' [=]]|[k [= -> ->]]]. Qed.

Lemma ends_cases {A} (r : Res A) s' :
  ends r s' → (∃ a, r = Ret a s') ∨ (∃ k, r = Throw (Raised k) s').
Proof. done. Qed.

Lemma cleared_null x ob s :
  heap s !! x = Some ob → timeoutId ob = Null → cleared x ob s = s.
Proof.
  intros Hx Ht. unfold cleared. rewrite Ht. apply put_same.
  rewrite Hx. f_equal. destruct ob; simpl in *; by subst.
Qed.

Lemma resolve_obj_fulfilled c ob : _done ob ≠ None → resolve_obj c ob = ob.
Proof. unfold resolve_obj. by destruct (_done ob). Qed.

(** ** The states a cancellation goes through *)

Lemma cancel_obj_fields c ob :
  cls (cancel_obj c ob) = cls ob ∧ parent (cancel_obj c ob) = parent ob
  ∧ canceled (cancel_obj c ob) = true ∧ cause (cancel_obj c ob) = Some c
  ∧ cancelCallback (cancel_obj c ob) = cancelCallback ob
  ∧ controller (cancel_obj c ob) = Some (default c (controller ob))
  ∧ children (cancel_obj c ob) = children ob
  ∧ doneResolve (cancel_obj c ob) = doneResolve ob
  ∧ _done (cancel_obj c ob) = _done ob.
Proof. unfold cancel_obj. destruct (cls ob) eqn:E; simpl; by rewrite ?E. Qed.

Lemma stop_obj_fields c ob :
  cls (stop_obj c ob) = cls ob ∧ parent (stop_obj c ob) = parent ob
  ∧ canceled (stop_obj c ob) = true ∧ cause (stop_obj c ob) = Some c
  ∧ cancelCallback (stop_obj c ob) = cancelCallback ob
  ∧ controller (stop_obj c ob) = controller ob
  ∧ children (stop_obj c ob) = children ob
  ∧ doneResolve (stop_obj c ob) = doneResolve ob
  ∧ _done (stop_obj c ob) = _done ob.
Proof. unfold stop_obj. destruct (cls ob) eqn:E; simpl; by rewrite ?E. Qed.

Lemma entered_heap x ob c s :
  heap s !! x = Some ob → heap (entered x ob c s) = <[x := cancel_obj c ob]> (heap s).
Proof.
  intros Hx. unfold entered, cancel_obj, marked, cleared.
  destruct (cls ob); simpl; try done.
  rewrite list_insert_insert_eq. by destruct (timeoutId ob).
Qed.

Lemma stopped_heap x ob c s :
  heap s !! x = Some ob → heap (stopped x ob c s) = <[x := stop_obj c ob]> (heap s).
Proof.
  intros Hx. unfold stopped, stop_obj, struck, cleared.
  destruct (cls ob); simpl; try done.
  rewrite list_insert_insert_eq. by destruct (timeoutId ob).
Qed.

Lemma entered_trace x ob c s :
  trace (entered x ob c s) = trace s ++ notify x c (cancelCallback ob) ++ [Abort x c].
Proof. unfold entered, marked, cleared. destruct (cls ob), (timeoutId ob); done. Qed.

Lemma stopped_trace x ob c s :
  trace (stopped x ob c s) = trace s ++ notify x c (reached (cancelCallback ob)).
Proof. unfold stopped, struck, cleared. destruct (cls ob), (timeoutId ob); done. Qed.

Lemma entered_timers x ob c s :
  timers (entered x ob c s)
  = match cls ob, timeoutId ob with
    | KDeadlineContext, Val t => disarm t (timers s)
    | _, _ => timers s
    end.
Proof. unfold entered, marked, cleared. destruct (cls ob), (timeoutId ob); done. Qed.

Lemma stopped_timers x ob c s : timers (stopped x ob c s) = timers (entered x ob c s).
Proof.
  unfold stopped, entered, struck, marked, cleared.
  destruct (cls ob), (timeoutId ob); done.
Qed.

Lemma entered_waiters x ob c s : waiters (entered x ob c s) = waiters s.
Proof. unfold entered, marked, cleared. destruct (cls ob), (timeoutId ob); done. Qed.

Lemma stopped_waiters x ob c s : waiters (stopped x ob c s) = waiters s.
Proof. unfold stopped, struck, cleared. destruct (cls ob), (timeoutId ob); done. Qed.

Lemma entered_lookup_eq x ob c s :
  heap s !! x = Some ob → heap (entered x ob c s) !! x = Some (cancel_obj c ob).
Proof.
  intros Hx. rewrite (entered_heap _ _ _ _ Hx).
  apply list_lookup_insert_eq. by eapply lookup_lt_Some.
Qed.

Lemma entered_lookup_ne x y ob c s :
  x ≠ y → heap (entered x ob c s) !! y = heap s !! y.
Proof.
  intros Hne. unfold entered.
  destruct (cls ob); rewrite marked_lookup_ne by done; try done.
  by rewrite cleared_lookup_ne.
Qed.

Lemma stopped_lookup_eq x ob c s :
  heap s !! x = Some ob → heap (stopped x ob c s) !! x = Some (stop_obj c ob).
Proof.
  intros Hx. rewrite (stopped_heap _ _ _ _ Hx).
  apply list_lookup_insert_eq. by eapply lookup_lt_Some.
Qed.

Lemma stopped_lookup_ne x y ob c s :
  x ≠ y → heap (stopped x ob c s) !! y = heap s !! y.
Proof.
  intros Hne. unfold stopped.
  destruct (cls ob); rewrite struck_lookup_ne by done; try done.
  by rewrite cleared_lookup_ne.
Qed.

Lemma entered_length x ob c s :
  heap s !! x = Some ob → length (heap (entered x ob c s)) = length (heap s).
Proof. intros Hx. by rewrite (entered_heap _ _ _ _ Hx), length_insert. Qed.

Lemma wf_entered K s x ob c :
  wf K s → heap s !! x = Some ob → wf K (entered x ob c s).
Proof.
  intros Hwf Hx. unfold entered. destruct (cls ob) eqn:Hk.
  - apply wf_marked; [done|done|congruence].
  - apply wf_marked; [done|done|congruence].
  - apply wf_marked; [by apply wf_cleared|by apply cleared_lookup_eq|done].
Qed.

Lemma wf_stopped K s x ob c :
  wf K s → heap s !! x = Some ob → wf K (stopped x ob c s).
Proof.
  intros Hwf Hx. unfold stopped. destruct (cls ob) eqn:Hk.
  - apply wf_struck; [done|done|congruence].
  - apply wf_struck; [done|done|congruence].
  - apply wf_struck; [by apply wf_cleared|by apply cleared_lookup_eq|done].
Qed.

(** ** What [cancel] computes, one level at a time *)

(** On a live scope: when a listener throws, [cancel] throws in the state
    [stopped]; otherwise the scope is [entered], the child is cancelled,
    and a deadline scope calls its resolver. *)
Lemma cancel_fuel_live n x c ob s :
  heap s !! x = Some ob → cls ob ≠ KContext → canceled ob = false →
  cancel_fuel (S n) x c s
  = match thrower (cancelCallback ob) with
    | Some k => Throw (Raised k) (stopped x ob c s)
    | None => (cascade (cancel_fuel n) ob c;; settle x ob c) (entered x ob c s)
    end.
Proof.
  intros Hx Hk Hc. unfold entered, stopped, settle.
  destruct (cls ob) eqn:Hcls; [done| |].
  - rewrite (cancel_fuel_KCancelable _ _ _ _ _ Hx Hcls), Hc.
    destruct (thrower (cancelCallback ob)); [done|]. by rewrite bind_ret_tt.
  - by rewrite (cancel_fuel_KDeadline _ _ _ _ _ Hx Hcls), Hc.
Qed.

(** On a cancelled scope: nothing, except that a deadline scope calls its
    resolver again. *)
Lemma cancel_fuel_dead n K x c ob s :
  wf K s → heap s !! x = Some ob → callable ob → canceled ob = true →
  cancel_fuel (S n) x c s = Ret tt (settled x ob c s).
Proof.
  intros Hwf Hx [Hk Hres] Hc. unfold settled.
  destruct (cls ob) eqn:Hcls; [done| |].
  - by rewrite (cancel_fuel_KCancelable _ _ _ _ _ Hx Hcls), Hc.
  - rewrite (cancel_fuel_KDeadline _ _ _ _ _ Hx Hcls), Hc.
    rewrite cleared_null; [|done|by apply (ok_timeout _ (wf_obj _ _ Hwf _ _ Hx))].
    by rewrite (call_doneResolve_eq _ _ _ _ Hx) by (by apply Hres).
Qed.

Lemma settled_fulfilled x ob c s :
  heap s !! x = Some ob → (cls ob = KDeadlineContext → _done ob ≠ None) →
  settled x ob c s = s.
Proof.
  intros Hx Hd. unfold settled. destruct (cls ob); try done.
  rewrite resolve_obj_fulfilled by (by apply Hd). by apply put_same.
Qed.

Lemma settle_eq x ob ob' c s :
  heap s !! x = Some ob' → cls ob' = cls ob →
  (cls ob = KDeadlineContext → doneResolve ob' = true) →
  settle x ob c s = Ret tt (settled x ob' c s).
Proof.
  intros Hx Hk Hr. unfold settle, settled. rewrite Hk.
  destruct (cls ob); try done. by apply call_doneResolve_eq, Hr.
Qed.

(** A cancellation leaves alone what was allocated before its target. *)
Lemma cancel_fuel_below n :
  ∀ K s x ob c s',
    wf K s → heap s !! x = Some ob → callable ob →
    ends (cancel_fuel n x c s) s' →
    ∀ i, i < x → heap s' !! i = heap s !! i.
Proof.
  induction n as [|n IH]; intros K s x ob c s' Hwf Hx Hcal Hrun i Hi.
  { by destruct Hrun as [[a [=]]|[k [=]]]. }
  pose proof (wf_obj _ _ Hwf _ _ Hx) as Hok.
  pose proof Hcal as [Hk Hres].
  destruct (canceled ob) eqn:Hc.
  - rewrite (cancel_fuel_dead n K x c ob s Hwf Hx Hcal Hc) in Hrun.
    apply ends_Ret in Hrun as ->. unfold settled.
    destruct (cls ob); try done. apply put_lookup_ne. lia.
  - rewrite (cancel_fuel_live _ _ _ _ _ Hx Hk Hc) in Hrun.
    destruct (thrower (cancelCallback ob)) as [k|].
    { apply ends_Throw in Hrun as ->. apply stopped_lookup_ne. lia. }
    pose proof (wf_entered K s x ob c Hwf Hx) as Hwf1.
    set (s1 := entered x ob c s) in *.
    assert (∀ s2, ends (cascade (cancel_fuel n) ob c s1) s2 →
                  heap s2 !! i = heap s !! i) as Hcas.
    { intros s2. unfold cascade.
      destruct (children ob) as [|w [ch|]] eqn:Hch.
      - by intros [[a [=]]|[k [=]]].
      - destruct (wf_link _ _ Hwf _ _ Hx _ _ Hch) as (Hlt & och & Hoch & Hcc).
        intros Hr. rewrite <- (entered_lookup_ne x i ob c s) by lia.
        eapply (IH K s1 ch och); try done; [|lia].
        unfold s1. rewrite entered_lookup_ne by lia. done.
      - intros ->%ends_Ret. apply entered_lookup_ne. lia. }
    unfold bind in Hrun.
    destruct (cascade (cancel_fuel n) ob c s1) as [[] s2|e s2|] eqn:Hs2.
    + assert (heap s2 !! i = heap s !! i) as Hi2 by (apply Hcas; left; by exists tt).
      unfold settle in Hrun. destruct (cls ob).
      * by apply ends_Ret in Hrun as ->.
      * by apply ends_Ret in Hrun as ->.
      * unfold call_doneResolve, bind, read in Hrun.
        destruct (heap s2 !! x) as [ob2|] eqn:Hx2;
          [|by destruct Hrun as [[a [=]]|[k [=]]]].
        destruct (doneResolve ob2); [|by destruct Hrun as [[a [=]]|[k [=]]]].
        unfold modify in Hrun. rewrite Hx2 in Hrun.
        apply ends_Ret in Hrun as ->.
        simpl. rewrite list_lookup_insert_ne by lia. done.
    + pose proof Hrun as ->%ends_Throw. apply Hcas.
      destruct Hrun as [[a [=]]|[k [= ->]]]. right. by exists k.
    + by destruct Hrun as [[a [=]]|[k [=]]].
Qed.

(** One level of an effective [cancel] whose listeners return, with the
    state [s2] in which the child's cancellation is over: if that threw,
    [cancel] throws the same in [s2]; otherwise a deadline scope fulfils
    its promise. *)
Lemma cancel_fuel_unfold n K s x ob c :
  wf K s → heap s !! x = Some ob → callable ob → canceled ob = false →
  thrower (cancelCallback ob) = None →
  length (heap s) - x ≤ S n →
  ∃ s2,
    wf K s2 ∧ heap s2 !! x = Some (cancel_obj c ob)
    ∧ advances (entered x ob c s) s2
    ∧ match children ob with
      | Data _ (Some ch) =>
          ∃ och, x < ch ∧ heap s !! ch = Some och ∧ callable och
                 ∧ ((cancel_fuel n ch c (entered x ob c s) = Ret tt s2
                     ∧ cancel_fuel (S n) x c s
                       = Ret tt (settled x (cancel_obj c ob) c s2))
                    ∨ ∃ k, cancel_fuel n ch c (entered x ob c s) = Throw (Raised k) s2
                           ∧ cancel_fuel (S n) x c s = Throw (Raised k) s2)
      | _ => s2 = entered x ob c s
             ∧ cancel_fuel (S n) x c s = Ret tt (settled x (cancel_obj c ob) c s2)
      end.
Proof.
  intros Hwf Hx Hcal Hc Hth Hn.
  pose proof (wf_obj _ _ Hwf _ _ Hx) as Hok.
  pose proof Hcal as [Hk Hres].
  rewrite (cancel_fuel_live _ _ _ _ _ Hx Hk Hc), Hth.
  pose proof (wf_entered K s x ob c Hwf Hx) as Hwf1.
  pose proof (entered_lookup_eq x ob c s Hx) as Hx1.
  set (s1 := entered x ob c s) in *.
  destruct (cancel_obj_fields c ob) as (E1 & E2 & E3 & E4 & E5 & E6 & E7 & E8 & E9).
  assert (∀ s2, heap s2 !! x = Some (cancel_obj c ob) →
                settle x ob c s2 = Ret tt (settled x (cancel_obj c ob) c s2)) as Hset.
  { intros s2 Hx2. apply settle_eq; [done|done|]. intros Hd. rewrite E8. by apply Hres. }
  destruct (ok_children _ Hok Hk) as [v Hv]. unfold cascade. rewrite Hv.
  destruct v as [ch|].
  - destruct (wf_link _ _ Hwf _ _ Hx _ _ Hv) as (Hlt & och & Hoch & Hcc).
    assert (heap s1 !! ch = Some och) as Hoch1
      by (unfold s1; rewrite entered_lookup_ne by lia; done).
    destruct (cancel_fuel_sound n K s1 ch och c Hwf1 Hoch1 Hcc)
      as (s2 & Hs2 & [P1 P2 _]).
    { unfold s1. rewrite (entered_length _ _ _ _ Hx). lia. }
    assert (heap s2 !! x = Some (cancel_obj c ob)) as Hx2.
    { rewrite (cancel_fuel_below n K s1 ch och c s2) by done. done. }
    exists s2. split; [done|]. split; [done|]. split; [done|].
    exists och. split; [done|]. split; [done|]. split; [done|].
    destruct Hs2 as [[[] Hs2]|[k Hs2]].
    + left. split; [done|]. rewrite (bind_Ret _ _ _ _ _ Hs2). by apply Hset.
    + right. exists k. split; [done|]. unfold bind. by rewrite Hs2.
  - exists s1. split; [done|]. split; [done|]. split; [apply advances_refl|].
    split; [done|]. erewrite bind_Ret by reflexivity. by apply Hset.
Qed.

(** The same for the call as a client or a constructor makes it. *)
Lemma invoke_cancel_dead K s o ob c :
  wf K s → heap s !! o = Some ob → callable ob → canceled ob = true →
  invoke_cancel o c s = Ret tt (settled o ob c s).
Proof.
  intros Hwf Ho Hcal Hc.
  pose proof (lookup_lt_Some _ _ _ Ho) as Hlt.
  unfold invoke_cancel.
  destruct (length (heap s) - o) as [|n] eqn:Hn; [lia|].
  by eapply cancel_fuel_dead.
Qed.

Lemma invoke_cancel_stopped s o ob c k :
  heap s !! o = Some ob → cls ob ≠ KContext → canceled ob = false →
  thrower (cancelCallback ob) = Some k →
  invoke_cancel o c s = Throw (Raised k) (stopped o ob c s).
Proof.
  intros Ho Hk Hc Hth.
  pose proof (lookup_lt_Some _ _ _ Ho) as Hlt.
  unfold invoke_cancel.
  destruct (length (heap s) - o) as [|n] eqn:Hn; [lia|].
  by rewrite (cancel_fuel_live _ _ _ _ _ Ho Hk Hc), Hth.
Qed.



(** * The properties of the specification *)

(** ** Cancellation *)

Lemma known_callable cfg o ob :
  inv cfg → o ∈ known cfg → heap (st cfg) !! o = Some ob → cls ob ≠ KContext →
  callable ob.
Proof.
  intros Hwf Hin Ho Hk. destruct (wf_known _ _ Hwf o Hin) as (ob' & Ho' & Hu).
  assert (ob' = ob) as -> by congruence. by split.
Qed.







(** The cancellation of a live scope whose listeners return, with the
    state [s2] in which the cancellation of the child is over. *)
Lemma invoke_cancel_unfold K s o ob c :
  wf K s → heap s !! o = Some ob → callable ob → canceled ob = false →
  thrower (cancelCallback ob) = None →
  ∃ s2,
    wf K s2 ∧ heap s2 !! o = Some (cancel_obj c ob)
    ∧ advances (entered o ob c s) s2
    ∧ match children ob with
      | Data _ (Some ch) =>
          ∃ och, o < ch ∧ heap s !! ch = Some och ∧ callable och
                 ∧ ((invoke_cancel ch c (entered o ob c s) = Ret tt s2
                     ∧ invoke_cancel o c s = Ret tt (settled o (cancel_obj c ob) c s2))
                    ∨ ∃ k, invoke_cancel ch c (entered o ob c s) = Throw (Raised k) s2
                           ∧ invoke_cancel o c s = Throw (Raised k) s2)
      | _ => s2 = entered o ob c s
             ∧ invoke_cancel o c s = Ret tt (settled o (cancel_obj c ob) c s2)
      end.
Proof.
  intros Hwf Ho Hcal Hc Hth.
  pose proof (lookup_lt_Some _ _ _ Ho) as Hlt.
  assert (∃ n, length (heap s) - o = S n) as [n Hn]
    by (exists (length (heap s) - o - 1); lia).
  assert (invoke_cancel o c s = cancel_fuel (S n) o c s) as ->
    by (unfold invoke_cancel; by rewrite Hn).
  destruct (cancel_fuel_unfold n K s o ob c Hwf Ho Hcal Hc Hth) as (s2 & H1 & H2 & H3 & H4);
    [lia|].
  exists s2. split; [done|]. split; [done|]. split; [done|].
  destruct (children ob) as [|w [ch|]]; try done.
  destruct H4 as (och & Hlt' & Hoch & Hcc & H4).
  exists och. split; [done|]. split; [done|]. split; [done|].
  rewrite <- (invoke_cancel_fuel K n ch och c (entered o ob c s)); try done.
  - by apply wf_entered.
  - by rewrite entered_lookup_ne by lia.
  - rewrite (entered_length _ _ _ _ Ho). lia.
Qed.




(** ** A second cancel *)

Lemma isCancelled_getCause x ob s :
  heap s !! x = Some ob →
  isCancelled x s = Ret (canceled ob) s ∧ getCause x s = Ret (cause ob) s.
Proof. intros H. by rewrite (isCancelled_eq _ _ _ H), (getCause_eq _ _ _ H). Qed.

Lemma settled_lookup_eq x ob c s :
  heap s !! x = Some ob →
  heap (settled x ob c s) !! x
  = Some (match cls ob with KDeadlineContext => resolve_obj c ob | _ => ob end).
Proof.
  intros Hx. unfold settled. destruct (cls ob); try done. by eapply put_lookup_eq.
Qed.

Lemma settled_state x ob c s :
  trace (settled x ob c s) = trace s ∧ timers (settled x ob c s) = timers s
  ∧ waiters (settled x ob c s) = waiters s
  ∧ ∀ i, i ≠ x → heap (settled x ob c s) !! i = heap s !! i.
Proof.
  unfold settled. destruct (cls ob); try done.
  do 3 (split; [done|]). intros i Hi. by apply put_lookup_ne.
Qed.





(** ** Listeners *)







(** ** Construction *)

(** C5. A cancelable scope built under a cancelled parent comes back
    cancelled with the parent's cause, and the parent is left as it was,
    with some other scope or none as its child; built under a live parent
    it comes back live, installed as the parent's child. *)
Theorem construct_under_parent ops cfg p pob :
  run ops start = Some cfg → p ∈ known cfg →
  heap (st cfg) !! p = Some pob → cls pob ≠ KContext →
  (∀ x, canceled pob = true → cause pob = Some x →
     ∃ s', new_CancelableContext p (st cfg) = Ret (length (heap (st cfg))) s'
           ∧ isCancelled (length (heap (st cfg))) s' = Ret true s'
           ∧ getCause (length (heap (st cfg))) s' = Ret (Some x) s'
           ∧ heap s' !! p = Some pob
           ∧ ∀ w, children pob ≠ Data w (Some (length (heap (st cfg)))))
  ∧ (canceled pob = false →
     ∃ s' pob', new_CancelableContext p (st cfg) = Ret (length (heap (st cfg))) s'
                ∧ heap s' !! p = Some pob'
                ∧ children pob' = Data true (Some (length (heap (st cfg))))
                ∧ isCancelled (length (heap (st cfg))) s' = Ret false s').
Proof.
  intros Hrun Hin Hp Hk.
  pose proof (reachable_inv _ _ Hrun) as Hwf. unfold inv in Hwf.
  pose proof (wf_obj _ _ Hwf _ _ Hp) as Hok.
  pose proof (lookup_lt_Some _ _ _ Hp) as Hlt.
  set (s := st cfg) in *. set (this := length (heap s)).
  set (fo := fresh KCancelableContext p).
  assert (new_CancelableContext p s
          = if canceled pob then
              match cause pob with
              | Some x => Ret this (marked this fo x (grown fo s))
              | None => Wrong
              end
            else Ret this (put p (set_children (Data true (Some this)) pob) (grown fo s)))
    as Hnew.
  { rewrite (new_CancelableContext_eq _ _ _ Hp). cbv zeta.
    rewrite (link_obj_cancelable _ _ Hok Hk). by destruct (cls pob). }
  rewrite Hnew. split.
  - intros x Hc Hx. rewrite Hc, Hx. eexists. split; [done|].
    assert (heap (marked this fo x (grown fo s)) !! this = Some (mark_obj x fo)) as Ht.
    { eapply marked_lookup_eq. apply grown_lookup_new. }
    split; [by rewrite (isCancelled_eq _ _ _ Ht)|].
    split; [by rewrite (getCause_eq _ _ _ Ht)|].
    split.
    + rewrite marked_lookup_ne by (subst this; lia). by apply grown_lookup_old.
    + intros w Hch. destruct (wf_link _ _ Hwf _ _ Hp _ _ Hch) as (_ & oc & Hoc & _).
      apply lookup_lt_Some in Hoc. subst this. lia.
  - intros Hc. rewrite Hc. eexists. eexists. split; [done|].
    split; [eapply put_lookup_eq; by apply grown_lookup_old|].
    split; [done|].
    assert (heap (put p (set_children (Data true (Some this)) pob) (grown fo s)) !! this
            = Some fo) as Ht.
    { rewrite put_lookup_ne by (subst this; lia). apply grown_lookup_new. }
    by rewrite (isCancelled_eq _ _ _ Ht).
Qed.

Lemma construct_under_parent_witness :
  run history_orphan start = Some orphan
  ∧ ∃ s', new_CancelableContext 1 (st orphan) = Ret 2 s'
          ∧ getCause 2 s' = Ret (Some "x"%string) s'.
Proof.
  split; [reflexivity|].
  destruct (construct_under_parent history_orphan orphan 1 orphan_parent)
    as (H & _); [reflexivity|known_scope|reflexivity|discriminate|].
  destruct (H "x"%string eq_refl eq_refl) as (s' & H1 & H2 & H3 & _).
  exists s'. auto.
Defined.

(** C6. Building a deadline scope under a cancelled cancelable parent
    throws: the base constructor calls the overridden [cancel], which
    reaches [this.doneResolve(cause)] before the subclass constructor has
    created the resolver. *)
Theorem deadline_under_canceled_parent ops cfg p pob ms :
  run ops start = Some cfg → p ∈ known cfg →
  heap (st cfg) !! p = Some pob → cls pob ≠ KContext → canceled pob = true →
  ∃ s', new_DeadlineContext p ms (st cfg) = Throw TypeError s'.
Proof.
  intros Hrun Hin Hp Hk Hc.
  pose proof (reachable_inv _ _ Hrun) as Hwf. unfold inv in Hwf.
  pose proof (wf_obj _ _ Hwf _ _ Hp) as Hok.
  rewrite (new_DeadlineContext_eq _ _ _ _ Hp). cbv zeta. rewrite Hc.
  destruct (cause pob) as [x|] eqn:Hx; [|by destruct (ok_cause _ Hok Hc)].
  destruct (cls pob); [done| |]; by eexists.
Qed.

Lemma deadline_under_canceled_parent_witness :
  run history_orphan start = Some orphan
  ∧ ∃ s', new_DeadlineContext 1 1000 (st orphan) = Throw TypeError s'.
Proof.
  split; [reflexivity|].
  apply (deadline_under_canceled_parent history_orphan orphan 1 orphan_parent);
    [reflexivity|known_scope|reflexivity|discriminate|reflexivity].
Defined.

(** ** Expiry *)

Lemma fire_eq K s t tm :
  wf K s → timers s !! t = Some tm → status tm = Pending →
  ∃ ob, heap s !! target tm = Some ob ∧ armed t ob
        ∧ fire t s = Ret tt (fired t tm ob s).
Proof.
  intros Hwf Htm Hst.
  destruct (wf_timer _ _ Hwf t tm Htm Hst) as (ob & Ho & Ha).
  exists ob. split; [done|]. split; [done|].
  unfold fire. rewrite Htm, Hst.
  by apply DeadlineContext_finish_eq, (armed_resolver _ _ Ha).
Qed.

Lemma expire_obj_armed t ob :
  armed t ob →
  expire_obj ob
  = mkObj (cls ob) (parent ob) false (Some deadline_cause) (cancelCallback ob)
          (Some (default deadline_cause (controller ob))) (children ob)
          (timeoutId ob) (doneResolve ob) (Some deadline_cause).
Proof.
  intros [A1 A2 A3 A4 A5 A6]. unfold expire_obj, resolve_obj. simpl.
  by rewrite A5, A3.
Qed.

(** The signal of a scope without a cause has not been aborted. *)
Lemma armed_signal t ob : obj_ok ob → armed t ob → controller ob = None.
Proof.
  intros Hok Ha. destruct (controller ob) as [r|] eqn:E; [|done].
  destruct (ok_signal _ Hok); [by rewrite E|apply (armed_cause _ _ Ha)].
Qed.

(** C7 fails as stated: after its timer expired, a deadline scope has the
    cause ["context deadline exceeded"] while [isCancelled()] is false. *)
Lemma cause_without_cancel :
  ¬ (∀ ops cfg o v b,
       run ops start = Some cfg → o ∈ known cfg →
       is_cancelable (st cfg) o = true →
       getCause o (st cfg) = Ret v (st cfg) →
       isCancelled o (st cfg) = Ret b (st cfg) →
       (v ≠ None ↔ b = true)).
Proof.
  intros H.
  assert (Some deadline_cause ≠ None ↔ false = true) as [H1 _].
  { apply (H history_expired after_expiry 1);
      [reflexivity|known_scope|reflexivity|reflexivity|reflexivity]. }
  by specialize (H1 ltac:(done)).
Qed.

(** C7, amended. In every reachable state a scope has a cause exactly if
    it is cancelled or is a deadline scope in the expired state; the two
    getters read [cause] and [canceled]. *)
Theorem cause_iff_canceled_or_expired ops cfg o ob :
  run ops start = Some cfg →
  heap (st cfg) !! o = Some ob → cls ob ≠ KContext →
  getCause o (st cfg) = Ret (cause ob) (st cfg)
  ∧ isCancelled o (st cfg) = Ret (canceled ob) (st cfg)
  ∧ (cause ob ≠ None ↔ canceled ob = true ∨ expired ob).
Proof.
  intros Hrun Ho Hk.
  pose proof (reachable_inv _ _ Hrun) as Hwf. unfold inv in Hwf.
  pose proof (wf_obj _ _ Hwf _ _ Ho) as [H1 H2 H3 H4 H5 H6].
  split; [by apply getCause_eq|]. split; [by apply isCancelled_eq|].
  split.
  - intros Hc. destruct (canceled ob) eqn:E; [by left|right].
    destruct (H6 Hc) as [?|(? & ? & ?)]; [done|]. by split.
  - intros [Hc|(_ & _ & Hc & _)]; [by apply H1|]. by rewrite Hc.
Qed.

Lemma cause_iff_canceled_or_expired_witness :
  run history_expired start = Some after_expiry
  ∧ (cause expired_scope ≠ None ↔
     canceled expired_scope = true ∨ expired expired_scope).
Proof.
  split; [reflexivity|].
  apply (cause_iff_canceled_or_expired history_expired after_expiry 1 expired_scope);
    [reflexivity|reflexivity|discriminate].
Defined.

(** C9. A timer that is still pending belongs to a scope that was never
    cancelled; when it expires the scope's cause becomes
    ["context deadline exceeded"], [controller.abort] is called with it and
    the signal takes it as reason, and the promise is fulfilled with it. *)
Theorem deadline_expiry ops cfg t tm :
  run ops start = Some cfg →
  timers (st cfg) !! t = Some tm → status tm = Pending →
  ∃ ob s' ob',
    heap (st cfg) !! target tm = Some ob
    ∧ cls ob = KDeadlineContext ∧ canceled ob = false ∧ cause ob = None
    ∧ fire t (st cfg) = Ret tt s'
    ∧ heap s' !! target tm = Some ob'
    ∧ cause ob' = Some "context deadline exceeded"%string
    ∧ controller ob' = Some "context deadline exceeded"%string
    ∧ _done ob' = Some "context deadline exceeded"%string
    ∧ trace s' = trace (st cfg)
                 ++ [Abort (target tm) "context deadline exceeded"%string]
    ∧ getCause (target tm) s' = Ret (Some "context deadline exceeded"%string) s'.
Proof.
  intros Hrun Htm Hst.
  pose proof (reachable_inv _ _ Hrun) as Hwf. unfold inv in Hwf.
  destruct (fire_eq _ _ _ _ Hwf Htm Hst) as (ob & Ho & Ha & Hf).
  pose proof (wf_obj _ _ Hwf _ _ Ho) as Hok.
  pose proof (expire_obj_armed _ _ Ha) as He.
  pose proof (armed_signal _ _ Hok Ha) as Hsig.
  assert (heap (fired t tm ob (st cfg)) !! target tm = Some (expire_obj ob)) as Ho'
    by (by eapply put_lookup_eq).
  exists ob, (fired t tm ob (st cfg)), (expire_obj ob).
  destruct Ha as [A1 A2 A3 A4 A5 A6].
  split; [done|]. split; [done|]. split; [done|]. split; [done|].
  split; [done|]. split; [done|].
  split; [by rewrite He|]. split.
  { rewrite He. simpl. by rewrite Hsig. }
  split; [by rewrite He|]. split; [done|].
  rewrite (getCause_eq _ _ _ Ho'). by rewrite He.
Qed.

Lemma deadline_expiry_witness :
  run [Todo; NewDeadline 0 1000] start
  = Some (default start (run [Todo; NewDeadline 0 1000] start))
  ∧ ∃ s', fire 0 (st (default start (run [Todo; NewDeadline 0 1000] start)))
          = Ret tt s'.
Proof.
  split; [vm_compute; reflexivity|].
  destruct (deadline_expiry [Todo; NewDeadline 0 1000]
              (default start (run [Todo; NewDeadline 0 1000] start))
              0 (mkTimer 1 1000 Pending))
    as (ob & s' & ob' & _ & _ & _ & _ & H & _);
    [vm_compute; reflexivity|vm_compute; reflexivity|reflexivity|].
  by exists s'.
Defined.

(** C10. Expiry writes the cause, the signal and the promise of the scope
    and nothing else.  The state after it is the state before it with the
    timer marked as fired, one call [controller.abort] added to the trace,
    and the scope replaced by an object that differs from it in [cause],
    in the reason of the signal and in the value of the promise only:
    [canceled] stays false, the listeners, the child, the parent, the
    resolver and the timer handle, which is not cleared, are the same.  No
    parked continuation starts, no listener of any scope is called, and
    every other object, the linked child included, is as it was. *)
Theorem expiry_frame ops cfg t tm :
  run ops start = Some cfg →
  timers (st cfg) !! t = Some tm → status tm = Pending →
  ∃ ob,
    heap (st cfg) !! target tm = Some ob
    ∧ cls ob = KDeadlineContext ∧ canceled ob = false ∧ timeoutId ob = Val t
    ∧ fire t (st cfg)
      = Ret tt
          (mkState
             (<[target tm :=
                  mkObj (cls ob) (parent ob) false
                        (Some "context deadline exceeded"%string)
                        (cancelCallback ob)
                        (Some "context deadline exceeded"%string)
                        (children ob) (timeoutId ob) (doneResolve ob)
                        (Some "context deadline exceeded"%string)]>
                (heap (st cfg)))
             (<[t := mkTimer (target tm) (delay tm) Fired]> (timers (st cfg)))
             (waiters (st cfg))
             (trace (st cfg)
                ++ [Abort (target tm) "context deadline exceeded"%string]))
    ∧ (∀ s', fire t (st cfg) = Ret tt s' →
         isCancelled (target tm) s' = Ret false s'
         ∧ (∀ o cb, calls o cb (trace s') = calls o cb (trace (st cfg)))
         ∧ (∀ i, i ≠ target tm → heap s' !! i = heap (st cfg) !! i)
         ∧ (∀ w child, children ob = Data w (Some child) →
                       ∃ och, heap (st cfg) !! child = Some och
                              ∧ heap s' !! child = Some och)).
Proof.
  intros Hrun Htm Hst.
  pose proof (reachable_inv _ _ Hrun) as Hwf. unfold inv in Hwf.
  destruct (fire_eq _ _ _ _ Hwf Htm Hst) as (ob & Ho & Ha & Hf).
  pose proof (wf_obj _ _ Hwf _ _ Ho) as Hok.
  pose proof (expire_obj_armed _ _ Ha) as He.
  pose proof (armed_signal _ _ Hok Ha) as Hsig.
  assert (heap (fired t tm ob (st cfg)) !! target tm = Some (expire_obj ob)) as Ho'
    by (by eapply put_lookup_eq).
  assert (∀ i, i ≠ target tm →
               heap (fired t tm ob (st cfg)) !! i = heap (st cfg) !! i) as Hframe.
  { intros i Hi. unfold fired. simpl heap. by rewrite list_lookup_insert_ne. }
  exists ob. split; [done|].
  split; [apply (armed_cls _ _ Ha)|]. split; [apply (armed_live _ _ Ha)|].
  split; [apply (armed_id _ _ Ha)|].
  split.
  { rewrite Hf. unfold fired, say, put, upd_trace, upd_heap, upd_timers. simpl.
    rewrite He, Hsig. reflexivity. }
  intros s' Hs'. rewrite Hf in Hs'. injection Hs' as <-.
  split; [by rewrite (isCancelled_eq _ _ _ Ho'), He|].
  split; [|split; [done|]].
  - intros o cb. unfold fired. simpl trace. rewrite calls_app.
    change (calls o cb [Abort (target tm) deadline_cause]) with 0. lia.
  - intros w child Hch.
    destruct (wf_link _ _ Hwf _ _ Ho _ _ Hch) as (Hlt & och & Hoch & _).
    exists och. split; [done|]. rewrite Hframe by lia. done.
Qed.

Lemma expiry_frame_witness :
  run history_watched start = Some watched
  ∧ ∃ s', fire 0 (st watched) = Ret tt s'
          ∧ isCancelled 1 s' = Ret false s'
          ∧ isCancelled 2 s' = Ret false s'
          ∧ trace s' = [Abort 1 "context deadline exceeded"%string].
Proof.
  split; [reflexivity|].
  destruct (expiry_frame history_watched watched 0 (mkTimer 1 1000 Pending))
    as (ob & _ & _ & _ & _ & H1 & H2);
    [reflexivity|reflexivity|reflexivity|].
  eexists. split; [exact H1|].
  split; [exact (proj1 (H2 _ H1))|]. split; reflexivity.
Defined.

(** ** Terminal states of a deadline scope *)

Lemma DeadlineContext_done_eq x ob s :
  heap s !! x = Some ob → DeadlineContext_done x s = Ret (_done ob) s.
Proof.
  intros H. unfold DeadlineContext_done.
  by rewrite (bind_Ret _ _ _ _ _ (read_eq _ _ _ H)).
Qed.





(** ** Several children under one parent *)









(** ** The scenarios of tests.ts *)

Example test_CancelableContext :
  ∃ cfg ob, run [Todo; NewCancelable 0; Cancel 1 None] start = Some cfg
            ∧ heap (st cfg) !! 1 = Some ob
            ∧ canceled ob = true ∧ cause ob = Some "context canceled"%string.
Proof. eexists _, _. split; [vm_compute; reflexivity|]. by split. Qed.

Example test_with_cancelable_parent :
  ∃ ob, run history_cascade start = Some cascaded
        ∧ heap (st cascaded) !! 2 = Some ob
        ∧ canceled ob = true ∧ cause ob = Some "parent canceled"%string
        ∧ _done ob = Some "parent canceled"%string.
Proof. eexists. split; [vm_compute; reflexivity|]. by split. Qed.

Example test_with_timeout :
  ∃ ob, run history_expired start = Some after_expiry
        ∧ heap (st after_expiry) !! 1 = Some ob
        ∧ canceled ob = false
        ∧ cause ob = Some "context deadline exceeded"%string
        ∧ _done ob = Some "context deadline exceeded"%string.
Proof. eexists. split; [vm_compute; reflexivity|]. by split. Qed.


(** * The cascade, block by block *)

Lemma reaches_heap x ob c s :
  heap s !! x = Some ob →
  heap (reaches x ob c s)
  = <[x := match thrower (cancelCallback ob) with
           | None => cancel_obj c ob
           | Some _ => stop_obj c ob
           end]> (heap s).
Proof.
  intros Hx. unfold reaches. destruct (thrower (cancelCallback ob)).
  - by apply stopped_heap.
  - by apply entered_heap.
Qed.

Lemma reaches_timers x ob c s : timers (reaches x ob c s) = timers (entered x ob c s).
Proof. unfold reaches. destruct (thrower _); [apply stopped_timers|done]. Qed.

Lemma reaches_waiters x ob c s : waiters (reaches x ob c s) = waiters s.
Proof.
  unfold reaches. destruct (thrower _); [apply stopped_waiters|apply entered_waiters].
Qed.

(** The fields a first [cancel] leaves alone, whether a listener throws
    or not. *)
Lemma reach_obj_fields c ob :
  let ob' := match thrower (cancelCallback ob) with
             | None => cancel_obj c ob
             | Some _ => stop_obj c ob
             end in
  cls ob' = cls ob ∧ parent ob' = parent ob
  ∧ canceled ob' = true ∧ cause ob' = Some c
  ∧ cancelCallback ob' = cancelCallback ob
  ∧ children ob' = children ob
  ∧ doneResolve ob' = doneResolve ob
  ∧ _done ob' = _done ob
  ∧ timeoutId ob' = match cls ob with KDeadlineContext => Null | _ => timeoutId ob end.
Proof.
  destruct (cancel_obj_fields c ob) as (E1 & E2 & E3 & E4 & E5 & E6 & E7 & E8 & E9).
  destruct (stop_obj_fields c ob) as (S1 & S2 & S3 & S4 & S5 & S6 & S7 & S8 & S9).
  cbv zeta. destruct (thrower (cancelCallback ob)).
  - do 8 (split; [done|]). unfold stop_obj. by destruct (cls ob).
  - do 8 (split; [done|]). unfold cancel_obj. by destruct (cls ob).
Qed.

(** A [cancel] is a sequence of blocks: on a live scope it starts with the
    block that marks the scope, goes on with the cancellation of the
    child, and ends with the promise of a deadline scope; on a cancelled
    scope it is at most that last block. *)
Lemma cancel_fuel_blocks n :
  ∀ K s x ob c s',
    wf K s → heap s !! x = Some ob → callable ob →
    length (heap s) - x ≤ n →
    ends (cancel_fuel n x c s) s' →
    if canceled ob then blocks s s' else blocks (reaches x ob c s) s'.
Proof.
  induction n as [|n IH]; intros K s x ob c s' Hwf Hx Hcal Hn Hrun.
  { by destruct Hrun as [[a [=]]|[k [=]]]. }
  pose proof (wf_obj _ _ Hwf _ _ Hx) as Hok.
  pose proof Hcal as [Hk Hres].
  destruct (canceled ob) eqn:Hc.
  - rewrite (cancel_fuel_dead n K x c ob s Hwf Hx Hcal Hc) in Hrun.
    apply ends_Ret in Hrun as ->. unfold settled.
    destruct (cls ob) eqn:Hcls; try apply rtc_refl.
    apply rtc_once. apply blk_resolve; try done. by apply Hres.
  - unfold reaches. destruct (thrower (cancelCallback ob)) as [k|] eqn:Hth.
    { rewrite (cancel_fuel_live _ _ _ _ _ Hx Hk Hc), Hth in Hrun.
      apply ends_Throw in Hrun as ->. apply rtc_refl. }
    destruct (cancel_fuel_unfold n K s x ob c Hwf Hx Hcal Hc Hth Hn)
      as (s2 & Hwf2 & Hx2 & _ & Hch).
    pose proof (wf_entered K s x ob c Hwf Hx) as Hwf1.
    destruct (cancel_obj_fields c ob) as (E1 & E2 & E3 & E4 & E5 & E6 & E7 & E8 & E9).
    assert (blocks s2 (settled x (cancel_obj c ob) c s2)) as Hlast.
    { unfold settled. rewrite E1. destruct (cls ob) eqn:Hcls; try apply rtc_refl.
      apply rtc_once. apply blk_resolve; try done; [by eapply (wf_obj _ _ Hwf2)|].
      rewrite E8. by apply Hres. }
    assert (∀ ch och, x < ch → heap s !! ch = Some och → callable och →
              ends (cancel_fuel n ch c (entered x ob c s)) s2 →
              blocks (entered x ob c s) s2) as Hchild.
    { intros ch och Hlt Hoch Hcc Hr.
      assert (heap (entered x ob c s) !! ch = Some och) as Hoch1
        by (rewrite entered_lookup_ne by lia; done).
      assert (length (heap (entered x ob c s)) - ch ≤ n) as Hn1
        by (rewrite (entered_length _ _ _ _ Hx); lia).
      pose proof (IH K _ ch och c s2 Hwf1 Hoch1 Hcc Hn1 Hr) as IH'.
      destruct (canceled och) eqn:Hcc'; [done|].
      eapply rtc_l; [|exact IH'].
      apply blk_enter; try done; [by eapply (wf_obj _ _ Hwf1)|by destruct Hcc]. }
    destruct (children ob) as [|w [ch|]].
    + destruct Hch as [-> Hr]. rewrite Hr in Hrun. by apply ends_Ret in Hrun as ->.
    + destruct Hch as (och & Hlt & Hoch & Hcc & [[Hr1 Hr2]|(k & Hr1 & Hr2)]).
      * rewrite Hr2 in Hrun. apply ends_Ret in Hrun as ->.
        eapply rtc_trans; [|exact Hlast].
        apply (Hchild ch och); try done. left. exists tt. done.
      * rewrite Hr2 in Hrun. apply ends_Throw in Hrun as ->.
        apply (Hchild ch och); try done. right. by exists k.
    + destruct Hch as [-> Hr]. rewrite Hr in Hrun. by apply ends_Ret in Hrun as ->.
Qed.

Lemma invoke_cancel_blocks K s x ob c s' :
  wf K s → heap s !! x = Some ob → callable ob →
  ends (invoke_cancel x c s) s' →
  if canceled ob then blocks s s' else blocks (reaches x ob c s) s'.
Proof.
  intros Hwf Hx Hcal Hrun. unfold invoke_cancel in Hrun.
  by eapply cancel_fuel_blocks.
Qed.

Lemma invoke_cancel_blocks_from K s x ob c s' :
  wf K s → heap s !! x = Some ob → callable ob →
  ends (invoke_cancel x c s) s' →
  blocks s s'.
Proof.
  intros Hwf Hx Hcal Hrun.
  pose proof (invoke_cancel_blocks K s x ob c s' Hwf Hx Hcal Hrun) as Hb.
  destruct (canceled ob) eqn:Hc; [done|].
  eapply rtc_l; [|exact Hb].
  apply blk_enter; try done; [by eapply (wf_obj _ _ Hwf)|by destruct Hcal].
Qed.

(** * Operations as sequences of blocks *)

Lemma reaches_fresh k p c s :
  k ≠ KDeadlineContext →
  reaches (length (heap s)) (fresh k p) c (grown (fresh k p) s)
  = marked (length (heap s)) (fresh k p) c (grown (fresh k p) s).
Proof. intros Hk. unfold reaches, entered. simpl. by destruct k. Qed.

Lemma reaches_stillborn p c s :
  reaches (length (heap s)) (fresh KDeadlineContext p) c
          (grown (fresh KDeadlineContext p) s)
  = marked (length (heap s)) (stillborn p) c (grown (stillborn p) s).
Proof.
  unfold reaches, entered, cleared. simpl thrower. cbv iota.
  simpl cls. cbv iota. simpl timeoutId. cbv iota.
  by rewrite put_grown.
Qed.

Lemma exec_result (m : M unit) s K cfg' :
  match (m;; ret None) s with
  | Ret (Some r) s' => Some (mkConfig s' (K ++ [r]))
  | Ret None s' => Some (mkConfig s' K)
  | Throw _ s' => Some (mkConfig s' K)
  | Wrong => None
  end = Some cfg' →
  ∀ s', ends (m s) s' → st cfg' = s'.
Proof.
  intros He s' Hs'. rewrite (exec_ends m s s' K Hs') in He. by injection He as <-.
Qed.

Lemma exec_blocks op cfg cfg' :
  inv cfg → exec op cfg = Some cfg' → blocks (st cfg) (st cfg').
Proof.
  intros Hwf He. unfold inv in Hwf. unfold exec in He.
  destruct (enabled op cfg) eqn:Hen; [|done].
  destruct cfg as [s K]. simpl in *.
  assert (∀ p, (∀ q, p = Some q → q < length (heap s)) →
               match (let! r := new_Context p in ret (Some r)) s with
               | Ret (Some r) s' => Some (mkConfig s' (K ++ [r]))
               | Ret None s' => Some (mkConfig s' K)
               | Throw _ s' => Some (mkConfig s' K)
               | Wrong => None
               end = Some cfg' → blocks s (st cfg')) as Hctx.
  { intros p Hp. rewrite (bind_Ret _ _ _ _ _ (new_Context_eq p s)).
    intros [= <-]. apply rtc_once. by apply blk_context. }
  assert (∀ p, holds (mkConfig s K) p = true →
               ∃ pob, heap s !! p = Some pob ∧ p < length (heap s) ∧ obj_ok pob)
    as Hheld.
  { intros p Hp. apply holds_known in Hp. simpl in Hp.
    destruct (wf_known _ _ Hwf p Hp) as (pob & Hpob & _).
    exists pob. split; [done|]. split; [by eapply lookup_lt_Some|].
    by eapply (wf_obj _ _ Hwf). }
  destruct op as [| |[p|]|p|p ms|o c|o cb|t|w]; simpl in Hen, He.
  - by apply (Hctx None).
  - by apply (Hctx None).
  - apply (Hctx (Some p)); [|done]. intros q [= <-].
    by destruct (Hheld p Hen) as (? & ? & ? & ?).
  - by apply (Hctx None).
  - (* new CancelableContext(p) *)
    destruct (Hheld p Hen) as (pob & Hp & Hlt & Hok).
    unfold bind in He. rewrite (new_CancelableContext_eq p pob s Hp) in He.
    cbv zeta in He.
    assert (block s (grown (fresh KCancelableContext p) s)) as Hb
      by (by apply blk_scope).
    assert (heap (grown (fresh KCancelableContext p) s) !! length (heap s)
            = Some (fresh KCancelableContext p)) as Hnew by apply grown_lookup_new.
    assert (match
             (if canceled pob then
                match cause pob with
                | Some x => Ret (length (heap s))
                              (marked (length (heap s)) (fresh KCancelableContext p) x
                                      (grown (fresh KCancelableContext p) s))
                | None => Wrong
                end
              else
                match link_obj (length (heap s)) pob with
                | Some pob' => Ret (length (heap s))
                                 (put p pob' (grown (fresh KCancelableContext p) s))
                | None => Throw TypeError (grown (fresh KCancelableContext p) s)
                end) with
             | Ret a s' => Some (mkConfig s' (K ++ [a]))
             | Throw _ s' => Some (mkConfig s' K)
             | Wrong => None
             end = Some cfg' → blocks s (st cfg')) as Hcase.
    { destruct (canceled pob) eqn:Hc.
      - destruct (cause pob) as [x|]; [|done]. intros [= <-]. simpl.
        eapply rtc_l; [exact Hb|]. apply rtc_once.
        rewrite <- reaches_fresh by done.
        apply blk_enter; try done. apply obj_ok_fresh.
      - destruct (link_obj (length (heap s)) pob) as [pob'|] eqn:Hl.
        + intros [= <-]. simpl. eapply rtc_l; [exact Hb|]. apply rtc_once.
          eapply (blk_link _ p pob pob' (length (heap s))); try done.
          by apply grown_lookup_old.
        + intros [= <-]. by apply rtc_once. }
    destruct (cls pob) eqn:Hk.
    + simpl in He. injection He as <-. by apply rtc_once.
    + apply Hcase. destruct (canceled pob); [destruct (cause pob)|destruct (link_obj _ _)]; done.
    + apply Hcase. destruct (canceled pob); [destruct (cause pob)|destruct (link_obj _ _)]; done.
  - (* new DeadlineContext(p, ms) *)
    destruct (Hheld p Hen) as (pob & Hp & Hlt & Hok).
    unfold bind in He. rewrite (new_DeadlineContext_eq p ms pob s Hp) in He.
    cbv zeta in He.
    set (this := length (heap s)) in *.
    set (s2 := scheduled this ms (grown (armed_obj p (length (timers s))) s)) in *.
    assert (heap s2 !! this = Some (armed_obj p (length (timers s)))) as Hnew
      by apply grown_lookup_new.
    assert (heap s2 !! p = Some pob) as Hp2 by (by apply grown_lookup_old).
    destruct (cls pob) eqn:Hk.
    + assert (block s s2) as Hb.
      { pose proof (blk_deadline s p pob ms Hp (or_introl Hk)) as Hb.
        cbv zeta in Hb. by rewrite Hk in Hb. }
      destruct (link_obj this pob) as [pob'|] eqn:Hl.
      * injection He as <-. simpl. eapply rtc_l; [exact Hb|]. apply rtc_once.
        by eapply (blk_link _ p pob pob' this).
      * injection He as <-. by apply rtc_once.
    + destruct (canceled pob) eqn:Hc.
      * destruct (cause pob) as [x|]; [|done]. injection He as <-. simpl.
        eapply rtc_l; [by apply (blk_scope s KDeadlineContext p)|].
        apply rtc_once. unfold this. rewrite <- reaches_stillborn.
        apply blk_enter; try done; [apply grown_lookup_new|apply obj_ok_fresh].
      * assert (block s s2) as Hb.
        { pose proof (blk_deadline s p pob ms Hp (or_intror Hc)) as Hb.
          cbv zeta in Hb. by rewrite Hk in Hb. }
        destruct (link_obj this pob) as [pob'|] eqn:Hl.
        -- injection He as <-. simpl. eapply rtc_l; [exact Hb|]. apply rtc_once.
           by eapply (blk_link _ p pob pob' this).
        -- injection He as <-. apply rtc_once. by apply blk_scope.
    + destruct (canceled pob) eqn:Hc.
      * destruct (cause pob) as [x|]; [|done]. injection He as <-. simpl.
        eapply rtc_l; [by apply (blk_scope s KDeadlineContext p)|].
        apply rtc_once. unfold this. rewrite <- reaches_stillborn.
        apply blk_enter; try done; [apply grown_lookup_new|apply obj_ok_fresh].
      * assert (block s (parked p this s2)) as Hb.
        { pose proof (blk_deadline s p pob ms Hp (or_intror Hc)) as Hb.
          cbv zeta in Hb. by rewrite Hk in Hb. }
        destruct (link_obj this pob) as [pob'|] eqn:Hl.
        -- injection He as <-. simpl. eapply rtc_l; [exact Hb|]. apply rtc_once.
           by eapply (blk_link _ p pob pob' this).
        -- injection He as <-. apply rtc_once. by apply blk_scope.
  - (* cancel *)
    apply andb_true_iff in Hen as [Hin Hc]. apply holds_known in Hin. simpl in Hin.
    destruct (is_cancelable_callable _ _ _ Hwf Hin Hc) as (ob & Ho & Hcal).
    destruct (invoke_cancel_sound K s o ob (default default_cause c) Hwf Ho Hcal)
      as (s' & Hs' & _).
    unfold cancel in He. rewrite (exec_result _ _ _ _ He s' Hs').
    by eapply invoke_cancel_blocks_from.
  - (* onCancel *)
    apply andb_true_iff in Hen as [Hin Hc]. apply holds_known in Hin. simpl in Hin.
    destruct (is_cancelable_callable _ _ _ Hwf Hin Hc) as (ob & Ho & Hcal).
    pose proof (wf_obj _ _ Hwf _ _ Ho) as Hok.
    unfold bind in He.
    destruct (canceled ob) eqn:Hcan.
    + destruct (cause ob) as [x|] eqn:Hx; [|by destruct (ok_cause _ Hok Hcan)].
      rewrite (onCancel_dead _ _ _ _ _ Ho Hcan Hx) in He.
      assert (st cfg' = say [Invoke o cb x] s) as ->
        by (destruct cb; by injection He as <-).
      apply rtc_once. by eapply blk_call.
    + rewrite (onCancel_live _ _ _ _ Ho Hcan) in He. injection He as <-.
      apply rtc_once. by apply blk_listen.
  - (* a timer expires *)
    unfold is_pending in Hen.
    destruct (timers s !! t) as [tm|] eqn:Htm; [|done].
    destruct (status tm) eqn:Hst; try done.
    destruct (fire_eq K s t tm Hwf Htm Hst) as (ob & Ho & Ha & Hf).
    unfold bind in He. rewrite Hf in He. injection He as <-.
    apply rtc_once. apply blk_fire; try done. by eapply (wf_obj _ _ Hwf).
  - (* a parked continuation resumes *)
    unfold is_ready in Hen.
    destruct (waiters s !! w) as [tk|] eqn:Htk; [|done].
    apply andb_true_iff in Hen as [Hres Hful].
    apply negb_true_iff in Hres.
    destruct (wf_waiter _ _ Hwf w tk Htk Hres) as (_ & oc & Hoc & Hcal).
    unfold is_fulfilled in Hful.
    destruct (heap s !! awaited tk) as [pob|] eqn:Hp; [|done].
    destruct (_done pob) as [v|] eqn:Hd; [|done].
    pose proof (wf_obj _ _ Hwf _ _ Hp) as Hok.
    destruct (cause pob) as [x|] eqn:Hx; [|destruct (ok_done _ Hok); congruence].
    pose proof (wf_resumed K s w tk Hwf Htk) as Hwf1. fold (woken w tk s) in Hwf1.
    assert (heap (woken w tk s) !! awaited tk = Some pob) as Hp1 by done.
    assert (heap (woken w tk s) !! waiting tk = Some oc) as Hoc1 by done.
    destruct (invoke_cancel_sound K _ (waiting tk) oc x Hwf1 Hoc1 Hcal)
      as (s' & Hs' & _).
    assert (ends (resume w s) s') as Hres'.
    { unfold resume. rewrite Htk, Hres. fold (woken w tk s).
      rewrite (bind_Ret _ _ _ _ _ (getCause_eq _ _ _ Hp1)), Hx.
      by erewrite (bind_Ret (nonnull _)) by reflexivity. }
    rewrite (exec_result _ _ _ _ He s' Hres').
    pose proof (invoke_cancel_blocks K _ _ oc x s' Hwf1 Hoc1 Hcal Hs') as Hb.
    destruct (canceled oc) eqn:Hc.
    + eapply rtc_l; [|exact Hb]. by eapply blk_idle.
    + eapply rtc_l; [|exact Hb].
      eapply blk_wake; try done; [by eapply (wf_obj _ _ Hwf)|by destruct Hcal].
Qed.

Lemma run_blocks ops :
  ∀ cfg cfg', inv cfg → run ops cfg = Some cfg' → blocks (st cfg) (st cfg').
Proof.
  induction ops as [|op ops IH]; intros cfg cfg' Hinv; simpl.
  - intros [= <-]. apply rtc_refl.
  - destruct (exec op cfg) as [cfg1|] eqn:He; [|done]. intros Hrun.
    eapply rtc_trans; [by eapply exec_blocks|].
    apply IH; [|done]. by destruct (exec_inv _ _ _ Hinv He).
Qed.

Lemma reachable_blocks ops cfg : run ops start = Some cfg → blocks boot (st cfg).
Proof. apply (run_blocks ops start cfg), inv_start. Qed.

(** What every block keeps, every operation and every history keeps. *)
Lemma blocks_invariant (P : State → Prop) :
  (∀ s s', P s → block s s' → P s') →
  ∀ s s', blocks s s' → P s → P s'.
Proof. intros Hstep s s' Hb. induction Hb; eauto. Qed.

Lemma reachable_invariant (P : State → Prop) :
  P boot → (∀ s s', P s → block s s' → P s') →
  ∀ ops cfg, run ops start = Some cfg → P (st cfg).
Proof.
  intros H0 Hstep ops cfg Hrun.
  by eapply blocks_invariant; [|by eapply reachable_blocks|].
Qed.

(** * The life of an object *)

Lemma moves_refl s : moves s s.
Proof.
  split.
  - intros i ob Hi. exists ob. split; [done|apply rtc_refl].
  - intros i ob' Hi Hn. congruence.
Qed.

Lemma moves_trans a b c : moves a b → moves b c → moves a c.
Proof.
  intros [A1 A2] [B1 B2]. split.
  - intros i ob Hi. destruct (A1 i ob Hi) as (ob1 & H1 & L1).
    destruct (B1 i ob1 H1) as (ob2 & H2 & L2).
    exists ob2. split; [done|by eapply rtc_trans].
  - intros i ob' Hi Hn. destruct (heap b !! i) as [ob1|] eqn:Hb.
    + destruct (A2 i ob1 Hb Hn) as (ob0 & Hborn & L & Hp).
      destruct (B1 i ob1 Hb) as (ob2 & H2 & L2).
      exists ob0. split; [done|]. split; [|done].
      assert (ob2 = ob') as -> by congruence. by eapply rtc_trans.
    + by apply B2.
Qed.

Lemma moves_host s s' : heap s' = heap s → moves s s'.
Proof. intros Hh. destruct (moves_refl s) as [M1 M2]. split; rewrite Hh; done. Qed.

Lemma moves_step s s' x ob ob' :
  heap s !! x = Some ob → obj_step ob ob' → heap s' = <[x := ob']> (heap s) →
  moves s s'.
Proof.
  intros Hx Hstep Hh. split; rewrite Hh.
  - intros i o Hi. destruct (decide (x = i)) as [->|Hne].
    + exists ob'. rewrite list_lookup_insert_eq by (by eapply lookup_lt_Some).
      split; [done|]. assert (o = ob) as -> by congruence. by apply rtc_once.
    + exists o. rewrite list_lookup_insert_ne by done. split; [done|apply rtc_refl].
  - intros i o Hi Hn. apply lookup_lt_Some in Hi. rewrite length_insert in Hi.
    apply lookup_ge_None in Hn. lia.
Qed.

Lemma moves_born s s' ob :
  born ob → (∀ p, parent ob = Some p → p < length (heap s)) →
  heap s' = heap s ++ [ob] →
  moves s s'.
Proof.
  intros Hb Hp Hh. split; rewrite Hh.
  - intros i o Hi. exists o. split; [by apply lookup_app_l_Some|apply rtc_refl].
  - intros i o Hi Hn. apply lookup_app_Some in Hi as [Hi|[Hge Hi]]; [congruence|].
    apply list_lookup_singleton_Some in Hi as [Hz <-].
    exists ob. split; [done|]. split; [apply rtc_refl|].
    intros p Hpp. specialize (Hp p Hpp). lia.
Qed.

Lemma reaches_step x ob c s :
  heap s !! x = Some ob → obj_ok ob → cls ob ≠ KContext → canceled ob = false →
  ∃ ob', obj_step ob ob' ∧ heap (reaches x ob c s) = <[x := ob']> (heap s).
Proof.
  intros Hx Hok Hk Hc. eexists. split; [|by apply reaches_heap].
  destruct (thrower (cancelCallback ob)); [by apply step_stop|by apply step_cancel].
Qed.

Lemma block_moves s s' : block s s' → moves s s'.
Proof.
  intros Hb.
  destruct Hb as [p Hp|k p Hk Hp|p pob ms Hp Hc|p pob pob' v ov Hp Hok Hv Hpar Hk Hl
                 |x ob c Hx Hok Hk Hc|x ob c Hx Hok Hk Hc Hr|x ob cb Hx Hok Hc
                 |x ob cb c Hx Hc Hv|t tm ob Htm Hst Ho Hok Ha|w tk oc Htk Hr Ho Hc
                 |w tk pob oc c Htk Hr Hp Hv Ho Hok Hk Hc].
  - eapply moves_born; [apply born_context| |done].
    simpl. intros q Hq. by apply Hp.
  - eapply moves_born; [by apply born_cancelable| |done].
    simpl. by intros q [= <-].
  - eapply (moves_born _ _ (armed_obj p (length (timers s))));
      [apply born_deadline| |by destruct (cls pob)].
    simpl. intros q [= <-]. by eapply lookup_lt_Some.
  - eapply (moves_step _ _ p pob pob'); [done| |done]. by eapply step_link.
  - destruct (reaches_step x ob c s Hx Hok Hk Hc) as (ob' & Hs & Hh).
    by eapply (moves_step _ _ x ob).
  - eapply (moves_step _ _ x ob); [done| |done]. by apply step_resolve.
  - eapply (moves_step _ _ x ob); [done| |done]. by apply step_listen.
  - by apply moves_host.
  - eapply (moves_step _ _ (target tm) ob); [done| |done]. by eapply step_expire.
  - by apply moves_host.
  - eapply moves_trans; [apply (moves_host s (woken w tk s)); done|].
    destruct (reaches_step (waiting tk) oc c (woken w tk s) Ho Hok Hk Hc)
      as (ob' & Hs & Hh).
    by eapply (moves_step _ _ (waiting tk) oc).
Qed.

Lemma blocks_moves s s' : blocks s s' → moves s s'.
Proof.
  intros Hb. induction Hb; [apply moves_refl|].
  eapply moves_trans; [by apply block_moves|done].
Qed.

(** What holds of an object when it is born and is kept by every step of
    its life holds of every object of every reachable state. *)
Lemma lifecycle_invariant (J : Obj → Prop) :
  (∀ a b, J a → obj_step a b → J b) →
  ∀ a b, lifecycle a b → J a → J b.
Proof. intros Hstep a b Hl. induction Hl; eauto. Qed.

Lemma reachable_object (J : nat → Obj → Prop) :
  (∀ i ob, born ob → (∀ p, parent ob = Some p → p < i) → J i ob) →
  (∀ i a b, J i a → obj_step a b → J i b) →
  ∀ ops cfg i ob, run ops start = Some cfg → heap (st cfg) !! i = Some ob → J i ob.
Proof.
  intros Hborn Hstep ops cfg i ob Hrun Hi.
  destruct (blocks_moves _ _ (reachable_blocks _ _ Hrun)) as [_ Hnew].
  destruct (Hnew i ob Hi) as (ob0 & Hb & Hl & Hp); [by destruct i|].
  eapply (lifecycle_invariant (J i)); [apply Hstep|exact Hl|]. by apply Hborn.
Qed.

(** What every step of an object's life keeps, between two objects, holds
    between an object and what any later history makes of it. *)
Lemma later_object (R : Obj → Obj → Prop) :
  (∀ a, R a a) → (∀ a b c, R a b → R b c → R a c) →
  (∀ a b, obj_step a b → R a b) →
  ∀ cfg more cfg' i ob,
    inv cfg → run more cfg = Some cfg' → heap (st cfg) !! i = Some ob →
    ∃ ob', heap (st cfg') !! i = Some ob' ∧ R ob ob'.
Proof.
  intros Hrefl Htrans Hstep cfg more cfg' i ob Hinv Hrun Hi.
  destruct (blocks_moves _ _ (run_blocks _ _ _ Hinv Hrun)) as [Hold _].
  destruct (Hold i ob Hi) as (ob' & Hi' & Hl).
  exists ob'. split; [done|].
  clear Hi Hi'. induction Hl; eauto.
Qed.

(** What the steps of an object's life do to its fields. *)
Lemma obj_step_shape a b :
  obj_step a b → cls b = cls a ∧ parent b = parent a.
Proof.
  intros [c ob Hok Hk Hc|c ob Hok Hk Hc|c ob Hok Hc Hr|t ob Hok Ha|cb ob Hok Hc
         |v ob ob' Hok Hl].
  - by destruct (cancel_obj_fields c ob) as (? & ? & _).
  - by destruct (stop_obj_fields c ob) as (? & ? & _).
  - by destruct (resolve_obj_fields c ob) as (? & ? & _).
  - by rewrite (expire_obj_armed t ob Ha).
  - done.
  - by destruct (link_obj_Some _ _ _ Hl) as (w & -> & _).
Qed.

(** * Parents *)

Lemma getParent_eq x ob s : heap s !! x = Some ob → getParent x s = Ret (parent ob) s.
Proof. intros H. unfold getParent. by rewrite (bind_Ret _ _ _ _ _ (read_eq _ _ _ H)). Qed.

(** X1. The parent of a scope is fixed once the scope exists: over any
    later history of operations, [getParent()] keeps returning what it
    returned before. *)
Theorem getParent_fixed ops cfg more cfg' i v :
  run ops start = Some cfg → run more cfg = Some cfg' →
  getParent i (st cfg) = Ret v (st cfg) →
  getParent i (st cfg') = Ret v (st cfg').
Proof.
  intros Hrun Hmore Hg.
  unfold getParent, bind, read in Hg.
  destruct (heap (st cfg) !! i) as [ob|] eqn:Hi; [|done].
  injection Hg as <-.
  destruct (later_object (λ a b, parent b = parent a)) with (5 := Hmore) (6 := Hi)
    as (ob' & Hi' & Hp).
  - done.
  - congruence.
  - intros a b Hs. by destruct (obj_step_shape a b Hs).
  - by eapply reachable_inv.
  - rewrite (getParent_eq _ _ _ Hi'). by rewrite Hp.
Qed.

Lemma getParent_fixed_witness :
  run history_family start = Some family
  ∧ ∃ cfg', run [Cancel 1 None; NewCancelable 2] family = Some cfg'
            ∧ getParent 2 (st cfg') = Ret (Some 1) (st cfg').
Proof.
  split; [vm_compute; reflexivity|].
  eexists. split; [vm_compute; reflexivity|].
  apply (getParent_fixed history_family family [Cancel 1 None; NewCancelable 2] _ 2);
    vm_compute; reflexivity.
Defined.

(** X2. Every cancelable or deadline scope of a reachable state has a
    parent, the non-null assertion in [CancelableContext.getParent] never
    fails, and the parent it returns was constructed before the scope
    itself: following parents always ends. *)
Theorem CancelableContext_getParent_older ops cfg i ob :
  run ops start = Some cfg → heap (st cfg) !! i = Some ob → cls ob ≠ KContext →
  ∃ p pob, CancelableContext_getParent i (st cfg) = Ret p (st cfg)
           ∧ p < i ∧ heap (st cfg) !! p = Some pob.
Proof.
  intros Hrun Hi Hk.
  assert ((∀ p, parent ob = Some p → p < i)
          ∧ (cls ob ≠ KContext → is_Some (parent ob))) as [H1 H2].
  { clear Hk. revert ops cfg i ob Hrun Hi.
    apply (reachable_object
             (λ i ob, (∀ p, parent ob = Some p → p < i)
                      ∧ (cls ob ≠ KContext → is_Some (parent ob)))).
    - intros i ob Hb Hp. split; [done|]. by destruct Hb.
    - intros i a b [H1 H2] Hs. destruct (obj_step_shape a b Hs) as [-> ->]. done. }
  destruct (H2 Hk) as [p Hp]. specialize (H1 p Hp).
  destruct (lookup_lt_is_Some_2 (heap (st cfg)) p) as [pob Hpob].
  { apply lookup_lt_Some in Hi. lia. }
  exists p, pob. split; [|done].
  unfold CancelableContext_getParent.
  by rewrite (bind_Ret _ _ _ _ _ (read_eq _ _ _ Hi)), Hp.
Qed.

Lemma CancelableContext_getParent_older_witness :
  run history_cascade start = Some cascaded
  ∧ ∃ p pob, CancelableContext_getParent 2 (st cascaded) = Ret p (st cascaded)
             ∧ p < 2 ∧ heap (st cascaded) !! p = Some pob.
Proof.
  split; [(vm_compute; reflexivity)|].
  apply (CancelableContext_getParent_older history_cascade cascaded 2 cascaded_scope);
    [(vm_compute; reflexivity)|(vm_compute; reflexivity)|discriminate].
Defined.

(** * Links between scopes *)

Lemma links_ok_host s s' : heap s' = heap s → links_ok s → links_ok s'.
Proof. intros Hh [L1 L2 L3]. split; rewrite Hh; done. Qed.

Lemma links_ok_born s s' ob :
  links_ok s → heap s' = heap s ++ [ob] →
  (∀ w c, children ob ≠ Data w (Some c)) →
  (∀ p, parent ob = Some p → p < length (heap s)) →
  (parent ob = None → cls ob = KContext) →
  links_ok s'.
Proof.
  intros [L1 L2 L3] Hh Hleaf Hp Hroot. split; rewrite Hh.
  - intros i o w c [Hi|[Hge Hi]]%lookup_app_Some Hch.
    + destruct (L1 i o w c Hi Hch) as (oc & Hoc & H).
      exists oc. split; [by apply lookup_app_l_Some|done].
    + apply list_lookup_singleton_Some in Hi as [_ <-]. by destruct (Hleaf w c).
  - intros i o p [Hi|[Hge Hi]]%lookup_app_Some Hpar; [by eapply L2|].
    apply list_lookup_singleton_Some in Hi as [_ <-]. specialize (Hp p Hpar). lia.
  - intros i o [Hi|[Hge Hi]]%lookup_app_Some Hpar; [by eapply L3|].
    apply list_lookup_singleton_Some in Hi as [_ <-]. by apply Hroot.
Qed.

Lemma links_ok_update s s' x ob ob' :
  links_ok s → heap s !! x = Some ob → heap s' = <[x := ob']> (heap s) →
  parent ob' = parent ob → cls ob' = cls ob →
  (∀ w c, children ob' = Data w (Some c) →
          ∃ oc, heap s !! c = Some oc ∧ parent oc = Some x ∧ cls oc ≠ KContext) →
  links_ok s'.
Proof.
  intros [L1 L2 L3] Hx Hh Hpar Hcls Hch.
  assert (∀ c oc i, heap s !! c = Some oc → parent oc = Some i → cls oc ≠ KContext →
                    ∃ oc', <[x := ob']> (heap s) !! c = Some oc'
                           ∧ parent oc' = Some i ∧ cls oc' ≠ KContext) as Hkeep.
  { intros c oc i Hc Hp Hk. destruct (decide (x = c)) as [->|Hne].
    - exists ob'. rewrite list_lookup_insert_eq by (by eapply lookup_lt_Some).
      assert (oc = ob) as -> by congruence. split; [done|]. split; congruence.
    - exists oc. by rewrite list_lookup_insert_ne. }
  split; rewrite Hh.
  - intros i o w c [(-> & -> & _)|(Hne & Hi)]%list_lookup_insert_Some Hc.
    + destruct (Hch w c Hc) as (oc & Hoc & Hp & Hk). by eapply Hkeep.
    + destruct (L1 i o w c Hi Hc) as (oc & Hoc & Hp & Hk). by eapply Hkeep.
  - intros i o p [(-> & -> & _)|(Hne & Hi)]%list_lookup_insert_Some Hp.
    + rewrite Hpar in Hp. by eapply L2.
    + by eapply L2.
  - intros i o [(-> & -> & _)|(Hne & Hi)]%list_lookup_insert_Some Hp.
    + rewrite Hpar in Hp. rewrite Hcls. by eapply L3.
    + by eapply L3.
Qed.

Lemma links_ok_same s s' x ob ob' :
  links_ok s → heap s !! x = Some ob → heap s' = <[x := ob']> (heap s) →
  parent ob' = parent ob → cls ob' = cls ob → children ob' = children ob →
  links_ok s'.
Proof.
  intros Hl Hx Hh Hpar Hcls Hch. eapply links_ok_update; try done.
  intros w c. rewrite Hch. intros Hc. by eapply (lk_child _ Hl).
Qed.

Lemma block_links s s' : links_ok s → block s s' → links_ok s'.
Proof.
  intros Hl Hb.
  destruct Hb as [p Hp|k p Hk Hp|p pob ms Hp Hc|p pob pob' v ov Hp Hok Hv Hpar Hk Hl'
                 |x ob c Hx Hok Hk Hc|x ob c Hx Hok Hk Hc Hr|x ob cb Hx Hok Hc
                 |x ob cb c Hx Hc Hv|t tm ob Htm Hst Ho Hok Ha|w tk oc Htk Hr Ho Hc
                 |w tk pob oc c Htk Hr Hp Hv Ho Hok Hk Hc].
  - apply (links_ok_born s _ (set_parent p (blank KContext))); [done|done|done| |done].
    simpl. intros q Hq. by apply Hp.
  - apply (links_ok_born s _ (fresh k p)); [done|done|done| |done].
    simpl. by intros q [= <-].
  - apply (links_ok_born s _ (armed_obj p (length (timers s))));
      [done|by destruct (cls pob)|done| |done].
    simpl. intros q [= <-]. by eapply lookup_lt_Some.
  - destruct (link_obj_Some _ _ _ Hl') as (w & -> & _).
    eapply (links_ok_update _ _ p pob); try done.
    simpl. intros w' c [= _ <-]. by exists ov.
  - destruct (reach_obj_fields c ob) as (E1 & E2 & E3 & E4 & E5 & E6 & E7 & E8 & E9).
    by eapply (links_ok_same _ _ x ob); [| |apply reaches_heap|..].
  - destruct (resolve_obj_fields c ob) as (E1 & E2 & E3 & E4 & E5 & E6 & E7 & E8 & E9 & E10).
    by eapply (links_ok_same _ _ x ob).
  - by eapply (links_ok_same _ _ x ob).
  - by apply (links_ok_host s).
  - eapply (links_ok_same _ _ (target tm) ob); try done;
      by rewrite (expire_obj_armed t ob Ha).
  - by apply (links_ok_host s).
  - destruct (reach_obj_fields c oc) as (E1 & E2 & E3 & E4 & E5 & E6 & E7 & E8 & E9).
    eapply (links_ok_same (woken w tk s) _ (waiting tk) oc);
      [by apply (links_ok_host s)|done|by apply reaches_heap|done|done|done].
Qed.

Lemma links_ok_boot : links_ok boot.
Proof. split; intros i ob; simpl; by rewrite lookup_nil. Qed.

Lemma reachable_links ops cfg : run ops start = Some cfg → links_ok (st cfg).
Proof.
  apply (reachable_invariant links_ok); [apply links_ok_boot|].
  intros s s'. apply block_links.
Qed.

(** X3. The scope a cancellation is handed on to is always a child of the
    scope that hands it on: whenever the [children] property of a scope
    holds a scope [c], then [c.getParent()] is that scope, [c] is a
    cancelable or deadline scope, and it was constructed later. *)
Theorem linked_child_is_child ops cfg i ob w c :
  run ops start = Some cfg → heap (st cfg) !! i = Some ob →
  children ob = Data w (Some c) →
  ∃ oc, heap (st cfg) !! c = Some oc
        ∧ getParent c (st cfg) = Ret (Some i) (st cfg)
        ∧ cls oc ≠ KContext ∧ i < c.
Proof.
  intros Hrun Hi Hc.
  pose proof (reachable_links _ _ Hrun) as Hl.
  destruct (lk_child _ Hl i ob w c Hi Hc) as (oc & Hoc & Hp & Hk).
  exists oc. split; [done|]. split; [|split; [done|by eapply (lk_parent _ Hl)]].
  by rewrite (getParent_eq _ _ _ Hoc), Hp.
Qed.

Lemma linked_child_is_child_witness :
  run history_cascade start = Some cascaded
  ∧ ∃ oc, heap (st cascaded) !! 2 = Some oc
          ∧ getParent 2 (st cascaded) = Ret (Some 1) (st cascaded)
          ∧ cls oc ≠ KContext ∧ 1 < 2.
Proof.
  split; [(vm_compute; reflexivity)|].
  apply (linked_child_is_child history_cascade cascaded 1
           (default (blank KContext) (heap (st cascaded) !! 1)) true 2);
    (vm_compute; reflexivity).
Defined.

(** * The signal *)

Lemma obj_more_born ob : born ob → obj_more ob.
Proof.
  intros [p|k p Hk|p t]; split; simpl; try done; try (by left).
Qed.

Lemma obj_more_step a b : obj_more a → obj_step a b → obj_more b.
Proof.
  intros [X T S] Hs.
  destruct Hs as [c ob Hok Hk Hc|c ob Hok Hk Hc|c ob Hok Hc Hr|t ob Hok Ha|cb ob Hok Hc
                 |v ob ob' Hok Hl].
  - destruct (cancel_obj_fields c ob) as (E1 & E2 & E3 & E4 & E5 & E6 & E7 & E8 & E9).
    split.
    + rewrite E3. done.
    + by rewrite E1, E7.
    + by rewrite E8, E1.
  - destruct (stop_obj_fields c ob) as (E1 & E2 & E3 & E4 & E5 & E6 & E7 & E8 & E9).
    split.
    + rewrite E3. done.
    + by rewrite E1, E7.
    + by rewrite E8, E1.
  - destruct (resolve_obj_fields c ob) as (E1 & E2 & E3 & E4 & E5 & E6 & E7 & E8 & E9 & E10).
    split.
    + rewrite E3, Hc. done.
    + by rewrite E1, E7.
    + by rewrite E9, E1.
  - rewrite (expire_obj_armed t ob Ha).
    pose proof (armed_signal t ob Hok Ha) as Hn.
    destruct Ha as [A1 A2 A3 A4 A5 A6].
    split; simpl; try done. intros _ _. by rewrite Hn.
  - by split.
  - unfold link_obj in Hl. destruct (children ob) as [|[] cur] eqn:Hch.
    + injection Hl as <-. split; simpl; try done. intros _. right. by eexists.
    + injection Hl as <-. split; simpl; try done.
      intros Hk. destruct (T Hk) as [?|[? ?]]; congruence.
    + destruct (decide (cur = Some v)); [|done]. injection Hl as <-.
      split; try done. by rewrite Hch.
Qed.

Lemma reachable_obj_more ops cfg i ob :
  run ops start = Some cfg → heap (st cfg) !! i = Some ob → obj_more ob.
Proof.
  apply (reachable_object (λ _ ob, obj_more ob)).
  - intros _ o Hb _. by apply obj_more_born.
  - intros _ a b. apply obj_more_step.
Qed.

Lemma getController_eq x ob s :
  heap s !! x = Some ob → getController x s = Ret (controller ob) s.
Proof. intros H. unfold getController. by rewrite (bind_Ret _ _ _ _ _ (read_eq _ _ _ H)). Qed.

Lemma obj_step_reason a b r :
  obj_step a b → controller a = Some r → controller b = Some r.
Proof.
  intros [c ob Hok Hk Hc|c ob Hok Hk Hc|c ob Hok Hc Hr|t ob Hok Ha|cb ob Hok Hc
         |v ob ob' Hok Hl] Hr'.
  - destruct (cancel_obj_fields c ob) as (E1 & E2 & E3 & E4 & E5 & E6 & E7 & E8 & E9).
    by rewrite E6, Hr'.
  - destruct (stop_obj_fields c ob) as (E1 & E2 & E3 & E4 & E5 & E6 & E7 & E8 & E9).
    by rewrite E6.
  - destruct (resolve_obj_fields c ob) as (E1 & E2 & E3 & E4 & E5 & E6 & E7 & E8 & E9 & E10).
    by rewrite E6.
  - rewrite (expire_obj_armed t ob Ha). simpl. by rewrite Hr'.
  - done.
  - by destruct (link_obj_Some _ _ _ Hl) as (w & -> & _).
Qed.

(** X5. Once the signal of a scope is aborted, its reason never changes:
    whatever operations follow, [getController().signal.reason] stays what
    the first abort made it, also when a later [cancel] replaces the
    cause. *)
Theorem abort_reason_fixed ops cfg more cfg' i r :
  run ops start = Some cfg → run more cfg = Some cfg' →
  getController i (st cfg) = Ret (Some r) (st cfg) →
  getController i (st cfg') = Ret (Some r) (st cfg').
Proof.
  intros Hrun Hmore Hg.
  unfold getController, bind, read in Hg.
  destruct (heap (st cfg) !! i) as [ob|] eqn:Hi; [|done].
  injection Hg as Hr.
  destruct (later_object (λ a b, ∀ r, controller a = Some r → controller b = Some r))
    with (5 := Hmore) (6 := Hi) as (ob' & Hi' & Hp).
  - done.
  - intros a b c Hab Hbc r' Ha. by apply Hbc, Hab.
  - intros a b Hs r'. by apply obj_step_reason.
  - by eapply reachable_inv.
  - rewrite (getController_eq _ _ _ Hi'). by rewrite (Hp r Hr).
Qed.

Lemma abort_reason_fixed_witness :
  run history_expired start = Some after_expiry
  ∧ ∃ cfg', run [Cancel 1 (Some "y"%string)] after_expiry = Some cfg'
            ∧ getController 1 (st cfg') = Ret (Some deadline_cause) (st cfg').
Proof.
  split; [(vm_compute; reflexivity)|].
  eexists. split; [(vm_compute; reflexivity)|].
  apply (abort_reason_fixed history_expired after_expiry
           [Cancel 1 (Some "y"%string)] _ 1); (vm_compute; reflexivity).
Defined.

(** * The scopes a cancellation reaches *)

Lemma cascade_path_ge n K s :
  wf K s → ∀ x i, i ∈ cascade_path n s x → x ≤ i.
Proof.
  intros Hwf. induction n as [|n IH]; intros x i; simpl.
  - by intros ?%elem_of_nil.
  - destruct (heap s !! x) as [ob|] eqn:Hx; [|by intros ?%elem_of_nil].
    destruct (canceled ob); [by intros ?%elem_of_nil|].
    intros [->|Hin]%elem_of_cons; [done|].
    destruct (children ob) as [|w [ch|]] eqn:Hch; try (by apply elem_of_nil in Hin).
    destruct (wf_link _ _ Hwf _ _ Hx _ _ Hch) as (Hlt & _).
    specialize (IH ch i Hin). lia.
Qed.

Lemma cascade_path_agree n K s s1 :
  wf K s →
  ∀ x, (∀ i, x ≤ i → heap s1 !! i = heap s !! i) →
       cascade_path n s1 x = cascade_path n s x.
Proof.
  intros Hwf. induction n as [|n IH]; intros x Hag; [done|]. simpl.
  rewrite Hag by lia.
  destruct (heap s !! x) as [ob|] eqn:Hx; [|done].
  destruct (canceled ob); [done|]. f_equal.
  destruct (children ob) as [|w [ch|]] eqn:Hch; try done.
  destruct (wf_link _ _ Hwf _ _ Hx _ _ Hch) as (Hlt & _).
  apply IH. intros i Hi. apply Hag. lia.
Qed.

Lemma cascade_path_fuel K s :
  wf K s →
  ∀ n m x, length (heap s) - x ≤ n → length (heap s) - x ≤ m →
           cascade_path n s x = cascade_path m s x.
Proof.
  intros Hwf. induction n as [|n IH]; intros m x Hn Hm.
  - destruct m as [|m]; [done|]. simpl.
    rewrite (lookup_ge_None_2 (heap s) x) by lia. done.
  - destruct m as [|m].
    + simpl. rewrite (lookup_ge_None_2 (heap s) x) by lia. done.
    + simpl. destruct (heap s !! x) as [ob|] eqn:Hx; [|done].
      destruct (canceled ob); [done|]. f_equal.
      destruct (children ob) as [|w [ch|]] eqn:Hch; try done.
      destruct (wf_link _ _ Hwf _ _ Hx _ _ Hch) as (Hlt & _).
      apply lookup_lt_Some in Hx. apply IH; lia.
Qed.

Lemma cascade_run_path n s :
  ∀ x i, i ∈ (cascade_run n s x).1 → i ∈ cascade_path n s x.
Proof.
  induction n as [|n IH]; intros x i; simpl; [done|].
  destruct (heap s !! x) as [ob|]; [|done].
  destruct (canceled ob); [done|].
  destruct (thrower (cancelCallback ob)).
  { simpl. intros [->|Hin]%elem_of_cons; [by left|by apply elem_of_nil in Hin]. }
  destruct (children ob) as [|w [ch|]]; simpl.
  - intros [->|Hin]%elem_of_cons; [by left|by apply elem_of_nil in Hin].
  - intros [->|Hin]%elem_of_cons; [by left|]. right. by apply IH.
  - intros [->|Hin]%elem_of_cons; [by left|by apply elem_of_nil in Hin].
Qed.

Lemma cascade_run_agree n K s s1 :
  wf K s →
  ∀ x, (∀ i, x ≤ i → heap s1 !! i = heap s !! i) →
       cascade_run n s1 x = cascade_run n s x.
Proof.
  intros Hwf. induction n as [|n IH]; intros x Hag; [done|]. simpl.
  rewrite Hag by lia.
  destruct (heap s !! x) as [ob|] eqn:Hx; [|done].
  destruct (canceled ob); [done|].
  destruct (thrower (cancelCallback ob)); [done|].
  destruct (children ob) as [|w [ch|]] eqn:Hch; try done.
  destruct (wf_link _ _ Hwf _ _ Hx _ _ Hch) as (Hlt & _).
  rewrite IH; [done|]. intros i Hi. apply Hag. lia.
Qed.

(** The course of a cancellation: it returns unless a listener on its way
    throws, and then it throws the same; the scopes it has marked are
    cancelled with its cause; and every other object is as it was, except
    that a deadline scope met cancelled has had its resolver called. *)
Lemma cancel_fuel_course n :
  ∀ K s x ob c,
    wf K s → heap s !! x = Some ob → callable ob →
    length (heap s) - x ≤ n →
    ∃ s',
      cancel_fuel n x c s = match (cascade_run n s x).2 with
                            | Threw k => Throw (Raised k) s'
                            | _ => Ret tt s'
                            end
      ∧ (∀ i, i ∈ (cascade_run n s x).1 →
              ∃ o', heap s' !! i = Some o' ∧ canceled o' = true ∧ cause o' = Some c)
      ∧ (∀ i, i ∉ (cascade_run n s x).1 →
              heap s' !! i = heap s !! i
              ∨ ((cascade_run n s x).2 = Met i
                 ∧ ∃ oi, heap s !! i = Some oi ∧ cls oi = KDeadlineContext
                         ∧ canceled oi = true
                         ∧ heap s' !! i = Some (resolve_obj c oi))).
Proof.
  induction n as [|n IH]; intros K s x ob c Hwf Hx Hcal Hn.
  { apply lookup_lt_Some in Hx. lia. }
  pose proof Hcal as [Hk Hres].
  simpl cascade_run. rewrite Hx.
  destruct (cancel_obj_fields c ob) as (E1 & E2 & E3 & E4 & E5 & E6 & E7 & E8 & E9).
  destruct (canceled ob) eqn:Hc.
  - exists (settled x ob c s). cbn [fst snd].
    split; [by eapply cancel_fuel_dead|].
    split; [by intros i ?%elem_of_nil|].
    intros i _. destruct (settled_state x ob c s) as (_ & _ & _ & T4).
    destruct (decide (i = x)) as [->|Hne]; [|left; by apply T4].
    pose proof (settled_lookup_eq x ob c s Hx) as Hx'.
    destruct (cls ob) eqn:Hcls.
    + by destruct Hk.
    + left. by rewrite Hx'.
    + right. split; [done|]. by exists ob.
  - destruct (thrower (cancelCallback ob)) as [k|] eqn:Hth.
    { exists (stopped x ob c s). cbn [fst snd].
      split; [by rewrite (cancel_fuel_live _ _ _ _ _ Hx Hk Hc), Hth|].
      destruct (stop_obj_fields c ob) as (S1 & S2 & S3 & S4 & _).
      split.
      - intros i [->|Hin]%elem_of_cons; [|by apply elem_of_nil in Hin].
        exists (stop_obj c ob). split; [by apply stopped_lookup_eq|done].
      - intros i Hi. left. apply stopped_lookup_ne.
        intros ->. apply Hi. by left. }
    destruct (cancel_fuel_unfold n K s x ob c Hwf Hx Hcal Hc Hth Hn)
      as (s2 & Hwf2 & Hx2 & _ & Hch).
    assert (∀ s3, heap s3 !! x = Some (cancel_obj c ob) →
              ∃ o', heap (settled x (cancel_obj c ob) c s3) !! x = Some o'
                    ∧ canceled o' = true ∧ cause o' = Some c) as Hx'.
    { intros s3 Hx3. eexists. split; [by apply settled_lookup_eq|].
      destruct (resolve_obj_fields c (cancel_obj c ob)) as (_ & _ & R3 & R4 & _).
      destruct (cls (cancel_obj c ob)); by rewrite ?R3, ?R4. }
    assert (∀ s3 i, i ≠ x → heap (settled x (cancel_obj c ob) c s3) !! i = heap s3 !! i)
      as Hfr.
    { intros s3 i Hi. by apply (settled_state x (cancel_obj c ob) c s3). }
    assert (s2 = entered x ob c s →
            cancel_fuel (S n) x c s = Ret tt (settled x (cancel_obj c ob) c s2) →
            ∃ s',
              cancel_fuel (S n) x c s = Ret tt s'
              ∧ (∀ i, i ∈ [x] →
                   ∃ o', heap s' !! i = Some o' ∧ canceled o' = true ∧ cause o' = Some c)
              ∧ (∀ i, i ∉ [x] →
                   heap s' !! i = heap s !! i
                   ∨ (Finished = Met i
                      ∧ ∃ oi, heap s !! i = Some oi ∧ cls oi = KDeadlineContext
                              ∧ canceled oi = true
                              ∧ heap s' !! i = Some (resolve_obj c oi)))) as Hleaf.
    { intros -> Hr. eexists. split; [exact Hr|]. split.
      - intros i [->|Hin]%elem_of_cons; [|by apply elem_of_nil in Hin]. by apply Hx'.
      - intros i Hi. left.
        assert (i ≠ x) as Hne by (intros ->; apply Hi; by left).
        rewrite Hfr by done. apply entered_lookup_ne. done. }
    destruct (children ob) as [|w [ch|]] eqn:Hchild.
    + destruct Hch as [H1 H2]. by apply Hleaf.
    + destruct Hch as (och & Hlt & Hoch & Hcc & Hout).
      pose proof (wf_entered K s x ob c Hwf Hx) as Hwf1.
      assert (heap (entered x ob c s) !! ch = Some och) as Hoch1
        by (rewrite entered_lookup_ne by lia; done).
      assert (length (heap (entered x ob c s)) - ch ≤ n) as Hn1
        by (rewrite (entered_length _ _ _ _ Hx); lia).
      destruct (IH K _ ch och c Hwf1 Hoch1 Hcc Hn1) as (s3 & I0 & I1 & I2).
      rewrite (cascade_run_agree n K s (entered x ob c s) Hwf) in I0, I1, I2
        by (intros i Hi; apply entered_lookup_ne; lia).
      cbn [fst snd].
      assert (∀ i, i ∈ (cascade_run n s ch).1 → x < i) as Hbelow.
      { intros i Hi. apply cascade_run_path in Hi.
        pose proof (cascade_path_ge n K s Hwf ch i Hi). lia. }
      assert (s3 = s2) as ->.
      { destruct Hout as [[Hr1 _]|(k & Hr1 & _)]; rewrite Hr1 in I0;
          destruct ((cascade_run n s ch).2); congruence. }
      assert (∀ s', (∀ i, i ≠ x → heap s' !! i = heap s2 !! i) →
                (∃ o', heap s' !! x = Some o' ∧ canceled o' = true ∧ cause o' = Some c) →
                (∀ i, i ∈ x :: (cascade_run n s ch).1 →
                   ∃ o', heap s' !! i = Some o' ∧ canceled o' = true ∧ cause o' = Some c)
                ∧ (∀ i, i ∉ x :: (cascade_run n s ch).1 →
                     heap s' !! i = heap s !! i
                     ∨ ((cascade_run n s ch).2 = Met i
                        ∧ ∃ oi, heap s !! i = Some oi ∧ cls oi = KDeadlineContext
                                ∧ canceled oi = true
                                ∧ heap s' !! i = Some (resolve_obj c oi)))) as Hrest.
      { intros s' Hs' Hxs'. split.
        - intros i [->|Hi]%elem_of_cons; [done|].
          specialize (Hbelow i Hi). rewrite Hs' by lia. by apply I1.
        - intros i Hi. apply not_elem_of_cons in Hi as [Hne Hi].
          rewrite Hs' by done.
          destruct (I2 i Hi) as [Il|(Im & oi & Hoi & Hr)].
          + left. rewrite Il. by apply entered_lookup_ne.
          + right. split; [done|]. exists oi. split; [|done].
            rewrite <- Hoi. symmetry. by apply entered_lookup_ne. }
      destruct Hout as [[Hr1 Hr2]|(k & Hr1 & Hr2)].
      * exists (settled x (cancel_obj c ob) c s2). split.
        { rewrite Hr1 in I0. destruct ((cascade_run n s ch).2); congruence. }
        apply Hrest; [intros i Hi; by apply Hfr|by apply Hx'].
      * exists s2. split.
        { rewrite Hr1 in I0. destruct ((cascade_run n s ch).2); congruence. }
        apply Hrest; [done|]. exists (cancel_obj c ob). done.
    + destruct Hch as [H1 H2]. by apply Hleaf.
Qed.

(** X7. What [cancel] reaches.  Called on a scope the client holds, in any
    reachable state, [cancel(c)] follows its course down the linked
    children: it marks the scopes that are not yet cancelled, until it runs
    out of children, meets a scope that is cancelled already, or a listener
    of a scope it has just marked throws.  It returns in the first two
    cases and throws what the listener threw in the third.  Afterwards
    every scope on the course is cancelled with cause [c]; none of them was
    constructed before the target; and every other object of the store is
    exactly as it was, except that a deadline scope met cancelled has had
    its resolver called, which fulfils its promise with [c] if it was
    still pending. *)
Theorem cancel_reaches_its_path ops cfg o c :
  run ops start = Some cfg → o ∈ known cfg → is_cancelable (st cfg) o = true →
  ∃ s', cancel o c (st cfg)
        = match (course (st cfg) o).2 with
          | Threw k => Throw (Raised k) s'
          | _ => Ret tt s'
          end
        ∧ (∀ i, i ∈ (course (st cfg) o).1 →
                o ≤ i ∧ ∃ ob', heap s' !! i = Some ob' ∧ canceled ob' = true
                               ∧ cause ob' = Some (default default_cause c))
        ∧ (∀ i, i ∉ (course (st cfg) o).1 →
                heap s' !! i = heap (st cfg) !! i
                ∨ ((course (st cfg) o).2 = Met i
                   ∧ ∃ oi, heap (st cfg) !! i = Some oi ∧ cls oi = KDeadlineContext
                           ∧ canceled oi = true
                           ∧ heap s' !! i
                             = Some (resolve_obj (default default_cause c) oi))).
Proof.
  intros Hrun Hin Hc.
  pose proof (reachable_inv _ _ Hrun) as Hwf. unfold inv in Hwf.
  destruct (is_cancelable_callable _ _ _ Hwf Hin Hc) as (ob & Ho & Hcal).
  destruct (cancel_fuel_course (length (heap (st cfg)) - o) (known cfg) (st cfg) o ob
              (default default_cause c) Hwf Ho Hcal) as (s' & H0 & H1 & H2); [done|].
  exists s'. split; [exact H0|]. split; [|exact H2].
  intros i Hi. split; [|by apply H1].
  apply cascade_run_path in Hi. by eapply cascade_path_ge.
Qed.

Lemma cancel_reaches_its_path_witness :
  run history_faulty start = Some faulty
  ∧ course (st faulty) 1 = ([1], Threw 7)
  ∧ ∃ s', cancel 1 (Some "x"%string) (st faulty) = Throw (Raised 7) s'
          ∧ heap s' !! 2 = heap (st faulty) !! 2.
Proof.
  split; [(vm_compute; reflexivity)|]. split; [(vm_compute; reflexivity)|].
  assert (run history_faulty start = Some faulty) as H1 by (vm_compute; reflexivity).
  assert (1 ∈ known faulty) as H2 by known_scope.
  destruct (cancel_reaches_its_path history_faulty faulty 1 (Some "x"%string)
              H1 H2 eq_refl) as (s' & E0 & _ & E2).
  exists s'. split; [exact E0|].
  destruct (E2 2) as [E|[E _]]; [|exact E|discriminate E].
  vm_compute. intros [E|E]%elem_of_cons; [discriminate E|by apply elem_of_nil in E].
Defined.

(** * Deadline scopes under a plain context *)

Lemma obj_step_frozen a b c :
  obj_step a b → children a = Data false (Some c) → children b = Data false (Some c).
Proof.
  intros [x ob Hok Hk Hc|x ob Hok Hk Hc|x ob Hok Hc Hr|t ob Hok Ha|cb ob Hok Hc
         |v ob ob' Hok Hl] Hch.
  - destruct (cancel_obj_fields x ob) as (E1 & E2 & E3 & E4 & E5 & E6 & E7 & E8 & E9).
    by rewrite E7.
  - destruct (stop_obj_fields x ob) as (E1 & E2 & E3 & E4 & E5 & E6 & E7 & E8 & E9).
    by rewrite E7.
  - destruct (resolve_obj_fields x ob) as (E1 & E2 & E3 & E4 & E5 & E6 & E7 & E8 & E9 & E10).
    by rewrite E7.
  - by rewrite (expire_obj_armed t ob Ha).
  - done.
  - unfold link_obj in Hl. rewrite Hch in Hl.
    destruct (decide (Some c = Some v)); [|done]. by injection Hl as <-.
Qed.

Lemma is_pending_scheduled x ms ob s :
  is_pending (scheduled x ms (grown ob s)) (length (timers s)) = true.
Proof. unfold is_pending, scheduled. simpl. by rewrite list_lookup_middle. Qed.

(** The constructor under a plain context whose [children] property
    exists: the timer is armed, and then [defineProperty] throws. *)
Lemma new_DeadlineContext_frozen K s p pob c ms :
  wf K s → heap s !! p = Some pob → cls pob = KContext →
  children pob = Data false (Some c) →
  new_DeadlineContext p ms s
  = Throw TypeError
      (scheduled (length (heap s)) ms (grown (armed_obj p (length (timers s))) s)).
Proof.
  intros Hwf Hp Hk Hch.
  rewrite (new_DeadlineContext_eq p ms pob s Hp). cbv zeta. rewrite Hk.
  unfold link_obj. rewrite Hch.
  destruct (wf_link _ _ Hwf _ _ Hp _ _ Hch) as (_ & oc & Hoc & _).
  apply lookup_lt_Some in Hoc.
  destruct (decide (Some c = Some (length (heap s)))) as [[= ->]|]; [lia|done].
Qed.

(** X8. Under a plain [Context] only one [DeadlineContext] can ever be
    constructed.  Once [new DeadlineContext(p, ms)] has been called on a
    plain context [p], whether it returned or threw, every later
    [new DeadlineContext(p, ms')] throws a [TypeError], whatever happened in
    between: the [children] property it defined on [p] is read-only.  The
    call throws after it has armed its timer, which stays pending although
    no scope is returned. *)
Theorem deadline_once_under_plain_context ops cfg p pob ms cfg1 more cfg2 ms' :
  run ops start = Some cfg → heap (st cfg) !! p = Some pob → cls pob = KContext →
  exec (NewDeadline p ms) cfg = Some cfg1 → run more cfg1 = Some cfg2 →
  ∃ s3, new_DeadlineContext p ms' (st cfg2) = Throw TypeError s3
        ∧ is_pending s3 (length (timers (st cfg2))) = true.
Proof.
  intros Hrun Hp Hk He Hmore.
  pose proof (reachable_inv _ _ Hrun) as Hinv.
  destruct (exec_inv _ _ _ Hinv He) as (Hinv1 & _ & _).
  pose proof (run_inv _ _ _ Hinv1 Hmore) as Hwf2. unfold inv in Hwf2.
  assert (∃ pob1 c, heap (st cfg1) !! p = Some pob1 ∧ cls pob1 = KContext
                    ∧ children pob1 = Data false (Some c)) as (pob1 & c & Hp1 & Hk1 & Hc1).
  { unfold exec in He. destruct (enabled (NewDeadline p ms) cfg); [|done].
    simpl in He. unfold bind in He.
    rewrite (new_DeadlineContext_eq p ms pob (st cfg) Hp) in He. cbv zeta in He.
    rewrite Hk in He.
    set (s2 := scheduled _ _ _) in He.
    assert (heap s2 !! p = Some pob) as Hp2 by (by apply grown_lookup_old).
    destruct (om_root _ (reachable_obj_more _ _ _ _ Hrun Hp) Hk) as [Ha|[c Hc]].
    - unfold link_obj in He. rewrite Ha in He. injection He as <-. simpl st.
      eexists _, _. split; [by eapply put_lookup_eq|]. by split.
    - exists pob, c. split; [|done].
      destruct (link_obj (length (heap (st cfg))) pob) as [pob'|] eqn:Hl.
      + unfold link_obj in Hl. rewrite Hc in Hl.
        destruct (decide _); [|done]. injection Hl as <-. injection He as <-.
        by eapply put_lookup_eq.
      + by injection He as <-. }
  destruct (later_object (λ a b, cls b = cls a
                                 ∧ ∀ c, children a = Data false (Some c) →
                                        children b = Data false (Some c)))
    with (5 := Hmore) (6 := Hp1) as (pob2 & Hp2 & Hk2 & Hc2).
  - done.
  - intros x y z [H1 H2] [H3 H4]. split; [congruence|]. intros c' Hc'. by apply H4, H2.
  - intros x y Hs. split; [by destruct (obj_step_shape x y Hs)|].
    intros c'. by apply obj_step_frozen.
  - done.
  - eexists. split.
    + eapply (new_DeadlineContext_frozen _ _ p pob2 c); [done|done|congruence|by apply Hc2].
    + apply is_pending_scheduled.
Qed.

Lemma deadline_once_under_plain_context_witness :
  run history_expired start = Some after_expiry
  ∧ ∃ s3, new_DeadlineContext 0 5 (st after_expiry) = Throw TypeError s3
          ∧ is_pending s3 (length (timers (st after_expiry))) = true.
Proof.
  split; [(vm_compute; reflexivity)|].
  eapply (deadline_once_under_plain_context [Todo] _ 0 _ 1000 _ [TimerFires 0]
            after_expiry 5); (vm_compute; reflexivity).
Defined.

(** * Which operations throw *)

Lemma course_host s s1 x K :
  wf K s → heap s1 = heap s → course s1 x = course s x.
Proof.
  intros Hwf Hh. unfold course. rewrite Hh.
  apply (cascade_run_agree _ K s s1 Hwf). intros i _. by rewrite Hh.
Qed.

(** X9. Which operations throw, and what.  In a reachable state every
    operation a client or the event loop can perform returns, with two
    kinds of exception.  A callback of the client that throws makes the
    operation that calls it throw the same: a [cancel], by the client or
    in a resumed continuation, when a listener on its course throws, and
    [onCancel] on a cancelled scope when the callback passed to it throws.
    And the constructor of a deadline scope throws a [TypeError] when the
    parent is a cancelled cancelable or deadline scope, or a plain context
    that already has a [children] property.  The other constructors and
    an expiring timer never throw. *)
Theorem throws_exactly ops cfg op :
  run ops start = Some cfg → enabled op cfg = true →
  match raises (st cfg) op with
  | Some k => ∃ s', perform op (st cfg) = Throw (Raised k) s'
  | None =>
      if refuses (st cfg) op
      then ∃ s', perform op (st cfg) = Throw TypeError s'
      else ∃ r s', perform op (st cfg) = Ret r s'
  end.
Proof.
  intros Hrun Hen.
  pose proof (reachable_inv _ _ Hrun) as Hwf. unfold inv in Hwf.
  destruct op as [| |p|p|p ms|o c|o cb|t|w]; simpl in Hen; simpl raises; simpl refuses;
    simpl perform.
  - rewrite (bind_Ret _ _ _ _ _ (new_Context_eq None _)). by eexists _, _.
  - rewrite (bind_Ret _ _ _ _ _ (new_Context_eq None _)). by eexists _, _.
  - rewrite (bind_Ret _ _ _ _ _ (new_Context_eq p _)). by eexists _, _.
  - apply holds_known in Hen.
    destruct (new_CancelableContext_sound (NewCancelable p) _ _ p Hwf Hen)
      as (s' & Hs' & _).
    rewrite (bind_Ret _ _ _ _ _ Hs'). by eexists _, _.
  - apply holds_known in Hen.
    destruct (wf_known _ _ Hwf p Hen) as (pob & Hp & _).
    pose proof (wf_obj _ _ Hwf _ _ Hp) as Hok.
    rewrite Hp. unfold bind.
    rewrite (new_DeadlineContext_eq p ms pob _ Hp). cbv zeta.
    destruct (cls pob) eqn:Hk.
    + destruct (om_root _ (reachable_obj_more _ _ _ _ Hrun Hp) Hk) as [Ha|[c Hc]].
      * rewrite Ha. unfold link_obj. rewrite Ha. by eexists _, _.
      * rewrite Hc. unfold link_obj. rewrite Hc.
        destruct (wf_link _ _ Hwf _ _ Hp _ _ Hc) as (_ & oc & Hoc & _).
        apply lookup_lt_Some in Hoc.
        destruct (decide (Some c = Some (length (heap (st cfg))))) as [[= ->]|]; [lia|].
        by eexists.
    + destruct (canceled pob) eqn:Hc.
      * destruct (cause pob) as [x|] eqn:Hx; [by eexists|].
        by destruct (ok_cause _ Hok Hc).
      * rewrite link_obj_cancelable by (done || congruence). by eexists _, _.
    + destruct (canceled pob) eqn:Hc.
      * destruct (cause pob) as [x|] eqn:Hx; [by eexists|].
        by destruct (ok_cause _ Hok Hc).
      * rewrite link_obj_cancelable by (done || congruence). by eexists _, _.
  - apply andb_true_iff in Hen as [Hin Hc]. apply holds_known in Hin.
    destruct (is_cancelable_callable _ _ _ Hwf Hin Hc) as (ob & Ho & Hcal).
    destruct (cancel_fuel_course (length (heap (st cfg)) - o) (known cfg) (st cfg) o ob
                (default default_cause c) Hwf Ho Hcal) as (s' & H0 & _); [done|].
    unfold cancel, bind, invoke_cancel. rewrite H0. unfold course.
    destruct ((cascade_run (length (heap (st cfg)) - o) (st cfg) o).2);
      [by eexists _, _|by eexists _, _|by eexists].
  - apply andb_true_iff in Hen as [Hin Hc]. apply holds_known in Hin.
    destruct (is_cancelable_callable _ _ _ Hwf Hin Hc) as (ob & Ho & Hcal).
    pose proof (wf_obj _ _ Hwf _ _ Ho) as Hok.
    rewrite Ho. unfold bind.
    destruct (canceled ob) eqn:Hcan.
    + destruct (cause ob) as [x|] eqn:Hx; [|by destruct (ok_cause _ Hok Hcan)].
      rewrite (onCancel_dead _ _ _ _ _ Ho Hcan Hx).
      destruct cb; [by eexists _, _|by eexists].
    + rewrite (onCancel_live _ _ _ _ Ho Hcan). destruct cb; by eexists _, _.
  - destruct (fire_sound (TimerFires t) _ _ t Hwf Hen) as (s' & Hs' & _).
    rewrite (bind_Ret _ _ _ _ _ Hs'). by eexists _, _.
  - unfold is_ready in Hen.
    destruct (waiters (st cfg) !! w) as [tk|] eqn:Htk; [|done].
    apply andb_true_iff in Hen as [Hres Hful].
    apply negb_true_iff in Hres.
    destruct (wf_waiter _ _ Hwf w tk Htk Hres) as (_ & oc & Hoc & Hcal).
    unfold is_fulfilled in Hful.
    destruct (heap (st cfg) !! awaited tk) as [pob|] eqn:Hp; [|done].
    destruct (_done pob) as [v|] eqn:Hd; [|done].
    pose proof (wf_obj _ _ Hwf _ _ Hp) as Hok.
    destruct (cause pob) as [x|] eqn:Hx; [|destruct (ok_done _ Hok); congruence].
    pose proof (wf_resumed _ _ w tk Hwf Htk) as Hwf1.
    fold (woken w tk (st cfg)) in Hwf1.
    assert (heap (woken w tk (st cfg)) !! awaited tk = Some pob) as Hp1 by done.
    assert (heap (woken w tk (st cfg)) !! waiting tk = Some oc) as Hoc1 by done.
    destruct (cancel_fuel_course (length (heap (st cfg)) - waiting tk) (known cfg)
                (woken w tk (st cfg)) (waiting tk) oc x Hwf1 Hoc1 Hcal)
      as (s' & H0 & _); [done|].
    rewrite (cascade_run_agree _ (known cfg) (st cfg) (woken w tk (st cfg)) Hwf) in H0
      by done.
    assert (resume w (st cfg)
            = cancel_fuel (length (heap (st cfg)) - waiting tk) (waiting tk) x
                (woken w tk (st cfg))) as Hres'.
    { unfold resume. rewrite Htk, Hres. fold (woken w tk (st cfg)).
      rewrite (bind_Ret _ _ _ _ _ (getCause_eq _ _ _ Hp1)), Hx.
      by erewrite (bind_Ret (nonnull _)) by reflexivity. }
    unfold bind. rewrite Hres', H0. unfold course.
    destruct ((cascade_run (length (heap (st cfg)) - waiting tk) (st cfg) (waiting tk)).2);
      [by eexists _, _|by eexists _, _|by eexists].
Qed.

Lemma throws_exactly_witness :
  run history_faulty start = Some faulty
  ∧ (∃ s', perform (Cancel 1 None) (st faulty) = Throw (Raised 7) s')
  ∧ (∃ r s', perform (OnCancel 1 (Throwing 9)) (st faulty) = Ret r s')
  ∧ (∃ r s', perform (NewDeadline 1 1000) (st faulty) = Ret r s').
Proof.
  split; [(vm_compute; reflexivity)|].
  assert (run history_faulty start = Some faulty) as H1 by (vm_compute; reflexivity).
  split; [|split].
  - exact (throws_exactly history_faulty faulty (Cancel 1 None) H1 eq_refl).
  - exact (throws_exactly history_faulty faulty (OnCancel 1 (Throwing 9)) H1 eq_refl).
  - exact (throws_exactly history_faulty faulty (NewDeadline 1 1000) H1 eq_refl).
Defined.

(** * The cancel function of [withCancel] and [withTimeout] *)

(** The effective [cancel] of a scope with no listener that throws and no
    linked child. *)
Lemma invoke_cancel_childless K s x ob c w :
  wf K s → heap s !! x = Some ob → callable ob → canceled ob = false →
  thrower (cancelCallback ob) = None →
  children ob = Data w None →
  invoke_cancel x c s = Ret tt (settled x (cancel_obj c ob) c (entered x ob c s)).
Proof.
  intros Hwf Hx Hcal Hc Hth Hch.
  destruct (invoke_cancel_unfold K s x ob c Hwf Hx Hcal Hc Hth) as (s2 & _ & _ & _ & H).
  rewrite Hch in H. by destruct H as [-> H].
Qed.

(** The scope [new CancelableContext(p)] returns: a fresh one, unless the
    parent is a cancelled scope, and then one cancelled with the parent's
    cause. *)
Lemma new_CancelableContext_scope K s p pob :
  wf K s → p ∈ K → heap s !! p = Some pob →
  ∃ s1 ob1,
    new_CancelableContext p s = Ret (length (heap s)) s1
    ∧ wf (K ++ [length (heap s)]) s1
    ∧ heap s1 !! length (heap s) = Some ob1
    ∧ cls ob1 = KCancelableContext
    ∧ ((ob1 = fresh KCancelableContext p ∧ (cls pob = KContext ∨ canceled pob = false))
       ∨ (canceled ob1 = true ∧ cause ob1 = cause pob
          ∧ cls pob ≠ KContext ∧ canceled pob = true)).
Proof.
  intros Hwf Hin Hp.
  destruct (new_CancelableContext_sound (NewCancelable p) K s p Hwf Hin)
    as (s1 & Hs1 & [W1 _]).
  exists s1. pose proof Hs1 as Hs1'.
  rewrite (new_CancelableContext_eq p pob s Hp) in Hs1'. cbv zeta in Hs1'.
  pose proof (lookup_lt_Some _ _ _ Hp) as Hlt.
  pose proof (grown_lookup_new (fresh KCancelableContext p) s) as Hnew.
  assert (match (if canceled pob then
                   match cause pob with
                   | Some x => Ret (length (heap s))
                                 (marked (length (heap s)) (fresh KCancelableContext p) x
                                         (grown (fresh KCancelableContext p) s))
                   | None => Wrong
                   end
                 else
                   match link_obj (length (heap s)) pob with
                   | Some pob' => Ret (length (heap s))
                                    (put p pob' (grown (fresh KCancelableContext p) s))
                   | None => Throw TypeError (grown (fresh KCancelableContext p) s)
                   end) with
          | Ret _ s' => s' = s1
          | _ => False
          end →
          cls pob ≠ KContext →
          ∃ ob1, heap s1 !! length (heap s) = Some ob1
                 ∧ cls ob1 = KCancelableContext
                 ∧ ((ob1 = fresh KCancelableContext p
                     ∧ (cls pob = KContext ∨ canceled pob = false))
                    ∨ (canceled ob1 = true ∧ cause ob1 = cause pob
                       ∧ cls pob ≠ KContext ∧ canceled pob = true))) as Hcase.
  { intros Hm Hk. destruct (canceled pob) eqn:Hc.
    - destruct (cause pob) as [x|] eqn:Hx; [|done]. subst s1.
      exists (mark_obj x (fresh KCancelableContext p)).
      split; [by eapply marked_lookup_eq|]. split; [done|]. right. by repeat split.
    - destruct (link_obj (length (heap s)) pob) as [pob'|]; [|done]. subst s1.
      exists (fresh KCancelableContext p).
      split; [rewrite put_lookup_ne by lia; done|]. split; [done|]. left. by split; [|right]. }
  destruct (cls pob) eqn:Hk.
  - injection Hs1' as <-. exists (fresh KCancelableContext p).
    do 4 (split; [done|]). left. by split; [|left].
  - destruct Hcase as (ob1 & H1 & H2 & H3); [by rewrite Hs1'|done|].
    exists ob1. by do 4 (split; [done|]).
  - destruct Hcase as (ob1 & H1 & H2 & H3); [by rewrite Hs1'|done|].
    exists ob1. by do 4 (split; [done|]).
Qed.

(** X10. [withCancel(p)] returns the scope [new CancelableContext(p)]
    constructs, together with a function that cancels it: after the
    function has been called the scope is cancelled, with the parent's
    cause when the parent was already cancelled at construction, and
    otherwise with the cause passed to the function, or
    ["context canceled"] when none is passed; calling the function again
    changes nothing. *)
Theorem withCancel_cancel_function ops cfg p pob c :
  run ops start = Some cfg → p ∈ known cfg → heap (st cfg) !! p = Some pob →
  ∃ f s1 s2,
    withCancel p (st cfg) = Ret (length (heap (st cfg)), f) s1
    ∧ f c s1 = Ret tt s2
    ∧ isCancelled (length (heap (st cfg))) s2 = Ret true s2
    ∧ getCause (length (heap (st cfg))) s2
      = Ret (match cls pob with
             | KContext => Some (default default_cause c)
             | _ => if canceled pob then cause pob
                    else Some (default default_cause c)
             end) s2
    ∧ ∀ c2, f c2 s2 = Ret tt s2.
Proof.
  intros Hrun Hin Hp.
  pose proof (reachable_inv _ _ Hrun) as Hwf. unfold inv in Hwf.
  destruct (new_CancelableContext_scope _ _ p pob Hwf Hin Hp)
    as (s1 & ob1 & Hs1 & Hwf1 & Ho1 & Hk1 & Hcase).
  set (ctx := length (heap (st cfg))) in *.
  set (c' := default default_cause c).
  assert (callable ob1) as Hcal by (split; congruence).
  exists (λ c, cancel ctx c), s1.
  unfold withCancel. rewrite (bind_Ret _ _ _ _ _ Hs1).
  assert (∀ s ob, wf (known cfg ++ [ctx]) s → heap s !! ctx = Some ob →
            cls ob = KCancelableContext → canceled ob = true →
            ∀ c2, cancel ctx c2 s = Ret tt s) as Hagain.
  { intros s ob Hwfs Hos Hks Hcs c2. unfold cancel.
    rewrite (invoke_cancel_dead (known cfg ++ [ctx]) s ctx ob); try done.
    - f_equal. apply settled_fulfilled; [done|congruence].
    - split; congruence. }
  destruct Hcase as [(-> & Hpar)|(Hdead & Hcause & Hk & Hc)].
  - pose proof (invoke_cancel_childless _ s1 ctx _ c' true Hwf1 Ho1 Hcal
                  eq_refl eq_refl eq_refl) as Hs2.
    destruct (invoke_cancel_sound _ s1 ctx _ c' Hwf1 Ho1 Hcal) as (s2 & Hs2' & [W2 _ _]).
    rewrite Hs2 in Hs2'. apply ends_Ret in Hs2' as ->.
    set (ob2 := cancel_obj c' (fresh KCancelableContext p)) in *.
    assert (heap (settled ctx ob2 c'
                    (entered ctx (fresh KCancelableContext p) c' s1)) !! ctx
            = Some ob2) as Ho2.
    { rewrite (settled_lookup_eq _ ob2); [done|]. by apply entered_lookup_eq. }
    destruct (isCancelled_getCause _ _ _ Ho2) as [G1 G2].
    eexists. split; [done|]. split; [exact Hs2|].
    split; [by rewrite G1|]. split.
    + rewrite G2. change (cause ob2) with (Some c').
      destruct Hpar as [->|Hpc]; [done|]. rewrite Hpc. by destruct (cls pob).
    + by apply (Hagain _ ob2).
  - destruct (isCancelled_getCause _ _ _ Ho1) as [G1 G2].
    exists s1. split; [done|].
    split; [by apply (Hagain _ ob1)|].
    split; [by rewrite G1, Hdead|]. split.
    + rewrite G2, Hcause, Hc. by destruct (cls pob).
    + by apply (Hagain _ ob1).
Qed.

Lemma withCancel_cancel_function_witness :
  run history_family start = Some family
  ∧ ∃ f s1 s2,
      withCancel 2 (st family) = Ret (3, f) s1
      ∧ f None s1 = Ret tt s2
      ∧ isCancelled 3 s2 = Ret true s2
      ∧ getCause 3 s2 = Ret (Some "context canceled"%string) s2
      ∧ ∀ c2, f c2 s2 = Ret tt s2.
Proof.
  split; [vm_compute; reflexivity|].
  assert (run history_family start = Some family) as H1 by (vm_compute; reflexivity).
  assert (2 ∈ known family) as H2 by known_scope.
  exact (withCancel_cancel_function history_family family 2
           (default (blank KContext) (heap (st family) !! 2)) None H1 H2 eq_refl).
Defined.

(** The scope [new DeadlineContext(p, ms)] returns when it returns: live,
    with its timer pending. *)
Lemma new_DeadlineContext_scope K s p pob ms :
  wf K s → p ∈ K → heap s !! p = Some pob →
  refuses s (NewDeadline p ms) = false →
  ∃ s1, new_DeadlineContext p ms s = Ret (length (heap s)) s1
        ∧ wf (K ++ [length (heap s)]) s1
        ∧ heap s1 !! length (heap s) = Some (armed_obj p (length (timers s)))
        ∧ timers s1 = timers s ++ [mkTimer (length (heap s)) ms Pending].
Proof.
  intros Hwf Hin Hp Href. simpl in Href. rewrite Hp in Href.
  pose proof (wf_obj _ _ Hwf _ _ Hp) as Hok.
  pose proof (lookup_lt_Some _ _ _ Hp) as Hlt.
  pose proof (new_DeadlineContext_eq p ms pob s Hp) as Heq. cbv zeta in Heq.
  set (this := length (heap s)) in *.
  set (s2 := scheduled this ms (grown (armed_obj p (length (timers s))) s)) in *.
  assert (heap s2 !! this = Some (armed_obj p (length (timers s)))) as Hnew
    by apply grown_lookup_new.
  assert (∃ pob' s1, new_DeadlineContext p ms s = Ret this s1
                     ∧ s1 = put p pob' (match cls pob with
                                        | KDeadlineContext => parked p this s2
                                        | _ => s2
                                        end)) as (pob' & s1 & Hs1 & ->).
  { destruct (cls pob) eqn:Hk.
    - destruct (children pob) as [|] eqn:Hch; [|done].
      unfold link_obj in Heq. rewrite Hch in Heq. by eexists _, _.
    - rewrite Href in Heq. rewrite link_obj_cancelable in Heq by (done || congruence).
      by eexists _, _.
    - rewrite Href in Heq. rewrite link_obj_cancelable in Heq by (done || congruence).
      by eexists _, _. }
  eexists. split; [done|].
  destruct (new_DeadlineContext_sound (NewDeadline p ms) K s p ms Hwf Hin)
    as [(s' & Hs' & [W _])|(s' & Hs' & _)]; [|congruence].
  assert (s' = put p pob' (match cls pob with
                           | KDeadlineContext => parked p this s2
                           | _ => s2
                           end)) as -> by congruence.
  split; [done|]. split.
  - rewrite put_lookup_ne by lia. by destruct (cls pob).
  - by destruct (cls pob).
Qed.

(** X11. [withTimeout(p, ms)], when the constructor is not refused,
    returns a live deadline scope whose timer is pending, together with a
    function that cancels it: after the function has been called the scope
    is cancelled with the cause passed to it (["context canceled"] when
    none is passed), its promise [done] is fulfilled with that cause, and
    its timer is no longer pending, so that the deadline never takes
    effect; calling the function again changes nothing. *)
Theorem withTimeout_cancel_function ops cfg p ms c :
  run ops start = Some cfg → p ∈ known cfg →
  refuses (st cfg) (NewDeadline p ms) = false →
  ∃ f s1 s2,
    withTimeout p ms (st cfg) = Ret (length (heap (st cfg)), f) s1
    ∧ is_pending s1 (length (timers (st cfg))) = true
    ∧ f c s1 = Ret tt s2
    ∧ isCancelled (length (heap (st cfg))) s2 = Ret true s2
    ∧ getCause (length (heap (st cfg))) s2
      = Ret (Some (default default_cause c)) s2
    ∧ DeadlineContext_done (length (heap (st cfg))) s2
      = Ret (Some (default default_cause c)) s2
    ∧ is_pending s2 (length (timers (st cfg))) = false
    ∧ ∀ c2, f c2 s2 = Ret tt s2.
Proof.
  intros Hrun Hin Href.
  pose proof (reachable_inv _ _ Hrun) as Hwf. unfold inv in Hwf.
  destruct (wf_known _ _ Hwf p Hin) as (pob & Hp & _).
  destruct (new_DeadlineContext_scope _ _ p pob ms Hwf Hin Hp Href)
    as (s1 & Hs1 & Hwf1 & Ho1 & Ht1).
  set (ctx := length (heap (st cfg))) in *.
  set (t := length (timers (st cfg))) in *.
  set (c' := default default_cause c).
  set (ob1 := armed_obj p t) in *.
  assert (callable ob1) as Hcal by (by split).
  exists (λ c, cancel ctx c), s1.
  unfold withTimeout. rewrite (bind_Ret _ _ _ _ _ Hs1).
  pose proof (invoke_cancel_childless _ s1 ctx ob1 c' true Hwf1 Ho1 Hcal
                eq_refl eq_refl eq_refl) as Hs2.
  destruct (invoke_cancel_sound _ s1 ctx ob1 c' Hwf1 Ho1 Hcal) as (s2 & Hs2' & [W2 _ _]).
  rewrite Hs2 in Hs2'. apply ends_Ret in Hs2' as ->.
  eexists. split; [done|].
  split. { unfold is_pending. rewrite Ht1, list_lookup_middle by done. done. }
  split; [exact Hs2|].
  set (ob2 := resolve_obj c' (cancel_obj c' ob1)).
  assert (heap (settled ctx (cancel_obj c' ob1) c' (entered ctx ob1 c' s1)) !! ctx
          = Some ob2) as Ho2.
  { rewrite (settled_lookup_eq _ (cancel_obj c' ob1)); [done|]. by apply entered_lookup_eq. }
  destruct (isCancelled_getCause _ _ _ Ho2) as [G1 G2].
  split; [by rewrite G1|]. split; [by rewrite G2|].
  split; [by rewrite (DeadlineContext_done_eq _ _ _ Ho2)|].
  split.
  - unfold is_pending. simpl timers. rewrite Ht1.
    destruct (disarm t (timers (st cfg) ++ [mkTimer ctx ms Pending]) !! t) as [tm|] eqn:Htm;
      [|done].
    apply disarm_not_pending in Htm. by destruct (status tm).
  - intros c2. unfold cancel.
    rewrite (invoke_cancel_dead (known cfg ++ [ctx]) _ ctx ob2); try done.
    f_equal. by apply settled_fulfilled.
Qed.

Lemma withTimeout_cancel_function_witness :
  run history_family start = Some family
  ∧ ∃ f s1 s2,
      withTimeout 1 1000 (st family) = Ret (3, f) s1
      ∧ is_pending s1 0 = true
      ∧ f (Some "stop"%string) s1 = Ret tt s2
      ∧ isCancelled 3 s2 = Ret true s2
      ∧ getCause 3 s2 = Ret (Some "stop"%string) s2
      ∧ DeadlineContext_done 3 s2 = Ret (Some "stop"%string) s2
      ∧ is_pending s2 0 = false
      ∧ ∀ c2, f c2 s2 = Ret tt s2.
Proof.
  split; [vm_compute; reflexivity|].
  assert (run history_family start = Some family) as H1 by (vm_compute; reflexivity).
  assert (1 ∈ known family) as H2 by known_scope.
  exact (withTimeout_cancel_function history_family family 1 1000
           (Some "stop"%string) H1 H2 eq_refl).
Defined.

(** * A cancel after the deadline *)

(** X12. After the timer of a deadline scope has expired, a [cancel(c)]
    still takes effect.  The scope becomes cancelled and [getCause()]
    changes from ["context deadline exceeded"] to [c], while the promise
    [done] and the abort reason of the signal keep
    ["context deadline exceeded"].  If no listener of the scope throws,
    every listener is called with [c], in registration order, and then
    [controller.abort(c)] is called, before anything the cascade does; the
    call returns, or throws what a listener further down has thrown.  If
    a listener of the scope throws, the call throws the same, and what has
    happened is the calls of the listeners up to that one, with [c]. *)
Theorem cancel_after_expiry ops cfg d ob c :
  run ops start = Some cfg → d ∈ known cfg →
  heap (st cfg) !! d = Some ob → expired ob →
  ∃ s', ends (cancel d c (st cfg)) s'
        ∧ isCancelled d s' = Ret true s'
        ∧ getCause d s' = Ret (Some (default default_cause c)) s'
        ∧ getController d s' = Ret (Some deadline_cause) s'
        ∧ DeadlineContext_done d s' = Ret (Some deadline_cause) s'
        ∧ match thrower (cancelCallback ob) with
          | None =>
              ∃ evs, trace s'
                     = trace (st cfg)
                       ++ notify d (default default_cause c) (cancelCallback ob)
                       ++ [Abort d (default default_cause c)] ++ evs
          | Some k =>
              cancel d c (st cfg) = Throw (Raised k) s'
              ∧ trace s'
                = trace (st cfg)
                  ++ notify d (default default_cause c) (reached (cancelCallback ob))
          end.
Proof.
  intros Hrun Hin Hd (Hk & Hc & Hv & Hdn).
  pose proof (reachable_inv _ _ Hrun) as Hwf. unfold inv in Hwf.
  assert (callable ob) as Hcal
    by (eapply known_callable; [by eapply reachable_inv|done|done|congruence]).
  assert (controller ob = Some deadline_cause) as Hctl.
  { apply (om_expired _ (reachable_obj_more _ _ _ _ Hrun Hd)); [done|congruence]. }
  set (c' := default default_cause c).
  destruct (cancel_obj_fields c' ob) as (E1 & E2 & E3 & E4 & E5 & E6 & E7 & E8 & E9).
  destruct (stop_obj_fields c' ob) as (S1 & S2 & S3 & S4 & S5 & S6 & S7 & S8 & S9).
  assert (∀ s' ob', heap s' !! d = Some ob' →
            canceled ob' = true → cause ob' = Some c' →
            controller ob' = Some deadline_cause → _done ob' = Some deadline_cause →
            isCancelled d s' = Ret true s'
            ∧ getCause d s' = Ret (Some c') s'
            ∧ getController d s' = Ret (Some deadline_cause) s'
            ∧ DeadlineContext_done d s' = Ret (Some deadline_cause) s') as Hget.
  { intros s' ob' Hd' H1 H2 H3 H4.
    rewrite (isCancelled_eq _ _ _ Hd'), (getCause_eq _ _ _ Hd'),
            (getController_eq _ _ _ Hd'), (DeadlineContext_done_eq _ _ _ Hd').
    by rewrite H1, H2, H3, H4. }
  unfold cancel. fold c'.
  destruct (thrower (cancelCallback ob)) as [k|] eqn:Hth.
  - pose proof (invoke_cancel_stopped (st cfg) d ob c' k Hd (proj1 Hcal) Hc Hth) as Hs'.
    exists (stopped d ob c' (st cfg)).
    split; [right; by exists k|].
    destruct (Hget (stopped d ob c' (st cfg)) (stop_obj c' ob)) as (G1 & G2 & G3 & G4);
      [by apply stopped_lookup_eq|done|done|congruence|congruence|].
    do 4 (split; [done|]). split; [done|apply stopped_trace].
  - destruct (invoke_cancel_unfold _ _ _ _ c' Hwf Hd Hcal Hc Hth)
      as (s2 & Hwf2 & Hd2 & Hadv & Hch).
    destruct (adv_trace _ _ Hadv) as [evs Hevs].
    rewrite entered_trace in Hevs.
    assert (resolve_obj c' (cancel_obj c' ob) = cancel_obj c' ob) as Hsame
      by (apply resolve_obj_fulfilled; congruence).
    assert (heap (settled d (cancel_obj c' ob) c' s2) !! d = Some (cancel_obj c' ob))
      as Hd3.
    { rewrite (settled_lookup_eq _ _ _ _ Hd2), Hsame. by destruct (cls (cancel_obj c' ob)). }
    assert (trace (settled d (cancel_obj c' ob) c' s2) = trace s2) as Htr
      by apply settled_state.
    assert (ends (invoke_cancel d c' (st cfg)) (settled d (cancel_obj c' ob) c' s2)
            ∨ ends (invoke_cancel d c' (st cfg)) s2) as [He|He].
    { destruct (children ob) as [|w [ch|]].
      - left. left. exists tt. by destruct Hch.
      - destruct Hch as (och & _ & _ & _ & [[_ H]|(k & _ & H)]).
        + left. left. by exists tt.
        + right. right. by exists k.
      - left. left. exists tt. by destruct Hch. }
    + eexists. split; [exact He|].
      destruct (Hget _ _ Hd3) as (G1 & G2 & G3 & G4); try done; try congruence.
      { rewrite E6, Hctl. done. }
      do 4 (split; [done|]). exists evs. rewrite Htr, Hevs.
      by rewrite <- !app_assoc.
    + eexists. split; [exact He|].
      destruct (Hget _ _ Hd2) as (G1 & G2 & G3 & G4); try done; try congruence.
      { rewrite E6, Hctl. done. }
      do 4 (split; [done|]). exists evs. rewrite Hevs.
      by rewrite <- !app_assoc.
Qed.

Lemma cancel_after_expiry_witness :
  run history_expired start = Some after_expiry
  ∧ ∃ s', ends (cancel 1 (Some "y"%string) (st after_expiry)) s'
          ∧ isCancelled 1 s' = Ret true s'
          ∧ getCause 1 s' = Ret (Some "y"%string) s'
          ∧ getController 1 s' = Ret (Some deadline_cause) s'
          ∧ DeadlineContext_done 1 s' = Ret (Some deadline_cause) s'.
Proof.
  split; [vm_compute; reflexivity|].
  assert (run history_expired start = Some after_expiry) as H1
    by (vm_compute; reflexivity).
  assert (1 ∈ known after_expiry) as H2 by known_scope.
  assert (expired expired_scope) as H3 by (by repeat split).
  destruct (cancel_after_expiry history_expired after_expiry 1 expired_scope
              (Some "y"%string) H1 H2 eq_refl H3) as (s' & E1 & E2 & E3 & E4 & E5 & _).
  exists s'. by do 4 (split; [done|]).
Defined.

(** * Timers and their owners *)

Lemma disarm_lookup_fwd t T t' tm :
  T !! t' = Some tm →
  ∃ tm', disarm t T !! t' = Some tm' ∧ target tm' = target tm ∧ (t ≠ t' → tm' = tm).
Proof.
  intros Ht'. unfold disarm. destruct (T !! t) as [tm0|] eqn:Ht; [|by exists tm].
  destruct (decide (t = t')) as [->|Hne].
  - exists (clear_timer tm0). rewrite list_lookup_insert_eq by (by eapply lookup_lt_Some).
    split; [done|]. split; [|done].
    assert (tm0 = tm) as -> by congruence. unfold clear_timer. by destruct (status tm).
  - exists tm. by rewrite list_lookup_insert_ne.
Qed.

Lemma timers_ok_born s s' ob :
  timers_ok s → heap s' = heap s ++ [ob] → timers s' = timers s →
  timeoutId ob = Undefined → doneResolve ob = false →
  timers_ok s'.
Proof.
  intros [T1 T2 T3 T4] Hh Ht Hid Hres. split; rewrite ?Hh, ?Ht.
  - intros t tm Htm. destruct (T1 t tm Htm) as (o & Ho & Hk).
    exists o. split; [by apply lookup_app_l_Some|done].
  - intros i o t [Hi|[_ Hi]]%lookup_app_Some Hv; [by eapply T2|].
    apply list_lookup_singleton_Some in Hi as [_ <-]. congruence.
  - done.
  - intros i o [Hi|[_ Hi]]%lookup_app_Some Hk Hr Hc; [by eapply T4|].
    apply list_lookup_singleton_Some in Hi as [_ <-]. congruence.
Qed.

Lemma timers_ok_armed s s' p ms :
  timers_ok s →
  heap s' = heap s ++ [armed_obj p (length (timers s))] →
  timers s' = timers s ++ [mkTimer (length (heap s)) ms Pending] →
  timers_ok s'.
Proof.
  intros [T1 T2 T3 T4] Hh Ht.
  assert (∀ t tm, timers s !! t = Some tm → target tm < length (heap s)) as Hlt.
  { intros t tm Htm. destruct (T1 t tm Htm) as (o & Ho & _). by eapply lookup_lt_Some. }
  split; rewrite ?Hh, ?Ht.
  - intros t tm [Htm|[_ Htm]]%lookup_app_Some.
    + destruct (T1 t tm Htm) as (o & Ho & Hk).
      exists o. split; [by apply lookup_app_l_Some|done].
    + apply list_lookup_singleton_Some in Htm as [_ <-]. simpl.
      exists (armed_obj p (length (timers s))). by rewrite list_lookup_middle.
  - intros i o t [Hi|[Hge Hi]]%lookup_app_Some Hv.
    + destruct (T2 i o t Hi Hv) as (tm & Htm & Htg).
      exists tm. split; [by apply lookup_app_l_Some|done].
    + apply list_lookup_singleton_Some in Hi as [Hz <-]. injection Hv as <-.
      eexists. rewrite list_lookup_middle by done. split; [done|]. simpl. lia.
  - intros t t' tm tm' [Htm|[Hge Htm]]%lookup_app_Some [Htm'|[Hge' Htm']]%lookup_app_Some Heq.
    + by eapply T3.
    + apply list_lookup_singleton_Some in Htm' as [_ <-]. simpl in Heq.
      specialize (Hlt t tm Htm). lia.
    + apply list_lookup_singleton_Some in Htm as [_ <-]. simpl in Heq.
      specialize (Hlt t' tm' Htm'). lia.
    + apply list_lookup_singleton_Some in Htm as [Hz _].
      apply list_lookup_singleton_Some in Htm' as [Hz' _]. lia.
  - intros i o [Hi|[Hge Hi]]%lookup_app_Some Hk Hr Hc.
    + destruct (T4 i o Hi Hk Hr Hc) as (t & tm & Hid & Htm & Hst).
      exists t, tm. split; [done|]. split; [by apply lookup_app_l_Some|done].
    + apply list_lookup_singleton_Some in Hi as [Hz <-].
      eexists _, _. split; [done|]. by rewrite list_lookup_middle.
Qed.

(** A change of one object and of the status of the timer it holds. *)
Lemma timers_ok_change s s' x ob ob' :
  timers_ok s → heap s !! x = Some ob → heap s' = <[x := ob']> (heap s) →
  cls ob' = cls ob →
  (doneResolve ob' = true → doneResolve ob = true) →
  (∀ t, timeoutId ob' = Val t → timeoutId ob = Val t) →
  (∀ t tm, timers s !! t = Some tm →
           ∃ tm', timers s' !! t = Some tm' ∧ target tm' = target tm
                  ∧ (timeoutId ob ≠ Val t → tm' = tm)) →
  (∀ t tm', timers s' !! t = Some tm' →
            ∃ tm, timers s !! t = Some tm ∧ target tm' = target tm) →
  (cause ob' = None →
   cause ob = None ∧ timeoutId ob' = timeoutId ob
   ∧ ∀ t, timeoutId ob = Val t → timers s' !! t = timers s !! t) →
  timers_ok s'.
Proof.
  intros [T1 T2 T3 T4] Hx Hh Hk Hres Hid Hfwd Hbwd Hlive. split; rewrite ?Hh.
  - intros t tm' Htm'. destruct (Hbwd t tm' Htm') as (tm & Htm & ->).
    destruct (T1 t tm Htm) as (o & Ho & Hko).
    destruct (decide (x = target tm)) as [->|Hne].
    + exists ob'. rewrite list_lookup_insert_eq by (by eapply lookup_lt_Some).
      split; [done|]. congruence.
    + exists o. by rewrite list_lookup_insert_ne.
  - intros i o t [(-> & -> & _)|(Hne & Hi)]%list_lookup_insert_Some Hv.
    + destruct (T2 i ob t Hx (Hid t Hv)) as (tm & Htm & Htg).
      destruct (Hfwd t tm Htm) as (tm' & Htm' & Htg' & _).
      exists tm'. split; [done|congruence].
    + destruct (T2 i o t Hi Hv) as (tm & Htm & Htg).
      destruct (Hfwd t tm Htm) as (tm' & Htm' & Htg' & _).
      exists tm'. split; [done|congruence].
  - intros t t' tm tm' Htm Htm' Heq.
    destruct (Hbwd t tm Htm) as (tm0 & Htm0 & E0).
    destruct (Hbwd t' tm' Htm') as (tm0' & Htm0' & E0').
    eapply T3; [done|done|congruence].
  - intros i o [(-> & -> & _)|(Hne & Hi)]%list_lookup_insert_Some Hko Hr Hc.
    + destruct (Hlive Hc) as (Hc0 & Hid0 & Hsame).
      destruct (T4 i ob Hx) as (t & tm & Ht & Htm & Hst); [congruence|by apply Hres|done|].
      exists t, tm. split; [congruence|]. split; [|done]. by rewrite Hsame.
    + destruct (T4 i o Hi Hko Hr Hc) as (t & tm & Ht & Htm & Hst).
      exists t, tm. split; [done|]. split; [|done].
      destruct (Hfwd t tm Htm) as (tm' & Htm' & _ & Hsame).
      rewrite Htm'. f_equal. apply Hsame. intros Hxt.
      destruct (T2 x ob t Hx Hxt) as (tm1 & Htm1 & Htg1).
      destruct (T2 i o t Hi Ht) as (tm2 & Htm2 & Htg2). congruence.
Qed.

(** The same with the timers untouched. *)
Lemma timers_ok_update s s' x ob ob' :
  timers_ok s → heap s !! x = Some ob → heap s' = <[x := ob']> (heap s) →
  timers s' = timers s →
  cls ob' = cls ob → doneResolve ob' = doneResolve ob →
  timeoutId ob' = timeoutId ob →
  (cause ob' = None → cause ob = None) →
  timers_ok s'.
Proof.
  intros Hok Hx Hh Ht Hk Hr Hid Hc.
  eapply (timers_ok_change s s' x ob ob'); try done.
  - congruence.
  - congruence.
  - rewrite Ht. intros t tm Htm. by exists tm.
  - rewrite Ht. intros t tm Htm. by exists tm.
  - intros Hn. split; [by apply Hc|]. split; [done|]. by rewrite Ht.
Qed.

Lemma timers_ok_reaches s x ob c :
  timers_ok s → heap s !! x = Some ob → timers_ok (reaches x ob c s).
Proof.
  intros Hok Hx.
  destruct (reach_obj_fields c ob) as (E1 & E2 & E3 & E4 & E5 & E6 & E7 & E8 & E9).
  eapply (timers_ok_change s _ x ob); try done.
  - by apply reaches_heap.
  - congruence.
  - rewrite E9. by destruct (cls ob).
  - intros t tm Htm. rewrite reaches_timers, entered_timers.
    destruct (cls ob); try (by exists tm).
    destruct (timeoutId ob) as [| |t0] eqn:Hid; try (by exists tm).
    destruct (disarm_lookup_fwd t0 _ t tm Htm) as (tm' & H1 & H2 & H3).
    exists tm'. split; [done|]. split; [done|]. intros Hne. apply H3. congruence.
  - intros t tm'. rewrite reaches_timers, entered_timers.
    destruct (cls ob); try (by exists tm').
    destruct (timeoutId ob) as [| |t0] eqn:Hid; try (by exists tm').
    intros (tm & H1 & H2 & _)%disarm_lookup. by exists tm.
  - rewrite E4. done.
Qed.

Lemma block_timers s s' : timers_ok s → block s s' → timers_ok s'.
Proof.
  intros Hok Hb.
  destruct Hb as [p Hp|k p Hk Hp|p pob ms Hp Hc|p pob pob' v ov Hp Hok' Hv Hpar Hk Hl'
                 |x ob c Hx Hok' Hk Hc|x ob c Hx Hok' Hk Hc Hr|x ob cb Hx Hok' Hc
                 |x ob cb c Hx Hc Hv|t tm ob Htm Hst Ho Hok' Ha|w tk oc Htk Hr Ho Hc
                 |w tk pob oc c Htk Hr Hp Hv Ho Hok' Hk Hc].
  - by apply (timers_ok_born s _ (set_parent p (blank KContext))).
  - by apply (timers_ok_born s _ (fresh k p)).
  - apply (timers_ok_armed s _ p ms); [done| |]; by destruct (cls pob).
  - destruct (link_obj_Some _ _ _ Hl') as (w & -> & _).
    by apply (timers_ok_update s _ p pob (set_children (Data w (Some v)) pob)).
  - by apply timers_ok_reaches.
  - destruct (resolve_obj_fields c ob) as (E1 & E2 & E3 & E4 & E5 & E6 & E7 & E8 & E9 & E10).
    apply (timers_ok_update s _ x ob (resolve_obj c ob)); try done. congruence.
  - by apply (timers_ok_update s _ x ob
                (set_cancelCallback (cancelCallback ob ++ [cb]) ob)).
  - by destruct Hok.
  - pose proof (expire_obj_armed t ob Ha) as He.
    destruct Ha as [A1 A2 A3 A4 A5 A6].
    apply (timers_ok_change s _ (target tm) ob (expire_obj ob)); try done;
      rewrite ?He; simpl; try done.
    + intros t' tm' Htm'. destruct (decide (t = t')) as [<-|Hne].
      * eexists. rewrite list_lookup_insert_eq by (by eapply lookup_lt_Some).
        split; [done|]. split; [simpl; congruence|]. intros Hn. congruence.
      * exists tm'. by rewrite list_lookup_insert_ne.
    + intros t' tm'.
      intros [(<- & <- & _)|(Hne & H)]%list_lookup_insert_Some; [by exists tm|by exists tm'].
  - by destruct Hok.
  - apply (timers_ok_reaches (woken w tk s)); [by destruct Hok|done].
Qed.

Lemma timers_ok_boot : timers_ok boot.
Proof. split; intros *; simpl; by rewrite lookup_nil. Qed.

Lemma reachable_timers ops cfg : run ops start = Some cfg → timers_ok (st cfg).
Proof.
  apply (reachable_invariant timers_ok); [apply timers_ok_boot|].
  intros s s'. apply block_timers.
Qed.

(** X13. A deadline is never lost.  In every reachable state, a deadline
    scope held by the client that has no cause yet holds the handle of a
    timer that is still pending and will call [finish] on this very scope;
    it is the only timer ever armed for the scope. *)
Theorem live_deadline_has_timer ops cfg d ob :
  run ops start = Some cfg → d ∈ known cfg →
  heap (st cfg) !! d = Some ob → cls ob = KDeadlineContext → cause ob = None →
  ∃ t tm, timeoutId ob = Val t
          ∧ timers (st cfg) !! t = Some tm ∧ target tm = d
          ∧ is_pending (st cfg) t = true
          ∧ ∀ t' tm', timers (st cfg) !! t' = Some tm' → target tm' = d → t' = t.
Proof.
  intros Hrun Hin Hd Hk Hc.
  pose proof (reachable_inv _ _ Hrun) as Hwf. unfold inv in Hwf.
  pose proof (reachable_timers _ _ Hrun) as [T1 T2 T3 T4].
  assert (doneResolve ob = true) as Hres.
  { destruct (wf_known _ _ Hwf d Hin) as (ob' & Hd' & Hu).
    assert (ob' = ob) as -> by congruence. by apply Hu. }
  destruct (T4 d ob Hd Hk Hres Hc) as (t & tm & Hid & Htm & Hst).
  destruct (T2 d ob t Hd Hid) as (tm0 & Htm0 & Htg).
  assert (tm0 = tm) as -> by congruence.
  exists t, tm. do 3 (split; [done|]). split.
  - unfold is_pending. by rewrite Htm, Hst.
  - intros t' tm' Htm' Htg'. eapply T3; [done|done|congruence].
Qed.

Lemma live_deadline_has_timer_witness :
  run history_watched start = Some watched
  ∧ ∃ t tm, timeoutId (default (blank KContext) (heap (st watched) !! 1)) = Val t
            ∧ timers (st watched) !! t = Some tm ∧ target tm = 1
            ∧ is_pending (st watched) t = true
            ∧ ∀ t' tm', timers (st watched) !! t' = Some tm' → target tm' = 1 → t' = t.
Proof.
  split; [vm_compute; reflexivity|].
  assert (run history_watched start = Some watched) as H1 by (vm_compute; reflexivity).
  assert (1 ∈ known watched) as H2 by known_scope.
  exact (live_deadline_has_timer history_watched watched 1
           (default (blank KContext) (heap (st watched) !! 1)) H1 H2 eq_refl eq_refl eq_refl).
Defined.

(** * Deadline scopes below deadline scopes *)

(** A block that allocates nothing keeps the waiters in order when every
    object keeps its class, its parent and its resolver, a live object was
    live before, and a continuation leaves its pending state only when
    the scope that waits in it is cancelled. *)
Lemma waiters_ok_change s s' :
  waiters_ok s →
  (∀ i o', heap s' !! i = Some o' →
           ∃ o, heap s !! i = Some o ∧ cls o' = cls o ∧ parent o' = parent o
                ∧ doneResolve o' = doneResolve o
                ∧ (canceled o' = false → canceled o = false)) →
  (∀ i o, heap s !! i = Some o →
          ∃ o', heap s' !! i = Some o' ∧ cls o' = cls o ∧ parent o' = parent o
                ∧ doneResolve o' = doneResolve o) →
  (∀ w tk', waiters s' !! w = Some tk' →
            ∃ tk, waiters s !! w = Some tk ∧ awaited tk' = awaited tk
                  ∧ waiting tk' = waiting tk) →
  (∀ w tk, waiters s !! w = Some tk →
           waiters s' !! w = Some tk
           ∨ ∃ o', heap s' !! waiting tk = Some o' ∧ canceled o' = true) →
  waiters_ok s'.
Proof.
  intros [W1 W2] Hbwd Hfwd Hwb Hwf. split.
  - intros w tk' Htk'. destruct (Hwb w tk' Htk') as (tk & Htk & -> & ->).
    destruct (W1 w tk Htk) as (pob & ob & Hp & Hkp & Ho & Hk & Hpar & Hres).
    destruct (Hfwd _ _ Hp) as (pob' & Hp' & Ekp & _).
    destruct (Hfwd _ _ Ho) as (ob' & Ho' & Ek & Epar & Eres).
    exists pob', ob'. repeat split; congruence.
  - intros d ob' p pob' Hd' Hk Hres Hc Hpar Hp' Hkp.
    destruct (Hbwd _ _ Hd') as (ob & Hd & Ek & Epar & Eres & Ec).
    destruct (Hbwd _ _ Hp') as (pob & Hp & Ekp & _).
    destruct (W2 d ob p pob) as (w & Hw); try congruence; [by apply Ec|].
    exists w. destruct (Hwf w _ Hw) as [?|(o' & Ho' & Hco')]; [done|].
    simpl in Ho'. congruence.
Qed.

(** The same for a change of one object. *)
Lemma waiters_ok_update s s' x ob ob' :
  waiters_ok s → heap s !! x = Some ob → heap s' = <[x := ob']> (heap s) →
  waiters s' = waiters s →
  cls ob' = cls ob → parent ob' = parent ob → doneResolve ob' = doneResolve ob →
  (canceled ob' = false → canceled ob = false) →
  waiters_ok s'.
Proof.
  intros Hok Hx Hh Hw Hk Hpar Hres Hc.
  apply (waiters_ok_change s s' Hok); rewrite ?Hh, ?Hw.
  - intros i o' [(-> & <- & _)|(Hne & Hi)]%list_lookup_insert_Some.
    + by exists ob.
    + by exists o'.
  - intros i o Hi. destruct (decide (x = i)) as [->|Hne].
    + exists ob'. rewrite list_lookup_insert_eq by (by eapply lookup_lt_Some).
      assert (o = ob) as -> by congruence. done.
    + exists o. by rewrite list_lookup_insert_ne.
  - intros w tk Htk. by exists tk.
  - intros w tk Htk. by left.
Qed.

Lemma waiters_ok_born s s' ob :
  links_ok s → waiters_ok s → heap s' = heap s ++ [ob] → waiters s' = waiters s →
  doneResolve ob = false →
  waiters_ok s'.
Proof.
  intros Hl [W1 W2] Hh Hw Hres. split; rewrite ?Hh, ?Hw.
  - intros w tk Htk. destruct (W1 w tk Htk) as (pob & o & Hp & Hkp & Ho & Hk & Hpar & Hr).
    exists pob, o. split; [by apply lookup_app_l_Some|]. split; [done|].
    split; [by apply lookup_app_l_Some|done].
  - intros d o p pob [Hd|[_ Hd]]%lookup_app_Some Hk Hr Hc Hpar Hp Hkp.
    + apply lookup_app_Some in Hp as [Hp|[Hge Hp]]; [by eapply W2|].
      pose proof (lk_parent _ Hl d o p Hd Hpar). apply lookup_lt_Some in Hd. lia.
    + apply list_lookup_singleton_Some in Hd as [_ <-]. congruence.
Qed.

Lemma waiters_ok_armed s s' p pob :
  links_ok s → waiters_ok s → heap s !! p = Some pob →
  heap s' = heap s ++ [armed_obj p (length (timers s))] →
  waiters s' = match cls pob with
               | KDeadlineContext => waiters s ++ [mkWaiter p (length (heap s)) false]
               | _ => waiters s
               end →
  waiters_ok s'.
Proof.
  intros Hl [W1 W2] Hp Hh Hw.
  assert (∀ w tk, waiters s !! w = Some tk → waiters s' !! w = Some tk) as Hkeep.
  { intros w tk Htk. rewrite Hw. destruct (cls pob); try done.
    by apply lookup_app_l_Some. }
  split; rewrite ?Hh.
  - intros w tk. rewrite Hw. intros Htk.
    assert (waiters s !! w = Some tk
            ∨ (cls pob = KDeadlineContext ∧ tk = mkWaiter p (length (heap s)) false))
      as [Htk'|[Hk ->]].
    { destruct (cls pob); try (by left).
      apply lookup_app_Some in Htk as [?|[_ Htk]]; [by left|right].
      by apply list_lookup_singleton_Some in Htk as [_ <-]. }
    + destruct (W1 w tk Htk') as (pob0 & o & Hp0 & Hkp & Ho & Hk & Hpar & Hr).
      exists pob0, o. split; [by apply lookup_app_l_Some|]. split; [done|].
      split; [by apply lookup_app_l_Some|done].
    + exists pob, (armed_obj p (length (timers s))). simpl.
      split; [by apply lookup_app_l_Some|]. split; [done|].
      split; [by rewrite list_lookup_middle|done].
  - intros d o q qob [Hd|[Hge Hd]]%lookup_app_Some Hk Hr Hc Hpar Hq Hkq.
    + apply lookup_app_Some in Hq as [Hq|[Hge Hq]].
      * destruct (W2 d o q qob) as [w Hw']; try done. exists w. by apply Hkeep.
      * pose proof (lk_parent _ Hl d o q Hd Hpar). apply lookup_lt_Some in Hd. lia.
    + apply list_lookup_singleton_Some in Hd as [Hz <-]. simpl in Hpar.
      injection Hpar as <-.
      assert (d = length (heap s)) as -> by lia.
      apply lookup_app_Some in Hq as [Hq|[Hge' Hq]].
      * assert (qob = pob) as -> by congruence. rewrite Hw, Hkq.
        exists (length (waiters s)). by rewrite list_lookup_middle.
      * apply lookup_lt_Some in Hp. lia.
Qed.

Lemma woken_lookup w tk s w' tk' :
  waiters s !! w = Some tk →
  waiters (woken w tk s) !! w' = Some tk' →
  ∃ tk0, waiters s !! w' = Some tk0 ∧ awaited tk' = awaited tk0
         ∧ waiting tk' = waiting tk0 ∧ (w' ≠ w → tk' = tk0).
Proof.
  intros Htk. simpl.
  intros [(-> & <- & _)|(Hne & H)]%list_lookup_insert_Some.
  - by exists tk.
  - by exists tk'.
Qed.

Lemma block_waiters s s' : links_ok s → waiters_ok s → block s s' → waiters_ok s'.
Proof.
  intros Hl Hok Hb.
  destruct Hb as [p Hp|k p Hk Hp|p pob ms Hp Hc|p pob pob' v ov Hp Hok' Hv Hpar Hk Hl'
                 |x ob c Hx Hok' Hk Hc|x ob c Hx Hok' Hk Hc Hr|x ob cb Hx Hok' Hc
                 |x ob cb c Hx Hc Hv|t tm ob Htm Hst Ho Hok' Ha|w tk oc Htk Hr Ho Hc
                 |w tk pob oc c Htk Hr Hp Hv Ho Hok' Hk Hc].
  - by apply (waiters_ok_born s _ (set_parent p (blank KContext))).
  - by apply (waiters_ok_born s _ (fresh k p)).
  - apply (waiters_ok_armed s _ p pob); [done|done|done| |]; by destruct (cls pob).
  - destruct (link_obj_Some _ _ _ Hl') as (w & -> & _).
    by apply (waiters_ok_update s _ p pob (set_children (Data w (Some v)) pob)).
  - destruct (reach_obj_fields c ob) as (E1 & E2 & E3 & E4 & E5 & E6 & E7 & E8 & E9).
    eapply (waiters_ok_update s _ x ob);
      [done|done|by apply reaches_heap|apply reaches_waiters|done|done|done|congruence].
  - destruct (resolve_obj_fields c ob) as (E1 & E2 & E3 & E4 & E5 & E6 & E7 & E8 & E9 & E10).
    apply (waiters_ok_update s _ x ob (resolve_obj c ob)); try done. congruence.
  - by apply (waiters_ok_update s _ x ob
                (set_cancelCallback (cancelCallback ob ++ [cb]) ob)).
  - by destruct Hok.
  - pose proof (expire_obj_armed t ob Ha) as He.
    apply (waiters_ok_update s _ (target tm) ob (expire_obj ob)); try done;
      rewrite He; try done. simpl. by destruct Ha.
  - apply (waiters_ok_change s _ Hok).
    + intros i o' Hi. by exists o'.
    + intros i o Hi. by exists o.
    + intros w' tk' Htk'.
      destruct (woken_lookup _ _ _ _ _ Htk Htk') as (tk0 & H1 & H2 & H3 & _).
      by exists tk0.
    + intros w' tk' Htk'. destruct (decide (w' = w)) as [->|Hne].
      * right. assert (tk' = tk) as -> by congruence. by exists oc.
      * left. simpl. by rewrite list_lookup_insert_ne.
  - destruct (reach_obj_fields c oc) as (E1 & E2 & E3 & E4 & E5 & E6 & E7 & E8 & E9).
    set (oc' := match thrower (cancelCallback oc) with
                | None => cancel_obj c oc
                | Some _ => stop_obj c oc
                end) in *.
    assert (heap (reaches (waiting tk) oc c (woken w tk s))
            = <[waiting tk := oc']> (heap s)) as Hh
      by (by rewrite reaches_heap).
    assert (waiters (reaches (waiting tk) oc c (woken w tk s)) = waiters (woken w tk s))
      as Hw by apply reaches_waiters.
    apply (waiters_ok_change s _ Hok); rewrite ?Hh, ?Hw.
    + intros i o' [(<- & <- & _)|(Hne & Hi)]%list_lookup_insert_Some.
      * exists oc. do 4 (split; [done|]). congruence.
      * by exists o'.
    + intros i o Hi. destruct (decide (waiting tk = i)) as [<-|Hne].
      * exists oc'.
        rewrite list_lookup_insert_eq by (by eapply lookup_lt_Some).
        assert (o = oc) as -> by congruence. done.
      * exists o. by rewrite list_lookup_insert_ne.
    + intros w' tk' Htk'.
      destruct (woken_lookup _ _ _ _ _ Htk Htk') as (tk0 & H1 & H2 & H3 & _).
      by exists tk0.
    + intros w' tk' Htk'. destruct (decide (w' = w)) as [->|Hne].
      * right. assert (tk' = tk) as -> by congruence.
        exists oc'.
        by rewrite list_lookup_insert_eq by (by eapply lookup_lt_Some).
      * left. simpl. by rewrite list_lookup_insert_ne.
Qed.

Lemma waiters_ok_boot : waiters_ok boot.
Proof. split; intros *; simpl; by rewrite lookup_nil. Qed.

Lemma reachable_waiters ops cfg : run ops start = Some cfg → waiters_ok (st cfg).
Proof.
  intros Hrun.
  apply (reachable_invariant (λ s, links_ok s ∧ waiters_ok s)) with (ops := ops);
    [split; [apply links_ok_boot|apply waiters_ok_boot]| |done].
  intros s s' [H1 H2] Hb. split; [by eapply block_links|by eapply block_waiters].
Qed.

(** X14. A deadline scope constructed below a live deadline scope
    follows its parent.  In every reachable state in which the child is not
    yet cancelled, a continuation is parked on the parent's promise, and it
    is ready to run exactly when that promise is fulfilled.  When it runs,
    the child is cancelled with the cause the parent has then, which need
    not be the value of the promise; the continuation ends by returning, or
    by throwing what a listener of the child or of a scope below it has
    thrown.  This holds whether or not the child is the scope linked as the
    parent's [children]. *)
Theorem deadline_follows_parent ops cfg d ob p pob :
  run ops start = Some cfg → d ∈ known cfg →
  heap (st cfg) !! d = Some ob → cls ob = KDeadlineContext →
  canceled ob = false → parent ob = Some p →
  heap (st cfg) !! p = Some pob → cls pob = KDeadlineContext →
  ∃ w, waiters (st cfg) !! w = Some (mkWaiter p d false)
       ∧ is_ready (st cfg) w = is_fulfilled (st cfg) p
       ∧ (is_fulfilled (st cfg) p = true →
          ∃ x s', cause pob = Some x
                  ∧ ends (resume w (st cfg)) s'
                  ∧ isCancelled d s' = Ret true s'
                  ∧ getCause d s' = Ret (Some x) s').
Proof.
  intros Hrun Hind Hd Hk Hc Hpar Hp Hkp.
  pose proof (reachable_inv _ _ Hrun) as Hwf. unfold inv in Hwf.
  pose proof (reachable_waiters _ _ Hrun) as [W1 W2].
  assert (doneResolve ob = true) as Hres.
  { destruct (wf_known _ _ Hwf d Hind) as (o' & Ho' & Hu).
    assert (o' = ob) as -> by congruence. by apply Hu. }
  destruct (W2 d ob p pob Hd Hk Hres Hc Hpar Hp Hkp) as (w & Hw).
  set (tk := mkWaiter p d false) in *.
  exists w. split; [done|].
  split; [unfold is_ready; by rewrite Hw|].
  intros Hful. unfold is_fulfilled in Hful. rewrite Hp in Hful.
  destruct (_done pob) as [v|] eqn:Hdn; [|done].
  pose proof (wf_obj _ _ Hwf _ _ Hp) as Hokp.
  destruct (cause pob) as [x|] eqn:Hx; [|destruct (ok_done _ Hokp); congruence].
  pose proof (wf_resumed _ _ w tk Hwf Hw) as Hwf1.
  fold (woken w tk (st cfg)) in Hwf1.
  assert (heap (woken w tk (st cfg)) !! d = Some ob) as Hd1 by done.
  assert (heap (woken w tk (st cfg)) !! p = Some pob) as Hp1 by done.
  assert (callable ob) as Hcal by (split; [congruence|done]).
  destruct (invoke_cancel_sound _ _ d ob x Hwf1 Hd1 Hcal) as (s' & Hs' & [_ _ P3]).
  destruct (P3 _ Hd1) as (ob' & Hd' & Hc' & Hv').
  exists x, s'. split; [done|]. split.
  { unfold resume. rewrite Hw. simpl resumed. cbv iota. simpl awaited. simpl waiting.
    fold (woken w tk (st cfg)).
    rewrite (bind_Ret _ _ _ _ _ (getCause_eq _ _ _ Hp1)), Hx.
    by erewrite (bind_Ret (nonnull _)) by reflexivity. }
  destruct (isCancelled_getCause _ _ _ Hd') as [G1 G2].
  split; [by rewrite G1, Hc'|by rewrite G2, (Hv' Hc)].
Qed.

Lemma deadline_follows_parent_witness :
  run history_nested start = Some nested
  ∧ ∃ w, waiters (st nested) !! w = Some (mkWaiter 1 2 false)
         ∧ is_ready (st nested) w = true
         ∧ ∃ s', ends (resume w (st nested)) s'
                 ∧ isCancelled 2 s' = Ret true s'
                 ∧ getCause 2 s' = Ret (Some deadline_cause) s'.
Proof.
  split; [vm_compute; reflexivity|].
  assert (run history_nested start = Some nested) as H1 by (vm_compute; reflexivity).
  assert (2 ∈ known nested) as H2 by known_scope.
  destruct (deadline_follows_parent history_nested nested 2 nested_child 1 nested_parent
              H1 H2 eq_refl eq_refl eq_refl eq_refl eq_refl eq_refl)
    as (w & E1 & E2 & E3).
  exists w. split; [exact E1|]. split; [rewrite E2; reflexivity|].
  destruct (E3 eq_refl) as (x & s' & E4 & E5 & E6 & E7).
  exists s'. split; [exact E5|]. split; [exact E6|].
  vm_compute in E4. injection E4 as <-. exact E7.
Defined.

(** * What cancels a scope *)

Lemma marked_new_lookup d x c ob0 s :
  d < length (heap s) →
  heap (marked (length (heap s)) x c (grown ob0 s)) !! d = heap s !! d.
Proof.
  intros Hd. unfold marked. simpl.
  rewrite list_lookup_insert_ne by lia. by rewrite lookup_app_l.
Qed.

Lemma link_new_lookup d p pob pob' v ob0 s :
  heap s !! p = Some pob → link_obj v pob = Some pob' →
  d < length (heap s) → 
  ∃ o, heap s !! d = Some o
       ∧ ∃ o', heap (put p pob' (grown ob0 s)) !! d = Some o'
               ∧ canceled o' = canceled o.
Proof.
  intros Hp Hl Hd. destruct (lookup_lt_is_Some_2 _ _ Hd) as [o Ho].
  exists o. split; [done|].
  destruct (link_obj_cls _ _ _ Hl) as (_ & Hc & _).
  destruct (decide (p = d)) as [->|Hne].
  - exists pob'. split; [eapply put_lookup_eq; by apply grown_lookup_old|].
    assert (o = pob) as -> by congruence. done.
  - exists o. rewrite put_lookup_ne by done. split; [by apply grown_lookup_old|done].
Qed.

(** Constructing a scope, registering a listener and the expiry of a timer
    leave the [canceled] flag of every existing scope as it is. *)
Lemma exec_keeps_flag op cfg cfg' d ob :
  inv cfg → exec op cfg = Some cfg' →
  (∀ o c, op ≠ Cancel o c) → (∀ w, op ≠ Resumes w) →
  heap (st cfg) !! d = Some ob →
  ∃ ob', heap (st cfg') !! d = Some ob' ∧ canceled ob' = canceled ob.
Proof.
  intros Hwf He Hnc Hnr Hd. unfold inv in Hwf. unfold exec in He.
  destruct (enabled op cfg) eqn:Hen; [|done].
  destruct cfg as [s K]. simpl in *.
  pose proof (lookup_lt_Some _ _ _ Hd) as Hlt.
  assert (∀ p, match (let! r := new_Context p in ret (Some r)) s with
               | Ret (Some r) s' => Some (mkConfig s' (K ++ [r]))
               | Ret None s' => Some (mkConfig s' K)
               | Throw _ s' => Some (mkConfig s' K)
               | Wrong => None
               end = Some cfg' →
               ∃ ob', heap (st cfg') !! d = Some ob' ∧ canceled ob' = canceled ob)
    as Hctx.
  { intros p. rewrite (bind_Ret _ _ _ _ _ (new_Context_eq p s)).
    intros [= <-]. exists ob. split; [by apply grown_lookup_old|done]. }
  assert (∀ ob0 p pob v,
             heap s !! p = Some pob →
             ∀ r, match link_obj v pob with
                  | Some pob' => heap r = heap (put p pob' (grown ob0 s))
                  | None => heap r = heap (grown ob0 s)
                  end →
                  ∃ ob', heap r !! d = Some ob' ∧ canceled ob' = canceled ob) as Hlink.
  { intros ob0 p pob v Hp r Hr. destruct (link_obj v pob) as [pob'|] eqn:Hl; rewrite Hr.
    - destruct (link_new_lookup d p pob pob' v ob0 s Hp Hl Hlt)
        as (o & Ho & o' & Ho' & Hc).
      assert (o = ob) as -> by congruence. by exists o'.
    - exists ob. split; [by apply grown_lookup_old|done]. }
  assert (∀ x c ob0, ∃ ob', heap (marked (length (heap s)) x c (grown ob0 s)) !! d
                            = Some ob' ∧ canceled ob' = canceled ob) as Hmark.
  { intros x c ob0. exists ob. split; [|done]. by rewrite marked_new_lookup. }
  destruct op as [| |[p|]|p|p ms|o c|o cb|t|w]; simpl in Hen, He.
  - by apply (Hctx None).
  - by apply (Hctx None).
  - by apply (Hctx (Some p)).
  - by apply (Hctx None).
  - apply holds_known in Hen. simpl in Hen.
    destruct (wf_known _ _ Hwf p Hen) as (pob & Hp & _).
    unfold bind in He. rewrite (new_CancelableContext_eq p pob s Hp) in He.
    cbv zeta in He.
    destruct (cls pob) eqn:Hk.
    + injection He as <-. exists ob. split; [by apply grown_lookup_old|done].
    + destruct (canceled pob).
      * destruct (cause pob) as [x|]; [|done]. injection He as <-. apply Hmark.
      * eapply (Hlink _ p pob (length (heap s)) Hp).
        destruct (link_obj _ _); by injection He as <-.
    + destruct (canceled pob).
      * destruct (cause pob) as [x|]; [|done]. injection He as <-. apply Hmark.
      * eapply (Hlink _ p pob (length (heap s)) Hp).
        destruct (link_obj _ _); by injection He as <-.
  - apply holds_known in Hen. simpl in Hen.
    destruct (wf_known _ _ Hwf p Hen) as (pob & Hp & _).
    pose proof (wf_obj _ _ Hwf _ _ Hp) as Hokp.
    unfold bind in He. rewrite (new_DeadlineContext_eq p ms pob s Hp) in He.
    cbv zeta in He.
    destruct (cls pob) eqn:Hk.
    + eapply (Hlink (armed_obj p (length (timers s))) p pob (length (heap s)) Hp).
      destruct (link_obj _ _); by injection He as <-.
    + destruct (canceled pob).
      * destruct (cause pob) as [x|]; [|done]. injection He as <-. apply Hmark.
      * eapply (Hlink (armed_obj p (length (timers s))) p pob (length (heap s)) Hp).
        rewrite link_obj_cancelable in He |- * by (done || congruence).
        by injection He as <-.
    + destruct (canceled pob).
      * destruct (cause pob) as [x|]; [|done]. injection He as <-. apply Hmark.
      * eapply (Hlink (armed_obj p (length (timers s))) p pob (length (heap s)) Hp).
        rewrite link_obj_cancelable in He |- * by (done || congruence).
        by injection He as <-.
  - by destruct (Hnc o c).
  - apply andb_true_iff in Hen as [Hin Hc]. apply holds_known in Hin. simpl in Hin.
    destruct (is_cancelable_callable _ _ _ Hwf Hin Hc) as (oo & Ho & Hcal).
    pose proof (wf_obj _ _ Hwf _ _ Ho) as Hok.
    unfold bind in He.
    destruct (canceled oo) eqn:Hcan.
    + destruct (cause oo) as [x|] eqn:Hx; [|by destruct (ok_cause _ Hok Hcan)].
      rewrite (onCancel_dead _ _ _ _ _ Ho Hcan Hx) in He.
      destruct cb; injection He as <-; by exists ob.
    + rewrite (onCancel_live _ _ _ _ Ho Hcan) in He. injection He as <-.
      destruct (decide (o = d)) as [->|Hne].
      * eexists. split; [by eapply put_lookup_eq|].
        assert (oo = ob) as -> by congruence. done.
      * exists ob. split; [|done]. simpl. by rewrite list_lookup_insert_ne.
  - unfold is_pending in Hen.
    destruct (timers s !! t) as [tm|] eqn:Htm; [|done].
    destruct (status tm) eqn:Hst; try done.
    destruct (fire_eq K s t tm Hwf Htm Hst) as (oo & Ho & Ha & Hf).
    unfold bind in He. rewrite Hf in He. injection He as <-.
    destruct (decide (target tm = d)) as [<-|Hne].
    + exists (expire_obj oo). split; [by eapply put_lookup_eq|].
      rewrite (expire_obj_armed t oo Ha). simpl.
      assert (oo = ob) as -> by congruence. by destruct Ha.
    + exists ob. simpl. by rewrite list_lookup_insert_ne.
  - by destruct (Hnr w).
Qed.

(** A scope off the course of a cancellation keeps its [canceled] flag. *)
Lemma off_course_flag K s x ob c s' d od od' :
  wf K s → heap s !! x = Some ob → callable ob →
  ends (invoke_cancel x c s) s' →
  d ∉ cascade_of s x →
  heap s !! d = Some od → heap s' !! d = Some od' →
  canceled od' = canceled od.
Proof.
  intros Hwf Hx Hcal Hends Hn Hd Hd'.
  destruct (cancel_fuel_course (length (heap s) - x) K s x ob c Hwf Hx Hcal)
    as (s0 & H0 & _ & H2); [done|].
  assert (s0 = s') as ->.
  { unfold invoke_cancel in Hends. rewrite H0 in Hends.
    destruct ((cascade_run (length (heap s) - x) s x).2);
      [by apply ends_Ret in Hends|by apply ends_Ret in Hends
      |by apply ends_Throw in Hends]. }
  destruct (H2 d) as [Hsame|(_ & oi & Hoi & _ & _ & Hr)].
  - intros Hin. apply Hn. by apply cascade_run_path.
  - congruence.
  - assert (oi = od) as -> by congruence.
    assert (od' = resolve_obj c od) as -> by congruence.
    by destruct (resolve_obj_fields c od) as (_ & _ & -> & _).
Qed.

(** X15. What cancels a scope.  A scope that is live before an operation
    and cancelled after it was reached by a cascade: the operation is a
    [cancel] on a scope from which the linked children lead to it, or the
    continuation of a deadline scope resuming after its parent's promise
    was fulfilled.  Constructing a scope, registering a listener and the
    expiry of a timer never cancel an existing scope. *)
Theorem cancelled_only_by_cascade ops cfg op cfg' d ob ob' :
  run ops start = Some cfg → exec op cfg = Some cfg' →
  heap (st cfg) !! d = Some ob → canceled ob = false →
  heap (st cfg') !! d = Some ob' → canceled ob' = true →
  match op with
  | Cancel o _ => d ∈ cascade_of (st cfg) o
  | Resumes w => ∃ tk, waiters (st cfg) !! w = Some tk
                       ∧ d ∈ cascade_of (st cfg) (waiting tk)
  | _ => False
  end.
Proof.
  intros Hrun He Hd Hc Hd' Hc'.
  pose proof (reachable_inv _ _ Hrun) as Hinv.
  assert ((∀ o c, op ≠ Cancel o c) → (∀ w, op ≠ Resumes w) → False) as Hother.
  { intros H1 H2.
    destruct (exec_keeps_flag op cfg cfg' d ob Hinv He H1 H2 Hd) as (o' & Ho' & Hf).
    congruence. }
  pose proof Hinv as Hwf. unfold inv in Hwf.
  pose proof (exec_enabled _ _ _ He) as Hen.
  destruct op as [| |p|p|p ms|o c|o cb|t|w]; try (by apply Hother).
  - (* cancel *)
    simpl in Hen. apply andb_true_iff in Hen as [Hin Hcan].
    apply holds_known in Hin.
    destruct (is_cancelable_callable _ _ _ Hwf Hin Hcan) as (oo & Ho & Hcal).
    destruct (invoke_cancel_sound _ _ o oo (default default_cause c) Hwf Ho Hcal)
      as (s' & Hs' & _).
    unfold exec in He. rewrite (exec_enabled _ _ _ He) in He. simpl in He.
    unfold cancel in He. rewrite (exec_result _ _ _ _ He s' Hs') in Hd'.
    destruct (decide (d ∈ cascade_of (st cfg) o)) as [?|Hn]; [done|].
    pose proof (off_course_flag _ _ _ _ _ _ d ob ob' Hwf Ho Hcal Hs' Hn Hd Hd').
    congruence.
  - (* a continuation resumes *)
    simpl in Hen. unfold is_ready in Hen.
    destruct (waiters (st cfg) !! w) as [tk|] eqn:Htk; [|done].
    apply andb_true_iff in Hen as [Hres Hful]. apply negb_true_iff in Hres.
    destruct (wf_waiter _ _ Hwf w tk Htk Hres) as (_ & oc & Hoc & Hcal).
    unfold is_fulfilled in Hful.
    destruct (heap (st cfg) !! awaited tk) as [pob|] eqn:Hp; [|done].
    destruct (_done pob) as [v|] eqn:Hdn; [|done].
    pose proof (wf_obj _ _ Hwf _ _ Hp) as Hok.
    destruct (cause pob) as [x|] eqn:Hx; [|destruct (ok_done _ Hok); congruence].
    pose proof (wf_resumed _ _ w tk Hwf Htk) as Hwf1. fold (woken w tk (st cfg)) in Hwf1.
    assert (heap (woken w tk (st cfg)) !! waiting tk = Some oc) as Hoc1 by done.
    assert (heap (woken w tk (st cfg)) !! awaited tk = Some pob) as Hp1 by done.
    destruct (invoke_cancel_sound _ _ (waiting tk) oc x Hwf1 Hoc1 Hcal)
      as (s' & Hs' & _).
    assert (ends (resume w (st cfg)) s') as Hres'.
    { unfold resume. rewrite Htk, Hres. fold (woken w tk (st cfg)).
      rewrite (bind_Ret _ _ _ _ _ (getCause_eq _ _ _ Hp1)), Hx.
      by erewrite (bind_Ret (nonnull _)) by reflexivity. }
    unfold exec in He. rewrite (exec_enabled _ _ _ He) in He. simpl in He.
    rewrite (exec_result _ _ _ _ He s' Hres') in Hd'.
    exists tk. split; [done|].
    destruct (decide (d ∈ cascade_of (st cfg) (waiting tk))) as [?|Hn]; [done|].
    assert (d ∉ cascade_of (woken w tk (st cfg)) (waiting tk)) as Hn1.
    { unfold cascade_of.
      by rewrite (cascade_path_agree _ (known cfg) (st cfg) (woken w tk (st cfg)) Hwf). }
    pose proof (off_course_flag _ _ _ _ _ _ d ob ob' Hwf1 Hoc1 Hcal Hs' Hn1 Hd Hd').
    congruence.
Qed.

Lemma cancelled_only_by_cascade_witness :
  run history_family start = Some family
  ∧ 2 ∈ cascade_of (st family) 1.
Proof.
  split; [vm_compute; reflexivity|].
  assert (run history_family start = Some family) as H1 by (vm_compute; reflexivity).
  exact (cancelled_only_by_cascade history_family family (Cancel 1 (Some "x"%string))
           (default start (exec (Cancel 1 (Some "x"%string)) family)) 2
           (default (blank KContext) (heap (st family) !! 2))
           (default (blank KContext)
              (heap (st (default start (exec (Cancel 1 (Some "x"%string)) family))) !! 2))
           H1 eq_refl eq_refl eq_refl eq_refl eq_refl).
Defined.

